(** * pretty-printer: the recursive formatting engine and its cycle tracker

    A shallow embedding of [src/formatter/formatter.ts],
    [src/formatter/circular_id_generator.ts] and [src/utils.ts].

    JavaScript values live in an explicit object store: a composite value is
    a reference (its identity) into a finite map of objects, so sharing and
    cycles are expressible.  The two mutable objects every engine of one
    family shares by reference, the [WeakMap] of values being expanded and
    the id generator, are threaded as explicit state.  Exceptions are an
    outcome of their own. *)

From Stdlib Require Import ZArith String Ascii List Bool Lia DecimalString.
From stdpp Require Import base option list gmap strings.

Set Default Proof Using "Type".

(** ** Text primitives *)

Module Text.

Definition LF : ascii := "010"%char.
Definition TAB : ascii := "009"%char.
Definition DQ : ascii := "034"%char.
Definition SP : ascii := " "%char.

Definition nl : string := String LF EmptyString.
Definition dq : string := String DQ EmptyString.

(** [" ".repeat(n)] *)
Fixpoint spaces (n : nat) : string :=
  match n with
  | O => EmptyString
  | S k => String SP (spaces k)
  end.

(** [str.split(/\n/g)]: never empty, one more piece than there are
    newlines. *)
Fixpoint split (s : string) : list string :=
  match s with
  | EmptyString => [EmptyString]
  | String c r =>
      if Ascii.eqb c LF then EmptyString :: split r
      else match split r with
           | l :: ls => String c l :: ls
           | [] => [String c EmptyString]
           end
  end.

(** [lines.join(sep)] *)
Fixpoint join (sep : string) (l : list string) : string :=
  match l with
  | [] => EmptyString
  | [x] => x
  | x :: r => x +:+ sep +:+ join sep r
  end.

(** Length of the match of [/^ */] and what follows it. *)
Fixpoint leadingSpaces (s : string) : nat :=
  match s with
  | String c r => if Ascii.eqb c SP then S (leadingSpaces r) else O
  | EmptyString => O
  end.

Fixpoint dropSpaces (s : string) : string :=
  match s with
  | String c r => if Ascii.eqb c SP then dropSpaces r else s
  | EmptyString => EmptyString
  end.

(** [str.replace(ESCAPE_REGEX, escapeReplacerFn)]: the regular expression
    built from [escapeChars] is [/\n|\t/g]; a newline becomes backslash
    [n], a tab backslash [t]. *)
Fixpoint escape (s : string) : string :=
  match s with
  | EmptyString => EmptyString
  | String c r =>
      if Ascii.eqb c LF then String "\" (String "n" (escape r))
      else if Ascii.eqb c TAB then String "\" (String "t" (escape r))
      else String c (escape r)
  end.

(** [String(n)] for an integer: decimal digits, [-] for negatives. *)
Definition ofZ (z : Z) : string := NilZero.string_of_int (Z.to_int z).

(** [this._wrap([open, close], content)] *)
Definition wrap (opening closing content : string) : string :=
  opening +:+ content +:+ closing.

End Text.

(** ** Values and the object store *)

(** Identity of an object: what [WeakMap] keys and [===] compare. *)
Definition addr := nat.

(** [Number.MAX_SAFE_INTEGER] and [Number.isSafeInteger], on integers. *)
Definition MAX_SAFE_INTEGER : Z := 9007199254740991.

Definition isSafeInteger (z : Z) : bool := (Z.abs z <=? MAX_SAFE_INTEGER)%Z.

(** The characters [String(n)] writes a finite number with. *)
Definition numericChars : string := "0123456789.e+-".

(** [c] is one of the characters of [q]. *)
Fixpoint occursIn (c : ascii) (q : string) : bool :=
  match q with
  | EmptyString => false
  | String x r => Ascii.eqb c x || occursIn c r
  end.

Fixpoint numeric (t : string) : bool :=
  match t with
  | EmptyString => true
  | String c r => occursIn c numericChars && numeric r
  end.

(** The numbers of the embedding: the safe integers, which a double
    holds exactly and [String(n)] writes with all their decimal digits;
    the numbers between two of them, given by the integer [below] them
    and by the [text] that [String(n)] writes; and [NaN].  The infinities
    and the numbers of magnitude [2^53] and more are no values here: the
    loop of [formatArray] over such a [length] does not end. *)
Inductive number : Type :=
| Integer (z : Z) (safe : isSafeInteger z = true)
| Fraction (below : Z) (text : string)
    (safe : isSafeInteger below = true) (shape : numeric text = true)
| NaN.

(** The safe integer nearest to [z]: [z] itself when it is one. *)
Definition clamp (z : Z) : Z :=
  Z.max (- MAX_SAFE_INTEGER) (Z.min z MAX_SAFE_INTEGER).

Definition clamp_safe (z : Z) : isSafeInteger (clamp z) = true.
Proof.
  unfold isSafeInteger, clamp, MAX_SAFE_INTEGER. apply Z.leb_le. lia.
Qed.

Definition numberOf (z : Z) : number := Integer (clamp z) (clamp_safe z).

(** [String(n)] *)
Definition numberText (n : number) : string :=
  match n with
  | Integer z _ => Text.ofZ z
  | Fraction _ text _ _ => text
  | NaN => "NaN"
  end.


(** How often [for (let i = 0; i < n; i++)] runs its body. *)
Definition iterations (n : number) : nat :=
  match n with
  | Integer z _ => Z.to_nat z
  | Fraction below _ _ _ => Z.to_nat (below + 1)
  | NaN => 0
  end.

(** A value, as [typeof] sees it.  A function is its source text, a
    symbol its description; [VObject a] is a reference to the object
    stored at [a]. *)
Inductive value : Type :=
| VUndefined
| VNull
| VBoolean (b : bool)
| VNumber (n : number)
| VBigInt (n : Z)
| VString (s : string)
| VSymbol (description : string)
| VFunction (source : string)
| VObject (a : addr).

(** The classes the engine probes with [instanceof]: four built-in
    ones in [format], and the [Entry] of the module in the loop of
    [_formatObjectEntries]. *)
Inductive builtin : Type :=
| RegExpClass | DateClass | MapClass | SetClass | EntryClass.

Global Instance builtin_eq_dec : EqDecision builtin.
Proof. solve_decision. Defined.

(** What a call can raise.  [DanglingReference] stands for a reference
    to no stored object; a JavaScript program cannot build one. *)
Inductive error : Type := TypeError | RangeError | DanglingReference.

(** The internal slot the engine reads through a native accessor: the
    time value of a [Date], as [toISOString] writes it, [None] for an
    invalid time value, where the accessor raises [RangeError]. *)
Inductive slots : Type :=
| Ordinary
| DateValue (iso : option string).

(** [obj.constructor]: either nullish (absent, as after
    [Object.create(null)]), or some value whose [name] is a text or is
    nullish itself. *)
Inductive constructorRef : Type :=
| NoConstructor
| Constructor (name : option string).

Record property : Type := Property {
  pkey : string;
  pvalue : value;
  penumerable : bool
}.

(** An object.  [oprops] are the properties a lookup finds (own ones and
    inherited ones, the latter not enumerable), own enumerable ones in the
    order of [Object.keys]; [oprototypes] the classes whose prototype is
    on the prototype chain; [otag] the [T] of
    [Object.prototype.toString.call(obj) = "[object T]"].

    The engine calls two methods of the values it is given; what they
    answer is data of the object.  [oiterator] is what iterating the
    object hands out, from [obj[Symbol.iterator]()] to the end of the
    iteration, [None] when that member is no function; [ostring] is
    what the conversion to a string, [String(obj)], answers or raises.
    Iterators that raise or do not end, getters and methods with effects
    are not represented. *)
Record object : Type := Object {
  oconstructor : constructorRef;
  otag : string;
  oprototypes : list builtin;
  oslots : slots;
  oprops : list property;
  oiterator : option (list value);
  ostring : error + string
}.

Definition heap := gmap addr object.

(** [value instanceof C] *)
Definition instanceOf (o : object) (c : builtin) : bool :=
  bool_decide (c ∈ oprototypes o).

Fixpoint findProp (k : string) (ps : list property) : option property :=
  match ps with
  | [] => None
  | p :: r => if String.eqb (pkey p) k then Some p else findProp k r
  end.

(** [k in obj] *)
Definition hasProperty (o : object) (k : string) : bool :=
  match findProp k (oprops o) with Some _ => true | None => false end.

(** [obj[k]] *)
Definition getProperty (o : object) (k : string) : value :=
  match findProp k (oprops o) with Some p => pvalue p | None => VUndefined end.

(** [Object.keys(obj)] *)
Definition objectKeys (o : object) : list string :=
  map pkey (filter (fun p => penumerable p = true) (oprops o)).

(** [typeof v === "number"] *)
Definition isNumber (v : value) : bool :=
  match v with VNumber _ => true | _ => false end.

(** ** utils.ts *)

Module Utils.

(** [Object.prototype.toString.call(obj)] *)
Definition objectToString (o : object) : string :=
  "[object " +:+ otag o +:+ "]".

(** The class [\s], on the characters a byte string has. *)
Definition isWhitespace (c : ascii) : bool :=
  let n := nat_of_ascii c in
  Nat.eqb n 32 || (Nat.leb 9 n && Nat.leb n 13).

(** First alternative of [/^\[object\s|\]$/g]: the prefix [[object]
    followed by one white space character, at the start of the text. *)
Definition stripObjectPrefix (s : string) : string :=
  match s with
  | String "[" (String "o" (String "b" (String "j" (String "e"
      (String "c" (String "t" (String c r))))))) =>
      if isWhitespace c then r else s
  | _ => s
  end.

(** Second alternative: one closing bracket at the very end. *)
Fixpoint stripClosingBracket (s : string) : string :=
  match s with
  | EmptyString => EmptyString
  | String c EmptyString => if Ascii.eqb c "]" then EmptyString else s
  | String c r => String c (stripClosingBracket r)
  end.

(** [s.replace(/^\[object\s|\]$/g, "")] *)
Definition stripObjectBrackets (s : string) : string :=
  stripClosingBracket (stripObjectPrefix s).

(** [getConstructorName(obj)]:
    [obj.constructor.name ?? toString.call(obj).replace(...)].  Reading
    [name] off a nullish [obj.constructor] raises [TypeError]; the
    fallback is taken when the member read, [name], is nullish. *)
Definition getConstructorName (o : object) : error + string :=
  match oconstructor o with
  | NoConstructor => inl TypeError
  | Constructor (Some name) => inr name
  | Constructor None => inr (stripObjectBrackets (objectToString o))
  end.

End Utils.
Export Utils.

(** ** circular_id_generator.ts *)

Definition CircularId := Z.

Module CircularIdGenerator.

Record t : Type := Make {
  _currentId : CircularId;
  _generatedIds : gmap addr CircularId
}.

(** [new CircularIdGenerator()] *)
Definition new : t := {| _currentId := 1%Z; _generatedIds := ∅ |}.

(** [generateId(obj)]: the id and the generator after the call. *)
Definition generateId (obj : addr) (g : t) : CircularId * t :=
  match _generatedIds g !! obj with
  | Some generatedId => (generatedId, g)
  | None =>
      (_currentId g,
       {| _currentId := (_currentId g + 1)%Z;
          _generatedIds := <[obj := _currentId g]> (_generatedIds g) |})
  end.

End CircularIdGenerator.

(** ** The state engines share, and computations over it *)

(** [_seen] and [_circularIdGenerator] are created by the constructor of a
    root engine and handed by reference to every child.  [circularRefs] is
    specification state only: it counts the calls of [formatCircularRef],
    no branch of the engine reads it. *)
Record store : Type := Store {
  _seen : gmap addr CircularId;
  _circularIdGenerator : CircularIdGenerator.t;
  circularRefs : nat
}.

(** [new WeakMap()] and [new CircularIdGenerator()] *)
Definition freshStore : store :=
  {| _seen := ∅; _circularIdGenerator := CircularIdGenerator.new;
     circularRefs := 0 |}.

Inductive outcome (A : Type) : Type :=
| Ret (a : A) (s : store)
| Throw (e : error) (s : store)
| OutOfFuel.
Arguments Ret {A} a s.
Arguments Throw {A} e s.
Arguments OutOfFuel {A}.

Definition M (A : Type) : Type := store -> outcome A.

Definition ret {A} (a : A) : M A := fun s => Ret a s.
Definition throw {A} (e : error) : M A := fun s => Throw e s.
Definition bind {A B} (m : M A) (k : A -> M B) : M B :=
  fun s => match m s with
           | Ret a s' => k a s'
           | Throw e s' => Throw e s'
           | OutOfFuel => OutOfFuel
           end.
Definition lift {A} (r : error + A) : M A :=
  match r with inl e => throw e | inr a => ret a end.

Declare Scope fmt_scope.
Delimit Scope fmt_scope with fmt.
Notation "x <- m ;; k" := (bind m (fun x => k))
  (at level 100, m at next level, right associativity) : fmt_scope.
Notation "m ;;; k" := (bind m (fun _ => k))
  (at level 100, right associativity) : fmt_scope.
Open Scope fmt_scope.

(** [this._seen.has(obj)], [.get(obj)], [.set(obj, id)], [.delete(obj)] *)
Definition seenHas (obj : addr) : M bool :=
  fun s => Ret (bool_decide (is_Some (_seen s !! obj))) s.
Definition seenGet (obj : addr) : M (option CircularId) :=
  fun s => Ret (_seen s !! obj) s.
Definition seenSet (obj : addr) (id : CircularId) : M unit :=
  fun s => Ret tt {| _seen := <[obj := id]> (_seen s);
                     _circularIdGenerator := _circularIdGenerator s;
                     circularRefs := circularRefs s |}.
Definition seenDelete (obj : addr) : M unit :=
  fun s => Ret tt {| _seen := delete obj (_seen s);
                     _circularIdGenerator := _circularIdGenerator s;
                     circularRefs := circularRefs s |}.

(** [this._circularIdGenerator.generateId(obj)] *)
Definition generateId (obj : addr) : M CircularId :=
  fun s =>
    let '(id, g) := CircularIdGenerator.generateId obj (_circularIdGenerator s) in
    Ret id {| _seen := _seen s; _circularIdGenerator := g;
              circularRefs := circularRefs s |}.

(** Specification-only: one more circular-reference marker rendered. *)
Definition noteCircularRef : M unit :=
  fun s => Ret tt {| _seen := _seen s;
                     _circularIdGenerator := _circularIdGenerator s;
                     circularRefs := S (circularRefs s) |}.

(** ** formatter.ts: options and engines *)

Import Text.

(** [FormatterOptions]: every member optional. *)
Record FormatterOptions : Type := Options {
  opt_indent : option nat;
  opt_depth : option Z;
  opt_indentRoot : option bool;
  opt_escapeString : option bool;
  opt_circularId : option bool
}.

(** [Required<FormatterOptions>] *)
Record RequiredOptions : Type := Required {
  indent : nat;
  depth : Z;
  indentRoot : bool;
  escapeString : bool;
  circularId : bool
}.

Definition DENO_FN_FORMAT_INDENTATION_SIZE : nat := 4.

Definition defaultFormatterOptions : RequiredOptions :=
  {| indent := 2; depth := 20%Z; indentRoot := false;
     escapeString := false; circularId := false |}.

(** [{}] *)
Definition noOptions : FormatterOptions := Options None None None None None.

(** [{ ...defaults, ...options }] *)
Definition spread (defaults : RequiredOptions) (o : FormatterOptions)
  : RequiredOptions :=
  {| indent := default (indent defaults) (opt_indent o);
     depth := default (depth defaults) (opt_depth o);
     indentRoot := default (indentRoot defaults) (opt_indentRoot o);
     escapeString := default (escapeString defaults) (opt_escapeString o);
     circularId := default (circularId defaults) (opt_circularId o) |}.

(** A complete set of options passed where optional ones are expected. *)
Definition given (o : RequiredOptions) : FormatterOptions :=
  Options (Some (indent o)) (Some (depth o)) (Some (indentRoot o))
          (Some (escapeString o)) (Some (circularId o)).

(** The fields of an engine that are its own; [_seen] and
    [_circularIdGenerator] are the shared [store]. *)
Record Formatter : Type := Engine {
  options : RequiredOptions;
  _initialIndent : nat;
  _skipFirstLineIdentation : bool;
  _currentDepth : Z
}.

(** The constructor, apart from the two shared objects. *)
Definition newFormatter (o : FormatterOptions) (initialIndent : option nat)
    (skipFirstLineIdentation : bool) (currentDepth : Z) : Formatter :=
  let opts := spread defaultFormatterOptions o in
  {| options := opts;
     _initialIndent := default (indent opts) initialIndent;
     _skipFirstLineIdentation := skipFirstLineIdentation;
     _currentDepth := currentDepth |}.

(** [new Formatter(options)]: the engine a caller builds; its [_seen] and
    [_circularIdGenerator] are [freshStore]. *)
Definition rootFormatter (o : FormatterOptions) : Formatter :=
  newFormatter o None false 1%Z.

Definition _hitMaxDepth (self : Formatter) : bool :=
  (depth (options self) <=? _currentDepth self)%Z.

(** [_formatWithIndent(content, indent)] *)
Definition formatWithIndentBy (n : nat) (content : string) : string :=
  spaces n +:+ content.

(** [_formatWithIndent(content)], [indent] defaulting to the option. *)
Definition _formatWithIndent (self : Formatter) (content : string) : string :=
  formatWithIndentBy (indent (options self)) content.

Definition _formatFirstLine (self : Formatter) (content : string) : string :=
  if _skipFirstLineIdentation self || negb (indentRoot (options self))
  then content
  else _formatWithIndent self content.

(** [_getChildFormatter(skipFirstLineIdentation)] *)
Definition _getChildFormatter (self : Formatter)
    (skipFirstLineIdentation : bool) : Formatter :=
  newFormatter
    (given {| indent := indent (options self) +
                        (if indentRoot (options self)
                         then _initialIndent self else 0);
              depth := depth (options self);
              indentRoot := true;
              escapeString := escapeString (options self);
              circularId := circularId (options self) |})
    (Some (_initialIndent self))
    skipFirstLineIdentation
    (_currentDepth self + 1)%Z.

(** ** Renderings that do not recurse *)

Definition formatBigInt (self : Formatter) (n : Z) : string :=
  _formatFirstLine self (ofZ n +:+ "n").

Definition formatBoolean (self : Formatter) (b : bool) : string :=
  _formatFirstLine self (if b then "true" else "false").

Definition formatNumber (self : Formatter) (n : number) : string :=
  _formatFirstLine self (numberText n).

Definition formatNull (self : Formatter) : string :=
  _formatFirstLine self "null".

Definition formatUndefined (self : Formatter) : string :=
  _formatFirstLine self "undefined".

(** [String(sym)] *)
Definition formatSymbol (self : Formatter) (description : string) : string :=
  _formatFirstLine self ("Symbol(" +:+ description +:+ ")").

Definition formatString (self : Formatter) (str : string) : string :=
  if escapeString (options self)
  then _formatFirstLine self (wrap dq dq (escape str))
  else
    let lines := split str in
    if Nat.eqb (length lines) 1
    then _formatFirstLine self (wrap dq dq str)
    else
      let lines' :=
        match lines with
        | [] => []
        | first :: others => first :: map (_formatWithIndent self) others
        end in
      _formatFirstLine self (wrap "`" "`" (join nl lines')).

(** One interior line of a function listing:
    [line.replace(new RegExp(`^ {${extra},}`), ...)]. *)
Definition reindentLine (self : Formatter) (extraIndentationCount : nat)
    (line : string) : string :=
  let matched := leadingSpaces line in
  if Nat.leb extraIndentationCount matched
  then
    let leftLength := matched - extraIndentationCount in
    formatWithIndentBy
      (indent (options self) +
       _initialIndent self * leftLength / DENO_FN_FORMAT_INDENTATION_SIZE)
      "" +:+ dropSpaces line
  else line.

Definition formatFunction (self : Formatter) (fnStr : string) : string :=
  let fnLines := split fnStr in
  match fnLines with
  | [] | [_] => fnStr
  | first :: others =>
      let lastLine := List.last others EmptyString in
      let interior := List.removelast others in
      let extraIndentationCount := leadingSpaces lastLine in
      let first' := _formatFirstLine self first in
      let last' :=
        if Nat.ltb 0 (leadingSpaces lastLine)
        then _formatWithIndent self "" +:+ dropSpaces lastLine
        else lastLine in
      let interior' :=
        if Nat.ltb 2 (length fnLines)
        then map (reindentLine self extraIndentationCount) interior
        else interior in
      join nl (first' :: interior' ++ [last'])
  end.

(** [toISOString.call(date)]: the native accessor raises [TypeError] on
    a receiver without the slot it reads. *)
Definition toISOString (o : object) : error + string :=
  match oslots o with
  | DateValue (Some iso) => inr iso
  | DateValue None => inl RangeError
  | Ordinary => inl TypeError
  end.

(** [String(regex)] *)
Definition formatRegExp (self : Formatter) (o : object) : M string :=
  text <- lift (ostring o) ;;
  ret (_formatFirstLine self text).

Definition formatDate (self : Formatter) (o : object) : M string :=
  name <- lift (getConstructorName o) ;;
  iso <- lift (toISOString o) ;;
  ret (_formatFirstLine self (name +:+ " { " +:+ iso +:+ " }")).

Definition formatCircularRef (self : Formatter) (obj : addr) : M string :=
  id <- seenGet obj ;;
  noteCircularRef ;;;
  ret (_formatFirstLine self
         (wrap "[" "]"
            ("Circular" +:+
             (if circularId (options self)
              then "#" +:+ match id with
                           | Some i => ofZ i
                           | None => "unknown"
                           end
              else "")))).

(** ** Composite values *)

(** [class Entry]: a key, a value and what is put between them. *)
Record Entry : Type := mkEntry {
  key : value;
  evalue : value;
  separator : value
}.

(** What a content generator hands out at a call of [next]: a value of
    the store, or an [Entry] it has just built. *)
Inductive yielded : Type :=
| Stored (v : value)
| Fresh (e : Entry).

(** A step of a content generator: it yields, or it raises and is
    over. *)
Inductive step : Type :=
| Yield (y : yielded)
| Raise (e : error).

(** The generators of the five composite categories, as the steps they
    take up to their end.  The engine changes no object, so the steps do
    not depend on when the generator is resumed. *)

(** [arr[i]] for [i] from [i] up, [n] times. *)
Fixpoint arrayItems (o : object) (i : Z) (n : nat) : list step :=
  match n with
  | O => []
  | S k => Yield (Stored (getProperty o (ofZ i))) :: arrayItems o (i + 1)%Z k
  end.

(** [for (let i = 0; i < length; i++) yield arr[i]], for the numeric
    [length] that [format] has checked for. *)
Definition arrayContent (o : object) : list step :=
  match getProperty o "length" with
  | VNumber len => arrayItems o 0%Z (iterations len)
  | _ => []
  end.

(** [for (const value of iterable) yield value]: the values the
    iterator of the object hands out; [TypeError] at the first step when
    the object cannot be iterated. *)
Definition iterate (o : object) : list step :=
  match oiterator o with
  | Some vs => map (fun v => Yield (Stored v)) vs
  | None => [Raise TypeError]
  end.

(** [iterable[Symbol.iterator].bind(iterable)], called *)
Definition iterableContent (o : object) : list step := iterate o.

(** [for (const value of set) yield value] *)
Definition setContent (o : object) : list step := iterate o.

(** [for (const key of Object.keys(obj)) yield new Entry(key, obj[key], ": ")] *)
Definition objectContent (o : object) : list step :=
  map (fun k => Yield (Fresh (mkEntry (VString k) (getProperty o k)
                                (VString ": "))))
      (objectKeys o).

Section Engine.

(** The objects; the engine only reads them. *)
Variable h : heap.

(** [const [key, value] = yielded]: the first two of the values
    iterating what the map has yielded hands out, [undefined] for what is missing; a string is
    iterated character by character; what cannot be iterated raises
    [TypeError]. *)
Definition destructurePair (v : value) : error + value * value :=
  match v with
  | VObject b =>
      match h !! b with
      | None => inl DanglingReference
      | Some o =>
          match oiterator o with
          | Some vs => inr (nth 0 vs VUndefined, nth 1 vs VUndefined)
          | None => inl TypeError
          end
      end
  | VString s =>
      inr (match s with
           | EmptyString => (VUndefined, VUndefined)
           | String c EmptyString =>
               (VString (String c EmptyString), VUndefined)
           | String c (String d _) =>
               (VString (String c EmptyString),
                VString (String d EmptyString))
           end)
  | _ => inl TypeError
  end.

(** [for (const [key, value] of map) yield new Entry(key, value, " => ")],
    over what the iterator of the map hands out: a pair that cannot be
    destructured ends the generator, after the entries before it. *)
Fixpoint mapEntries (pairs : list value) : list step :=
  match pairs with
  | [] => []
  | p :: rest =>
      match destructurePair p with
      | inr (k, v) =>
          Yield (Fresh (mkEntry k v (VString " => "))) :: mapEntries rest
      | inl e => [Raise e]
      end
  end.

Definition mapContent (o : object) : list step :=
  match oiterator o with
  | Some pairs => mapEntries pairs
  | None => [Raise TypeError]
  end.

(** [entry instanceof Entry]: the entry with the members the loop reads,
    or the value that is none. *)
Definition classify (y : yielded) : Entry + value :=
  match y with
  | Fresh e => inl e
  | Stored v =>
      match v with
      | VObject b =>
          match h !! b with
          | Some o =>
              if instanceOf o EntryClass
              then inl (mkEntry (getProperty o "key") (getProperty o "value")
                          (getProperty o "separator"))
              else inr v
          | None => inr v
          end
      | _ => inr v
      end
  end.

(** The conversion to a string of a template literal, as [_wrap]
    applies it to its content. *)
Definition templateText (v : value) : error + string :=
  match v with
  | VUndefined => inr "undefined"
  | VNull => inr "null"
  | VBoolean b => inr (if b then "true" else "false")
  | VNumber n => inr (numberText n)
  | VBigInt n => inr (ofZ n)
  | VString t => inr t
  | VSymbol _ => inl TypeError
  | VFunction source => inr source
  | VObject b =>
      match h !! b with
      | Some o => ostring o
      | None => inl DanglingReference
      end
  end.

Section Body.

(** [format] of the engines one level down. *)
Variable rec : Formatter -> value -> M string.

(** The [while] loop of [_formatObjectEntries], [content] being what
    has been appended so far. *)
Fixpoint formatEntries (self : Formatter) (steps : list step)
    (content : string) : M string :=
  match steps with
  | [] => ret content
  | Raise e :: _ => throw e
  | Yield entry :: rest =>
      let keyFormatter := _getChildFormatter self false in
      piece <-
        match classify entry with
        | inr v =>
            s <- rec keyFormatter v ;;
            ret (s +:+ "," +:+ nl)
        | inl e =>
            let valueFormatter := _getChildFormatter self true in
            k <- rec keyFormatter (key e) ;;
            v <- rec valueFormatter (evalue e) ;;
            sep <- lift (templateText (separator e)) ;;
            ret (wrap k (v +:+ "," +:+ nl) sep)
        end ;;
      formatEntries self rest (content +:+ piece)
  end.

Definition _formatObjectEntries (self : Formatter) (obj : addr)
    (o : object) (wrapper : string * string)
    (contentFormatter : list step) : M string :=
  seenBefore <- seenHas obj ;;
  if (seenBefore : bool) then formatCircularRef self obj
  else
    constructorName <- lift (getConstructorName o) ;;
    if _hitMaxDepth self
    then ret (_formatWithIndent self (wrap "[" "]" constructorName))
    else
      seenId <- generateId obj ;;
      seenSet obj seenId ;;;
      content <- formatEntries self contentFormatter EmptyString ;;
      seenDelete obj ;;;
      ret (_formatFirstLine self
             (constructorName +:+
              (if circularId (options self)
               then "#" +:+ ofZ seenId else "") +:+
              " " +:+
              wrap (fst wrapper)
                   (if indentRoot (options self)
                    then _formatWithIndent self (snd wrapper)
                    else snd wrapper)
                   (nl +:+ content))).

Definition formatArray (self : Formatter) (obj : addr) (o : object) :=
  _formatObjectEntries self obj o ("[", "]") (arrayContent o).

(** The argument [iterable[Symbol.iterator].bind(iterable)] is
    evaluated before the call. *)
Definition formatIterable (self : Formatter) (obj : addr) (o : object) :=
  match oiterator o with
  | None => throw TypeError
  | Some _ => _formatObjectEntries self obj o ("{", "}") (iterableContent o)
  end.

Definition formatMap (self : Formatter) (obj : addr) (o : object) :=
  _formatObjectEntries self obj o ("{", "}") (mapContent o).

Definition formatObject (self : Formatter) (obj : addr) (o : object) :=
  _formatObjectEntries self obj o ("{", "}") (objectContent o).

Definition formatSet (self : Formatter) (obj : addr) (o : object) :=
  _formatObjectEntries self obj o ("{", "}") (setContent o).

(** The [switch (typeof value)] of [format]. *)
Definition formatValue (self : Formatter) (v : value) : M string :=
  match v with
  | VBigInt n => ret (formatBigInt self n)
  | VBoolean b => ret (formatBoolean self b)
  | VFunction source => ret (formatFunction self source)
  | VNumber n => ret (formatNumber self n)
  | VString s => ret (formatString self s)
  | VSymbol d => ret (formatSymbol self d)
  | VUndefined => ret (formatUndefined self)
  | VNull => ret (formatNull self)
  | VObject a =>
      match h !! a with
      | None => throw DanglingReference
      | Some o =>
          if instanceOf o RegExpClass then formatRegExp self o
          else if instanceOf o DateClass then formatDate self o
          else if instanceOf o MapClass then formatMap self a o
          else if instanceOf o SetClass then formatSet self a o
          else if hasProperty o "length"
                  && isNumber (getProperty o "length")
          then formatArray self a o
          else if bool_decide (is_Some (oiterator o))
          then formatIterable self a o
          else formatObject self a o
      end
  end.

End Body.

(** [format(value)].  The recursion of the source is on the engines'
    depth; here it is on [fuel], the number of nested engines allowed. *)
Fixpoint format (fuel : nat) (self : Formatter) (v : value) : M string :=
  match fuel with
  | O => fun _ => OutOfFuel
  | S fuel' => formatValue (format fuel') self v
  end.

End Engine.

(** ** Notions the properties are stated with *)

(** The text an outcome returns. *)
Definition rendered {A} (r : outcome A) : option A :=
  match r with Ret a _ => Some a | _ => None end.

Definition terminated {A} (r : outcome A) : Prop :=
  match r with OutOfFuel => False | _ => True end.

(** Nested engines an engine can still create before the depth guard
    stops it, plus itself. *)
Definition enoughFuel (self : Formatter) : nat :=
  S (Z.to_nat (depth (options self) - _currentDepth self)).

(** *** The categories of object-typed values, in the order the
    specification lists them *)

Inductive category : Type :=
| NullCategory
| RegExpCategory
| DateCategory
| MapCategory
| SetCategory
| ArrayLikeCategory
| IterableCategory
| RecordCategory.

Definition priority : list category :=
  [NullCategory; RegExpCategory; DateCategory; MapCategory; SetCategory;
   ArrayLikeCategory; IterableCategory; RecordCategory].

(** Membership of a non-null object in a category, each taken alone. *)
Definition objectBelongs (o : object) (c : category) : bool :=
  match c with
  | NullCategory => false
  | RegExpCategory => instanceOf o RegExpClass
  | DateCategory => instanceOf o DateClass
  | MapCategory => instanceOf o MapClass
  | SetCategory => instanceOf o SetClass
  | ArrayLikeCategory =>
      hasProperty o "length" && isNumber (getProperty o "length")
  | IterableCategory => bool_decide (is_Some (oiterator o))
  | RecordCategory => true
  end.

Definition belongs (h : heap) (v : value) (c : category) : bool :=
  match v with
  | VNull => match c with NullCategory => true | _ => false end
  | VObject a =>
      match h !! a with
      | Some o => objectBelongs o c
      | None => false
      end
  | _ => false
  end.

(** The rendering routine of a category. *)
Definition render (h : heap) (rec : Formatter -> value -> M string)
    (self : Formatter) (v : value) (c : category) : M string :=
  match v with
  | VObject a =>
      match h !! a with
      | Some o =>
          match c with
          | NullCategory => ret (formatNull self)
          | RegExpCategory => formatRegExp self o
          | DateCategory => formatDate self o
          | MapCategory => formatMap h rec self a o
          | SetCategory => formatSet h rec self a o
          | ArrayLikeCategory => formatArray h rec self a o
          | IterableCategory => formatIterable h rec self a o
          | RecordCategory => formatObject h rec self a o
          end
      | None => throw DanglingReference
      end
  | _ => ret (formatNull self)
  end.

(** The category the specification assigns: the first of [priority] the
    value belongs to. *)
Definition categoryOf (h : heap) (v : value) : option category :=
  List.find (belongs h v) priority.

(** The five categories rendered by [_formatObjectEntries]. *)
Definition composite (c : category) : bool :=
  match c with
  | MapCategory | SetCategory | ArrayLikeCategory | IterableCategory
  | RecordCategory => true
  | _ => false
  end.

(** A composite goes through [_formatObjectEntries], with the wrapper and
    the generator of its category. *)
Definition wrapperOf (c : category) : string * string :=
  match c with ArrayLikeCategory => ("[", "]") | _ => ("{", "}") end.

Definition generatorOf (h : heap) (c : category) (o : object) : list step :=
  match c with
  | MapCategory => mapContent h o
  | SetCategory => setContent o
  | ArrayLikeCategory => arrayContent o
  | IterableCategory => iterableContent o
  | _ => objectContent o
  end.

(** *** The loop of [_formatObjectEntries], taken apart

    The loop runs child engines over the keys and values of what the
    generator yields, in turn, threading the store, and puts their texts
    together, unless the generator or the conversion of a separator
    raises.  The three are separated here, to reason about the store,
    about the text and about the exception one at a time. *)

(** An entry whose separator has been converted to a text. *)
Record resolved : Type := mkResolved {
  rkey : value;
  rvalue : value;
  rseparator : string
}.

(** What the loop renders at a turn: a bare value, or the key and the
    value of an entry. *)
Inductive item : Type :=
| Bare (v : value)
| Keyed (e : resolved).

(** The items the loop gets to, and the exception that ends it, if one
    does: the one the generator raises, or the [TypeError] of a separator
    that has no text, raised after the key and the value of its entry
    have been rendered. *)
Fixpoint resolve (h : heap) (steps : list step) : list item * option error :=
  match steps with
  | [] => ([], None)
  | Raise e :: _ => ([], Some e)
  | Yield y :: rest =>
      match classify h y with
      | inr v => (Bare v :: fst (resolve h rest), snd (resolve h rest))
      | inl e =>
          match templateText h (separator e) with
          | inr sep =>
              (Keyed (mkResolved (key e) (evalue e) sep)
                 :: fst (resolve h rest),
               snd (resolve h rest))
          | inl err =>
              ([Keyed (mkResolved (key e) (evalue e) EmptyString)], Some err)
          end
      end
  end.

Definition itemsOf (h : heap) (c : category) (o : object) : list item :=
  fst (resolve h (generatorOf h c o)).

Definition failureOf (h : heap) (c : category) (o : object) : option error :=
  snd (resolve h (generatorOf h c o)).

(** The engines the loop creates and the values it gives them, in
    order. *)
Definition visitsOf (self : Formatter) (items : list item)
  : list (Formatter * value) :=
  flat_map
    (fun it =>
       match it with
       | Bare v => [(_getChildFormatter self false, v)]
       | Keyed e => [(_getChildFormatter self false, rkey e);
                     (_getChildFormatter self true, rvalue e)]
       end)
    items.

Fixpoint visitAll (rec : Formatter -> value -> M string)
    (visits : list (Formatter * value)) : M (list string) :=
  match visits with
  | [] => ret []
  | (f, v) :: rest =>
      t <- rec f v ;;
      ts <- visitAll rec rest ;;
      ret (t :: ts)
  end.

(** [content] after the loop, from the texts of the visits. *)
Fixpoint assemble (items : list item) (texts : list string)
    (content : string) : string :=
  match items, texts with
  | Bare _ :: rest, t :: ts =>
      assemble rest ts (content +:+ t +:+ "," +:+ nl)
  | Keyed e :: rest, k :: v :: ts =>
      assemble rest ts (content +:+ wrap k (v +:+ "," +:+ nl) (rseparator e))
  | _, _ => content
  end.

(** The store after [generateId] and [_seen.set], with the id. *)
Definition enter (a : addr) (s : store) : CircularId * store :=
  let '(id, g) :=
    CircularIdGenerator.generateId a (_circularIdGenerator s) in
  (id, {| _seen := <[a := id]> (_seen s);
          _circularIdGenerator := g;
          circularRefs := circularRefs s |}).

(** The store after [_seen.delete]. *)
Definition leave (a : addr) (s : store) : store :=
  {| _seen := delete a (_seen s);
     _circularIdGenerator := _circularIdGenerator s;
     circularRefs := circularRefs s |}.

(** The store after one more marker. *)
Definition noted (s : store) : store :=
  {| _seen := _seen s;
     _circularIdGenerator := _circularIdGenerator s;
     circularRefs := S (circularRefs s) |}.

(** The three texts [_formatObjectEntries] can return. *)
Definition circularText (self : Formatter) (id : option CircularId)
  : string :=
  _formatFirstLine self
    (wrap "[" "]"
       ("Circular" +:+
        (if circularId (options self)
         then "#" +:+ match id with
                      | Some i => ofZ i
                      | None => "unknown"
                      end
         else ""))).

Definition cappedText (self : Formatter) (name : string) : string :=
  _formatWithIndent self (wrap "[" "]" name).

Definition expandedText (self : Formatter) (name : string)
    (seenId : CircularId) (wrapper : string * string) (content : string)
  : string :=
  _formatFirstLine self
    (name +:+
     (if circularId (options self) then "#" +:+ ofZ seenId else "") +:+
     " " +:+
     wrap (fst wrapper)
          (if indentRoot (options self)
           then _formatWithIndent self (snd wrapper)
           else snd wrapper)
          (nl +:+ content)).

(** Every id [g] has handed out, [g'] has handed out too. *)
Definition generatorIncluded (g g' : CircularIdGenerator.t) : Prop :=
  CircularIdGenerator._generatedIds g ⊆ CircularIdGenerator._generatedIds g'.

(** A run of the visits in which every engine returned. *)
Inductive visited (rec : Formatter -> value -> M string)
  : list (Formatter * value) -> store -> list string -> store -> Prop :=
| visited_nil s : visited rec [] s [] s
| visited_cons f v rest s t s1 ts s' :
    rec f v s = Ret t s1 ->
    visited rec rest s1 ts s' ->
    visited rec ((f, v) :: rest) s (t :: ts) s'.

(** What a call that returns leaves of the store it got: the same values
    being expanded, no id forgotten, no marker forgotten. *)
Definition framed (s s' : store) : Prop :=
  _seen s' = _seen s /\
  generatorIncluded (_circularIdGenerator s) (_circularIdGenerator s') /\
  circularRefs s <= circularRefs s'.

(** The outcome of a rendering that needs neither the store nor a nested
    engine: every value but the composites. *)
Definition leafText (h : heap) (self : Formatter) (v : value)
  : option (error + string) :=
  match v with
  | VBigInt n => Some (inr (formatBigInt self n))
  | VBoolean b => Some (inr (formatBoolean self b))
  | VFunction source => Some (inr (formatFunction self source))
  | VNumber n => Some (inr (formatNumber self n))
  | VString t => Some (inr (formatString self t))
  | VSymbol d => Some (inr (formatSymbol self d))
  | VUndefined => Some (inr (formatUndefined self))
  | VNull => Some (inr (formatNull self))
  | VObject a =>
      match h !! a with
      | None => Some (inl DanglingReference)
      | Some o =>
          if instanceOf o RegExpClass
          then Some (match ostring o with
                     | inl e => inl e
                     | inr text => inr (_formatFirstLine self text)
                     end)
          else if instanceOf o DateClass
          then Some (match getConstructorName o with
                     | inl e => inl e
                     | inr name =>
                         match toISOString o with
                         | inl e => inl e
                         | inr iso =>
                             inr (_formatFirstLine self
                                    (name +:+ " { " +:+ iso +:+ " }"))
                         end
                     end)
          else None
      end
  end.

(** The separators the generators put into an [Entry]. *)
Definition knownSeparator (it : item) : Prop :=
  match it with
  | Bare _ => True
  | Keyed e => rseparator e = ": " \/ rseparator e = " => "
  end.

Definition hasKnownSeparator (it : item) : bool :=
  match it with
  | Bare _ => true
  | Keyed e => String.eqb (rseparator e) ": " || String.eqb (rseparator e) " => "
  end.

(** *** Nested elements and acyclic values *)

(** What the engine visits inside an object: the items the loop gets
    to, for the generator of its category. *)
Definition contentOf (h : heap) (o : object) : list item :=
  match List.find (objectBelongs o) priority with
  | Some c => if composite c then itemsOf h c o else []
  | None => []
  end.

Definition itemValues (it : item) : list value :=
  match it with
  | Bare v => [v]
  | Keyed e => [rkey e; rvalue e]
  end.

Definition children (h : heap) (a : addr) : list value :=
  match h !! a with
  | Some o => flat_map itemValues (contentOf h o)
  | None => []
  end.

(** [v] unfolds to a finite tree of height at most [n]: no object below
    it, itself included, is its own descendant. *)
Fixpoint acyclicWithin (h : heap) (n : nat) (v : value) : bool :=
  match v with
  | VObject a =>
      match n with
      | O => false
      | S k => forallb (acyclicWithin h k) (children h a)
      end
  | _ => true
  end.

Definition acyclic (h : heap) (v : value) : Prop :=
  exists n, acyclicWithin h n v = true.

(** No value being expanded has height [n] or less. *)
Definition seenAbove (h : heap) (n : nat) (s : store) : Prop :=
  forall b, is_Some (_seen s !! b) -> acyclicWithin h n (VObject b) = false.


(** Two outcomes a caller cannot tell apart, which leave the same values
    being expanded. *)
Definition agree {A} (r1 r2 : outcome A) : Prop :=
  match r1, r2 with
  | Ret a1 s1, Ret a2 s2 => a1 = a2 /\ dom (_seen s1) = dom (_seen s2)
  | Throw e1 s1, Throw e2 s2 => e1 = e2 /\ dom (_seen s1) = dom (_seen s2)
  | OutOfFuel, OutOfFuel => True
  | _, _ => False
  end.

(** *** Values [format] renders without raising

    The accessors of the engine find what they read: a constructor
    where the type name is asked for, the text of a [RegExp], the time
    value of a [Date]; the generator of a composite runs to its end and
    every separator has a text; every reference is to a stored object. *)

Definition hasConstructor (o : object) : bool :=
  match oconstructor o with NoConstructor => false | Constructor _ => true end.

Definition throwFree (h : heap) (o : object) : bool :=
  match List.find (objectBelongs o) priority with
  | Some RegExpCategory =>
      match ostring o with inr _ => true | inl _ => false end
  | Some DateCategory =>
      hasConstructor o &&
      match oslots o with DateValue (Some _) => true | _ => false end
  | Some c =>
      hasConstructor o &&
      match failureOf h c o with None => true | Some _ => false end
  | None => hasConstructor o
  end.

Definition stored (h : heap) (v : value) : bool :=
  match v with
  | VObject a => bool_decide (is_Some (h !! a))
  | _ => true
  end.

Definition wellFormedHeap (h : heap) : Prop :=
  forall a o, h !! a = Some o ->
    throwFree h o = true /\ forallb (stored h) (children h a) = true.

(** What the loop appends to the content for a yielded value.  For a
    value that is no instance of [Entry]: its text as a child engine
    renders it, a comma and a line break.  For an [Entry]: the text of
    its key as a child engine renders it, the text of its separator, the
    text of its value as a child engine that skips the indentation of
    the first line renders it, in the store the key left, a comma and a
    line break. *)
Definition appended (h : heap) (rec : Formatter -> value -> M string)
    (self : Formatter) (y : yielded) (piece : string) : Prop :=
  match classify h y with
  | inr v =>
      exists text s1 s2,
        rec (_getChildFormatter self false) v s1 = Ret text s2 /\
        piece = text +:+ "," +:+ nl
  | inl e =>
      exists k v sep s1 s2 s3,
        rec (_getChildFormatter self false) (key e) s1 = Ret k s2 /\
        rec (_getChildFormatter self true) (evalue e) s2 = Ret v s3 /\
        templateText h (separator e) = inr sep /\
        piece = k +:+ sep +:+ v +:+ "," +:+ nl
  end.

(** The pieces put one after the other. *)
Definition joined (pieces : list string) : string :=
  foldr String.append EmptyString pieces.

(** *** Circular-reference markers in a text *)

(** [s] begins with [p]. *)
Fixpoint startsWith (s p : string) {struct p} : bool :=
  match p with
  | EmptyString => true
  | String x p' =>
      match s with
      | EmptyString => false
      | String y s' => Ascii.eqb x y && startsWith s' p'
      end
  end.

(** How often [p] occurs in [s]: the positions of [s] at which [p]
    begins. *)
Fixpoint occurrences (p s : string) : nat :=
  (if startsWith s p then 1 else 0) +
  match s with
  | EmptyString => 0
  | String _ r => occurrences p r
  end.

(** What every marker starts with. *)
Definition markerStart : string := "[Circular".

(** Occurrences of [p] in all of [ts]. *)
Fixpoint totalOccurrences (p : string) (ts : list string) : nat :=
  match ts with
  | [] => 0
  | t :: r => occurrences p t + totalOccurrences p r
  end.

(** *** Texts of the value that do not spell a marker

    A string, a function source, the text of a [RegExp] or of a [Date],
    a type name or the separator of an [Entry] can contain the characters
    of a marker.  The texts of a value are clean when none does, no type
    name begins like the inside of a marker (a class called [Circular],
    once cut by the depth guard, is a marker to the reader), and the
    separators are the two the engine itself uses. *)

Definition cleanText (t : string) : bool :=
  Nat.eqb (occurrences markerStart t) 0.

Definition cleanName (name : string) : bool :=
  cleanText name && negb (startsWith name "Circular").

Definition cleanValue (v : value) : bool :=
  match v with
  | VString t | VSymbol t | VFunction t => cleanText t
  | _ => true
  end.

Definition cleanObject (h : heap) (o : object) : bool :=
  match getConstructorName o with
  | inr name => cleanName name
  | inl _ => true
  end &&
  match ostring o with
  | inr text => negb (instanceOf o RegExpClass) || cleanText text
  | inl _ => true
  end &&
  match oslots o with
  | DateValue (Some iso) => cleanText iso
  | _ => true
  end &&
  forallb hasKnownSeparator (contentOf h o) &&
  forallb cleanValue (flat_map itemValues (contentOf h o)).

Definition cleanHeap (h : heap) : Prop :=
  forall a o, h !! a = Some o -> cleanObject h o = true.

(** *** Successive calls on one engine *)

(** The stores an engine built by [new Formatter(options)] can be in
    between two calls of [format] that returned. *)
Inductive reachableStore (h : heap) (self : Formatter) : store -> Prop :=
| reach_fresh : reachableStore h self freshStore
| reach_call fuel v s out s' :
    reachableStore h self s ->
    format h fuel self v s = Ret out s' ->
    reachableStore h self s'.

(** *** The calls of an invocation *)

(** A call of [format] that returned: the fuel, the engine and the
    value, the store before, the text and the store after. *)
Record call : Type := Call {
  cfuel : nat;
  cself : Formatter;
  cvalue : value;
  cbefore : store;
  ctext : string;
  cafter : store
}.

Definition returned (h : heap) (x : call) : Prop :=
  format h (cfuel x) (cself x) (cvalue x) (cbefore x) =
  Ret (ctext x) (cafter x).

(** The calls made in the course of a call: the call itself and, where
    it expands a composite, the calls of the child engines on the keys
    and values of the items, each in the store the visits before it
    left, and the calls made in their course. *)
Inductive within (h : heap) : call -> call -> Prop :=
| within_here x : returned h x -> within h x x
| within_nested fuel self a o c s t s' before f w after texts s1 t1 s2 x :
    h !! a = Some o ->
    categoryOf h (VObject a) = Some c ->
    composite c = true ->
    _seen s !! a = None ->
    _hitMaxDepth self = false ->
    visitsOf self (itemsOf h c o) = before ++ (f, w) :: after ->
    visited (format h fuel) before (snd (enter a s)) texts s1 ->
    returned h (Call fuel f w s1 t1 s2) ->
    within h (Call fuel f w s1 t1 s2) x ->
    within h (Call (S fuel) self (VObject a) s t s') x.

(** The engine [length path] nesting steps down, [path] telling for each step
    whether the child renders a value after a key. *)
Fixpoint descendant (self : Formatter) (path : list bool) : Formatter :=
  match path with
  | [] => self
  | skip :: rest => descendant (_getChildFormatter self skip) rest
  end.

(** ** Values used as examples *)

(** An object literal [{ k1: v1, ... }]. *)
Definition objectLiteral (ps : list (string * value)) : object :=
  {| oconstructor := Constructor (Some "Object");
     otag := "Object";
     oprototypes := [];
     oslots := Ordinary;
     oprops := map (fun kv => Property (fst kv) (snd kv) true) ps;
     oiterator := None;
     ostring := inr "[object Object]" |}.

(** [Object.create(null)]: no prototype, hence no [constructor] and no
    [toString]. *)
Definition nullPrototypeObject : object :=
  {| oconstructor := NoConstructor;
     otag := "Object";
     oprototypes := [];
     oslots := Ordinary;
     oprops := [];
     oiterator := None;
     ostring := inl TypeError |}.

(** [new Set(elements)] *)
Definition setOf (elements : list value) : object :=
  {| oconstructor := Constructor (Some "Set");
     otag := "Set";
     oprototypes := [SetClass];
     oslots := Ordinary;
     oprops := [];
     oiterator := Some elements;
     ostring := inr "[object Set]" |}.

(** [new Map(entries)]; [pairs] are the two-element arrays its iterator
    hands out, one for every entry. *)
Definition mapOf (pairs : list value) : object :=
  {| oconstructor := Constructor (Some "Map");
     otag := "Map";
     oprototypes := [MapClass];
     oslots := Ordinary;
     oprops := [];
     oiterator := Some pairs;
     ostring := inr "[object Map]" |}.

(** The properties [0], [1], ... of an array literal. *)
Fixpoint indexed (i : Z) (vs : list value) : list property :=
  match vs with
  | [] => []
  | v :: r => Property (ofZ i) v true :: indexed (i + 1)%Z r
  end.

(** An array literal [[v0, v1, ...]]; [text] is what [String] makes of
    it, its elements joined by commas. *)
Definition arrayOf (vs : list value) (text : string) : object :=
  {| oconstructor := Constructor (Some "Array");
     otag := "Array";
     oprototypes := [];
     oslots := Ordinary;
     oprops := indexed 0%Z vs ++
               [Property "length"
                  (VNumber (numberOf (Z.of_nat (length vs)))) false];
     oiterator := Some vs;
     ostring := inr text |}.

(** [new Map([["k", "v"]])] at address 0, the pair its iterator hands
    out at address 1. *)
Definition mapHeap : heap :=
  {[ 0 := mapOf [VObject 1];
     1 := arrayOf [VString "k"; VString "v"] "k,v" ]}.

(** [v = {}; v.self = v] at address 0. *)
Definition selfHeap : heap :=
  {[ 0 := objectLiteral [("self", VObject 0)] ]}.


(** An instance of a class called [name], without properties. *)
Definition instanceNamed (name : string) : object :=
  {| oconstructor := Constructor (Some name);
     otag := "Object";
     oprototypes := [];
     oslots := Ordinary;
     oprops := [];
     oiterator := None;
     ostring := inr "[object Object]" |}.

(** [{ a: new Circular() }] at address 0, for a class called
    [Circular]. *)
Definition circularNameHeap : heap :=
  {[ 0 := objectLiteral [("a", VObject 1)];
     1 := instanceNamed "Circular" ]}.

(** [v = { a: {}, self: v }] at address 0. *)
Definition cappedSiblingHeap : heap :=
  {[ 0 := objectLiteral [("a", VObject 1); ("self", VObject 0)];
     1 := objectLiteral [] ]}.

(** [{ a: "[Circular]" }] at address 0. *)
Definition spelledMarkerHeap : heap :=
  {[ 0 := objectLiteral [("a", VString "[Circular]")] ]}.

(** [new Entry(k, v, sep)] *)
Definition entryOf (k v sep : value) : object :=
  {| oconstructor := Constructor (Some "Entry");
     otag := "Object";
     oprototypes := [EntryClass];
     oslots := Ordinary;
     oprops := [Property "key" k true; Property "value" v true;
                Property "separator" sep true];
     oiterator := None;
     ostring := inr "[object Object]" |}.

(** [[new Entry("k", 1, " -> ")]] at address 0. *)
Definition entryInArrayHeap : heap :=
  {[ 0 := arrayOf [VObject 1] "[object Object]";
     1 := entryOf (VString "k") (VNumber (numberOf 1)) (VString " -> ") ]}.

(** [new Set([new Entry("k", 1, Symbol("s")), "x"])] at address 0. *)
Definition entryInSetHeap : heap :=
  {[ 0 := setOf [VObject 1; VString "x"];
     1 := entryOf (VString "k") (VNumber (numberOf 1)) (VSymbol "s") ]}.

(** A [Map] at address 0 whose iterator hands out [["k", {}]] and then
    the number 7. *)
Definition brokenMapHeap : heap :=
  {[ 0 := mapOf [VObject 1; VNumber (numberOf 7)];
     1 := arrayOf [VString "k"; VObject 2] "k,[object Object]";
     2 := objectLiteral [] ]}.

(** Options with a max depth. *)
Definition maxDepth (d : Z) : FormatterOptions :=
  Options None (Some d) None None None.

(** [{ a: v, b: v }] at address 0 with [v = {}] at address 1. *)
Definition sharedHeap : heap :=
  {[ 0 := objectLiteral [("a", VObject 1); ("b", VObject 1)];
     1 := objectLiteral [] ]}.

(** Two distinct empty objects. *)
Definition twoObjectsHeap : heap :=
  {[ 0 := objectLiteral []; 1 := objectLiteral [] ]}.



(** [{ 0: "a", length: NaN }] at address 0. *)
Definition nanLengthHeap : heap :=
  {[ 0 := objectLiteral [("0", VString "a"); ("length", VNumber NaN)] ]}.


(** [Object.create(null)] at address 0. *)
Definition bareHeap : heap := {[ 0 := nullPrototypeObject ]}.

(** A [Set] holding one text, at address 0. *)
Definition setHeap : heap := {[ 0 := setOf [VString "x"] ]}.

(** The text of the [Map] example: what the engine returns, and what the
    specification prints for it. *)
Definition mapText : string :=
  "Map {" +:+ nl +:+
  "  " +:+ dq +:+ "k" +:+ dq +:+ " => " +:+ dq +:+ "v" +:+ dq +:+ "," +:+ nl +:+
  "}".

Definition mapTextOfSpec : string :=
  "Map { " +:+ dq +:+ "k" +:+ dq +:+ " => " +:+ dq +:+ "v" +:+ dq +:+ "," +:+
  nl +:+ " }".

(** Options that show circular ids. *)
Definition showIds : FormatterOptions :=
  Options None None None None (Some true).

(** The store an engine is left with by a call. *)
Definition storeAfter {A} (r : outcome A) : store :=
  match r with
  | Ret _ s | Throw _ s => s
  | OutOfFuel => freshStore
  end.

(** An engine after [format] of the first of the two empty objects. *)
Definition afterFirstCall (o : FormatterOptions) : store :=
  storeAfter (format twoObjectsHeap 2 (rootFormatter o) (VObject 0) freshStore).

(** What [{ a: v, b: v }] is rendered as when ids are shown. *)
Definition sharedText : string :=
  "Object#1 {" +:+ nl +:+
  "  " +:+ dq +:+ "a" +:+ dq +:+ ": Object#2 {" +:+ nl +:+
  "  }," +:+ nl +:+
  "  " +:+ dq +:+ "b" +:+ dq +:+ ": Object#2 {" +:+ nl +:+
  "  }," +:+ nl +:+
  "}".

(** The engine that renders the two values of [{ a: v, b: v }], and the
    store it gets for the first of them. *)
Definition sharedValueEngine : Formatter :=
  _getChildFormatter (rootFormatter showIds) true.

Definition sharedFirstStore : store := snd (enter 0 freshStore).

Definition sharedSecondStore : store :=
  storeAfter (format sharedHeap 2 sharedValueEngine (VObject 1)
                sharedFirstStore).

(** The two calls on [v] of that invocation. *)
Definition sharedFirstCall : call :=
  {| cfuel := 2;
     cself := sharedValueEngine;
     cvalue := VObject 1;
     cbefore := sharedFirstStore;
     ctext := "Object#2 {" +:+ nl +:+ "  }";
     cafter := sharedSecondStore |}.

Definition sharedSecondCall : call :=
  {| cfuel := 2;
     cself := sharedValueEngine;
     cvalue := VObject 1;
     cbefore := sharedSecondStore;
     ctext := "Object#2 {" +:+ nl +:+ "  }";
     cafter := sharedSecondStore |}.

(** The invocation that renders [{ a: v, b: v }] with ids shown. *)
Definition sharedCall : call :=
  {| cfuel := 3;
     cself := rootFormatter showIds;
     cvalue := VObject 0;
     cbefore := freshStore;
     ctext := sharedText;
     cafter := storeAfter (format sharedHeap 3 (rootFormatter showIds)
                             (VObject 0) freshStore) |}.

(** The one item of [v = { self: v }] as rendered by an engine: the
    key, the separator, the marker. *)
Definition selfEntryText (self : Formatter) : string :=
  spaces (indent (options (_getChildFormatter self false))) +:+
  dq +:+ "self" +:+ dq +:+ ": " +:+
  "[Circular" +:+ (if circularId (options self) then "#1" else "") +:+ "]" +:+
  "," +:+ nl.

(** [["x", 1, true]] at address 0. *)
Definition arrayHeap : heap :=
  {[ 0 := arrayOf [VString "x"; VNumber (numberOf 1); VBoolean true]
            "x,1,true" ]}.

(** Options that escape control characters. *)
Definition escaping : FormatterOptions :=
  Options None None None (Some true) None.

(** *** Further notions *)

(** What holds of the store a call ends with, whether it returned or
    raised. *)
Definition afterCall {A} (Q : store -> Prop) (r : outcome A) : Prop :=
  match r with
  | Ret _ s | Throw _ s => Q s
  | OutOfFuel => True
  end.

(** What a call that raised leaves of the store it got: nothing is
    forgotten, but values may stay marked as being expanded. *)
Definition grown (s s' : store) : Prop :=
  _seen s ⊆ _seen s' /\
  generatorIncluded (_circularIdGenerator s) (_circularIdGenerator s') /\
  circularRefs s <= circularRefs s'.

(** The ids a generator has handed out are the numbers from one up to
    the counter, each to one identity. *)
Definition consecutiveIds (g : CircularIdGenerator.t) : Prop :=
  (forall a id, CircularIdGenerator._generatedIds g !! a = Some id ->
     (1 <= id < CircularIdGenerator._currentId g)%Z) /\
  (forall a b id,
     CircularIdGenerator._generatedIds g !! a = Some id ->
     CircularIdGenerator._generatedIds g !! b = Some id -> a = b) /\
  CircularIdGenerator._currentId g =
  (1 + Z.of_nat (size (CircularIdGenerator._generatedIds g)))%Z.

(** [new Date(...)]; [iso] is [None] for an invalid time value, [text]
    what [String] makes of the date. *)
Definition dateOf (iso : option string) (text : string) : object :=
  {| oconstructor := Constructor (Some "Date");
     otag := "Date";
     oprototypes := [DateClass];
     oslots := DateValue iso;
     oprops := [];
     oiterator := None;
     ostring := inr text |}.

(** [{ a: Object.create(null) }] at address 0. *)
Definition brokenHeap : heap :=
  {[ 0 := objectLiteral [("a", VObject 1)]; 1 := nullPrototypeObject ]}.

(** [new Date(NaN)] at address 0. *)
Definition invalidDateHeap : heap :=
  {[ 0 := dateOf None "Invalid Date" ]}.

(** An object whose constructor has no name, as
    [obj.constructor = { name: null }] leaves it. *)
Definition namelessObject : object :=
  {| oconstructor := Constructor None;
     otag := "Object";
     oprototypes := [];
     oslots := Ordinary;
     oprops := [];
     oiterator := None;
     ostring := inr "[object Object]" |}.

(** The content of a run over entries: the text of every key, the
    separator, the text of the value, a comma and a line break. *)
Definition entriesContent (sep : string) (texts : list (string * string))
  : string :=
  foldr (fun kv rest => fst kv +:+ sep +:+ snd kv +:+ "," +:+ nl +:+ rest)
        EmptyString texts.

(** The entries a generator builds from pairs, with one separator. *)
Definition keyedItems (sep : string) (es : list (value * value))
  : list item :=
  map (fun kv => Keyed (mkResolved (fst kv) (snd kv) sep)) es.

(** The steps of a generator that builds an [Entry] from every pair,
    with one separator. *)
Definition entrySteps (sep : string) (es : list (value * value))
  : list step :=
  map (fun kv => Yield (Fresh (mkEntry (fst kv) (snd kv) (VString sep)))) es.

(** [new Map([["k", {}]])] at address 0, its value at address 1, the
    pair its iterator hands out at address 2. *)
Definition mapOfObjectHeap : heap :=
  {[ 0 := mapOf [VObject 2];
     1 := objectLiteral [];
     2 := arrayOf [VString "k"; VObject 1] "k,[object Object]" ]}.

(** [{ a: 1, b: "x" }] at address 0. *)
Definition recordHeap : heap :=
  {[ 0 := objectLiteral [("a", VNumber (numberOf 1)); ("b", VString "x")] ]}.

(** An iterable that is no built-in collection, yielding [vs]: an object
    with a [Symbol.iterator] method. *)
Definition iterableOf (vs : list value) : object :=
  {| oconstructor := Constructor (Some "Object");
     otag := "Object";
     oprototypes := [];
     oslots := Ordinary;
     oprops := [];
     oiterator := Some vs;
     ostring := inr "[object Object]" |}.

(** Such an iterable yielding [1] and [true], at address 0. *)
Definition iterableHeap : heap :=
  {[ 0 := iterableOf [VNumber (numberOf 1); VBoolean true] ]}.

(** * Properties *)

(** ** Texts *)

Lemma append_assoc (a b c : string) : (a +:+ b) +:+ c = a +:+ b +:+ c.
Proof.
  induction a as [|x a IH]; [reflexivity|].
  change (String x ((a +:+ b) +:+ c) = String x (a +:+ b +:+ c)).
  now f_equal.
Qed.

Lemma append_nil_r (a : string) : a +:+ EmptyString = a.
Proof.
  induction a as [|x a IH]; [reflexivity|].
  change (String x (a +:+ EmptyString) = String x a). now f_equal.
Qed.

(** ** Renderings the specification lists *)

Lemma scalar_renderings (h : heap) (fuel : nat) :
  let formatted v :=
    rendered (format h (S fuel) (rootFormatter noOptions) v freshStore) in
  formatted (VNumber (numberOf 42)) = Some "42" /\
  formatted (VBoolean true) = Some "true" /\
  formatted VUndefined = Some "undefined" /\
  formatted VNull = Some "null" /\
  formatted (VBigInt 7) = Some "7n".
Proof. cbn. split_and!; reflexivity. Qed.

Lemma text_renderings (h : heap) (fuel : nat) :
  rendered (format h (S fuel) (rootFormatter escaping)
              (VString ("a" +:+ nl +:+ "b")) freshStore)
  = Some (dq +:+ "a\nb" +:+ dq) /\
  rendered (format h (S fuel) (rootFormatter noOptions)
              (VString ("a" +:+ nl +:+ "b")) freshStore)
  = Some ("`a" +:+ nl +:+ "  b`").
Proof. cbn. split; reflexivity. Qed.

Lemma array_rendering :
  rendered (format arrayHeap 2 (rootFormatter noOptions) (VObject 0)
              freshStore)
  = Some ("Array [" +:+ nl +:+
          "  " +:+ dq +:+ "x" +:+ dq +:+ "," +:+ nl +:+
          "  1," +:+ nl +:+
          "  true," +:+ nl +:+
          "]").
Proof. vm_compute. reflexivity. Qed.

(** A listing of several lines: the first line as it is, the others
    moved to the indentation of the engine. *)
Lemma function_rendering :
  formatFunction (rootFormatter noOptions)
    ("function b() {" +:+ nl +:+
     "        console.log(1);" +:+ nl +:+
     "    }")
  = "function b() {" +:+ nl +:+
    "    console.log(1);" +:+ nl +:+
    "  }".
Proof. reflexivity. Qed.

(** ** The type-name resolver *)

Lemma stripClosingBracket_app (t : string) :
  stripClosingBracket (t +:+ "]") = t.
Proof.
  induction t as [|c t IH]; [reflexivity|].
  change (String c t +:+ "]") with (String c (t +:+ "]")).
  destruct t as [|c' t]; [reflexivity|].
  change (stripClosingBracket (String c (String c' t +:+ "]")))
    with (String c (stripClosingBracket (String c' t +:+ "]"))).
  now rewrite IH.
Qed.

Lemma stripObjectBrackets_objectToString (o : object) :
  stripObjectBrackets (objectToString o) = otag o.
Proof.
  unfold stripObjectBrackets, objectToString. cbn.
  apply stripClosingBracket_app.
Qed.

(** When [obj.constructor] is there and has no [name], the resolver
    answers with the tag of the object. *)
Lemma getConstructorName_fallback (o : object) :
  oconstructor o = Constructor None ->
  getConstructorName o = inr (otag o).
Proof.
  intros H. unfold getConstructorName. rewrite H.
  now rewrite stripObjectBrackets_objectToString.
Qed.

(** ** Child engines *)

Lemma descendant_snoc (self : Formatter) (path : list bool) (skip : bool) :
  descendant self (path ++ [skip]) =
  _getChildFormatter (descendant self path) skip.
Proof.
  revert self. induction path as [|b path IH]; intros self; cbn; [reflexivity|].
  apply IH.
Qed.

(** C9 (amended): every child engine, at any nesting level, has the
    max depth, escapeString and circularId of its ancestor unchanged and
    keeps the ancestor's initial indentation step; it is one level deeper
    per nesting step; its indentRoot is not passed through but forced to
    true; its indentation width grows by one initial step per nesting
    step, except on the first step below an engine whose indentRoot is
    false, which leaves the width as it is. *)
Theorem child_configuration (self : Formatter) (path : list bool) :
  let child := descendant self path in
  depth (options child) = depth (options self) /\
  escapeString (options child) = escapeString (options self) /\
  circularId (options child) = circularId (options self) /\
  _initialIndent child = _initialIndent self /\
  _currentDepth child = (_currentDepth self + Z.of_nat (length path))%Z /\
  (path <> [] ->
   indentRoot (options child) = true /\
   indent (options child) =
     indent (options self) +
     (length path - (if indentRoot (options self) then 0 else 1)) *
     _initialIndent self).
Proof.
  induction path as [|skip path IH] using rev_ind; cbn zeta.
  - cbn. split_and!; try reflexivity; try lia. intros Hne. now elim Hne.
  - rewrite descendant_snoc, length_app. cbn [length].
    destruct IH as (Hd & He & Hc & Hi & Hn & Hrest).
    cbn. rewrite Hd, He, Hc, Hi, Hn.
    split_and!; try reflexivity; try lia. intros _.
    destruct path as [|b path].
    + cbn. split; [reflexivity|]. destruct (indentRoot (options self)); lia.
    + destruct Hrest as [Hr Hw]; [discriminate|].
      rewrite Hr, Hw. cbn [length]. split; [reflexivity|].
      destruct (indentRoot (options self)); lia.
Qed.

(** Two steps below a default engine: the width has grown once. *)
Lemma child_configuration_witness :
  let child := descendant (rootFormatter noOptions) [false; true] in
  depth (options child) = 20%Z /\
  indentRoot (options child) = true /\
  indent (options child) = 4.
Proof.
  destruct (child_configuration (rootFormatter noOptions) [false; true])
    as (Hd & _ & _ & _ & _ & Hrest).
  destruct Hrest as [Hr Hi]; [discriminate|].
  split; [exact Hd|]. split; [exact Hr | exact Hi].
Defined.

(** C9, as stated, fails on the first nesting step of a default engine:
    the child's indentRoot differs from the parent's, and its
    indentation width has not grown. *)
Lemma child_configuration_counterexample :
  let self := rootFormatter noOptions in
  let child := _getChildFormatter self false in
  indentRoot (options child) <> indentRoot (options self) /\
  indent (options child) = indent (options self).
Proof. cbn. split; [discriminate | reflexivity]. Qed.

(** ** The dispatch of [format] *)

Lemma seenHas_None (a : addr) (s : store) :
  _seen s !! a = None -> seenHas a s = Ret false s.
Proof. intros H. unfold seenHas. now rewrite H. Qed.

Lemma seenHas_Some (a : addr) (s : store) (id : CircularId) :
  _seen s !! a = Some id -> seenHas a s = Ret true s.
Proof. intros H. unfold seenHas. now rewrite H. Qed.

Lemma find_first {A} (p : A -> bool) (l : list A) (x : A) :
  List.find p l = Some x ->
  exists before after,
    l = before ++ x :: after /\
    p x = true /\
    Forall (fun y => p y = false) before.
Proof.
  induction l as [|y l IH]; [discriminate|]. cbn [List.find].
  destruct (p y) eqn:Hy.
  - intros [= ->]. exists [], l. split_and!; [reflexivity|exact Hy|constructor].
  - intros (before & after & -> & Hx & Hb)%IH.
    exists (y :: before), after. split_and!; [reflexivity|exact Hx|].
    now constructor.
Qed.

(** Every stored object has a category: the last one takes what the
    others leave. *)
Lemma categoryOf_total (h : heap) (a : addr) (o : object) :
  h !! a = Some o -> exists c, categoryOf h (VObject a) = Some c.
Proof.
  intros Ho. unfold categoryOf.
  destruct (List.find (belongs h (VObject a)) priority) as [c|] eqn:Hfind;
    [now exists c|].
  assert (Hrec : belongs h (VObject a) RecordCategory = false).
  { apply (List.find_none _ _ Hfind). unfold priority. cbn. tauto. }
  cbn in Hrec. rewrite Ho in Hrec. discriminate.
Qed.

Lemma categoryOf_formatValue (h : heap) (rec : Formatter -> value -> M string)
    (self : Formatter) (a : addr) (o : object) (c : category) :
  h !! a = Some o ->
  categoryOf h (VObject a) = Some c ->
  formatValue h rec self (VObject a) = render h rec self (VObject a) c.
Proof.
  intros Ho. unfold categoryOf, priority.
  cbn [List.find belongs formatValue render]. rewrite Ho.
  cbn [objectBelongs].
  destruct (instanceOf o RegExpClass); [now intros [= <-]|].
  destruct (instanceOf o DateClass); [now intros [= <-]|].
  destruct (instanceOf o MapClass); [now intros [= <-]|].
  destruct (instanceOf o SetClass); [now intros [= <-]|].
  destruct (hasProperty o "length" && isNumber (getProperty o "length"));
    [now intros [= <-]|].
  destruct (bool_decide (is_Some (oiterator o))); now intros [= <-].
Qed.

(** C5: an object-typed value (null or a stored object) belongs to a
    first category of the priority list null, RegExp, Date, Map, Set,
    array-like, iterable, record; it belongs to none of the categories
    before that one, and [format] renders it by the routine of that
    category and no other. *)
Theorem format_category_priority (h : heap)
    (rec : Formatter -> value -> M string) (self : Formatter) (v : value) :
  v = VNull \/ (exists a o, v = VObject a /\ h !! a = Some o) ->
  exists c before after,
    priority = before ++ c :: after /\
    belongs h v c = true /\
    Forall (fun c' => belongs h v c' = false) before /\
    categoryOf h v = Some c /\
    formatValue h rec self v = render h rec self v c.
Proof.
  intros [-> | (a & o & -> & Ho)].
  - exists NullCategory, [], (tail priority). now repeat split.
  - destruct (categoryOf_total h a o Ho) as [c Hc].
    destruct (find_first _ _ _ Hc) as (before & after & Hsplit & Hin & Hout).
    exists c, before, after. split_and!; try assumption.
    now apply (categoryOf_formatValue h rec self a o c).
Qed.

(** A [Set] is iterable as well, and is rendered as a [Set]. *)
Lemma format_category_priority_witness :
  exists c,
    categoryOf setHeap (VObject 0) = Some c /\
    belongs setHeap (VObject 0) IterableCategory = true /\
    formatValue setHeap (format setHeap 1) (rootFormatter noOptions) (VObject 0) =
    render setHeap (format setHeap 1) (rootFormatter noOptions) (VObject 0) c.
Proof.
  destruct (format_category_priority setHeap (format setHeap 1)
              (rootFormatter noOptions) (VObject 0))
    as (c & before & after & _ & _ & _ & Hc & Hf).
  - right. exists 0, (setOf [VString "x"]). split; reflexivity.
  - exists c. split; [exact Hc|]. split; [reflexivity | exact Hf].
Defined.

Lemma categoryOf_belongs (h : heap) (v : value) (c : category) :
  categoryOf h v = Some c -> belongs h v c = true.
Proof. intros H. now apply List.find_some in H. Qed.

Lemma composite_formatValue (h : heap) (rec : Formatter -> value -> M string)
    (self : Formatter) (a : addr) (o : object) (c : category) :
  h !! a = Some o ->
  categoryOf h (VObject a) = Some c ->
  composite c = true ->
  formatValue h rec self (VObject a) =
  _formatObjectEntries h rec self a o (wrapperOf c) (generatorOf h c o).
Proof.
  intros Ho Hc Hcomp.
  rewrite (categoryOf_formatValue h rec self a o c Ho Hc).
  cbn [render]. rewrite Ho.
  destruct c; try discriminate; try reflexivity.
  apply categoryOf_belongs in Hc. cbn in Hc. rewrite Ho in Hc. cbn in Hc.
  unfold formatIterable. apply bool_decide_eq_true in Hc.
  now destruct Hc as [vs ->].
Qed.

(** ** The [Map] example *)

(** C8 (amended): with the default configuration the one-entry map,
    whose iterator hands out the one pair of ["k"] and ["v"], is rendered
    as [Map {], a line break, the entry [  "k" => "v",] indented by two
    spaces and ended by a comma and a line break, then [}]: one entry,
    key and value joined by [" => "]. *)
Theorem map_example (h : heap) (a : addr) (o : object) (p : value)
    (fuel : nat) :
  h !! a = Some o ->
  categoryOf h (VObject a) = Some MapCategory ->
  oiterator o = Some [p] ->
  destructurePair h p = inr (VString "k", VString "v") ->
  getConstructorName o = inr "Map" ->
  rendered (format h (S (S fuel)) (rootFormatter noOptions) (VObject a)
              freshStore)
  = Some mapText.
Proof.
  intros Ho Hc Hs Hp Hn.
  cbn [format].
  rewrite (composite_formatValue h _ _ a o MapCategory Ho Hc eq_refl).
  unfold _formatObjectEntries, generatorOf, mapContent. rewrite Hs.
  cbn [mapEntries]. rewrite Hp.
  unfold bind at 1. rewrite seenHas_None by apply lookup_empty.
  unfold bind at 1. rewrite Hn. cbn [lift ret].
  vm_compute. reflexivity.
Qed.

Lemma map_example_witness :
  rendered (format mapHeap 2 (rootFormatter noOptions) (VObject 0) freshStore)
  = Some mapText.
Proof.
  apply (map_example mapHeap 0 (mapOf [VObject 1]) (VObject 1) 0);
    reflexivity.
Defined.

(** C8, as stated, fails: the text the specification prints has a space
    where the engine puts a line break and two spaces after the opening
    brace, and a space before the closing one. *)
Lemma map_example_counterexample :
  rendered (format mapHeap 2 (rootFormatter noOptions) (VObject 0) freshStore)
  <> Some mapTextOfSpec.
Proof. vm_compute. discriminate. Qed.

(** ** The depth guard *)

(** C6, where the code departs from it: a composite value that is not
    being expanded, met by an engine whose depth has reached the max
    depth, is rendered as [[TypeName]] after as many spaces as the
    engine's indentation width, also where the engine indents no first
    line; no nested engine runs (one unit of fuel is enough), and the
    store is returned as it was: no entry in [_seen], no id handed
    out. *)
Theorem depth_guard (h : heap) (self : Formatter) (a : addr) (o : object)
    (c : category) (name : string) (s : store) (fuel : nat) :
  h !! a = Some o ->
  categoryOf h (VObject a) = Some c ->
  composite c = true ->
  _seen s !! a = None ->
  (depth (options self) <= _currentDepth self)%Z ->
  getConstructorName o = inr name ->
  format h (S fuel) self (VObject a) s =
  Ret (spaces (indent (options self)) +:+ "[" +:+ name +:+ "]") s.
Proof.
  intros Ho Hc Hcomp Hseen Hdepth Hname.
  cbn [format]. rewrite (composite_formatValue h _ _ a o c Ho Hc Hcomp).
  unfold _formatObjectEntries.
  unfold bind at 1. rewrite (seenHas_None _ _ Hseen).
  unfold bind at 1. rewrite Hname. cbn [lift ret].
  unfold _hitMaxDepth. apply Z.leb_le in Hdepth. rewrite Hdepth.
  reflexivity.
Qed.

Lemma depth_guard_witness :
  format twoObjectsHeap 1
    (rootFormatter (Options None (Some 1%Z) None None None)) (VObject 0)
    freshStore
  = Ret "  [Object]" freshStore.
Proof.
  apply (depth_guard twoObjectsHeap
           (rootFormatter (Options None (Some 1%Z) None None None))
           0 (objectLiteral []) RecordCategory "Object" freshStore 0);
    first [reflexivity | cbn; lia].
Defined.

(** The inputs on which C6 fails: with max depth 1 and [indentRoot]
    off, an empty object is rendered with two spaces before [[Object]];
    and in [v = { a: {}, self: v }] with max depth 2 the capped value
    carries its engine's indentation after the separator where its
    sibling, the marker, carries none. *)
Lemma depth_guard_counterexample :
  rendered (format twoObjectsHeap 1 (rootFormatter (maxDepth 1))
              (VObject 0) freshStore)
  = Some "  [Object]" /\
  indentRoot (options (rootFormatter (maxDepth 1))) = false /\
  rendered (format cappedSiblingHeap 3 (rootFormatter (maxDepth 2))
              (VObject 0) freshStore)
  = Some ("Object {" +:+ nl +:+
          "  " +:+ dq +:+ "a" +:+ dq +:+ ":   [Object]," +:+ nl +:+
          "  " +:+ dq +:+ "self" +:+ dq +:+ ": [Circular]," +:+ nl +:+
          "}").
Proof. split_and!; vm_compute; reflexivity. Qed.

(** ** Objects without a constructor *)

(** C4, where the code departs from it: an object whose [constructor] is
    nullish, unless it is a RegExp or is being expanded already, makes
    [format] raise [TypeError] while it computes the type name; the
    fallback to the structural tag is not reached. *)
Theorem missing_constructor_throws (h : heap) (self : Formatter) (a : addr)
    (o : object) (s : store) (fuel : nat) :
  h !! a = Some o ->
  oconstructor o = NoConstructor ->
  instanceOf o RegExpClass = false ->
  _seen s !! a = None ->
  format h (S fuel) self (VObject a) s = Throw TypeError s.
Proof.
  intros Ho Hctor HR Hseen.
  assert (Hname : getConstructorName o = inl TypeError)
    by (unfold getConstructorName; now rewrite Hctor).
  assert (Hentries : forall w g,
    _formatObjectEntries h (format h fuel) self a o w g s = Throw TypeError s).
  { intros w g. unfold _formatObjectEntries.
    unfold bind at 1. rewrite (seenHas_None _ _ Hseen).
    unfold bind at 1. now rewrite Hname. }
  cbn [format formatValue]. rewrite Ho, HR.
  destruct (instanceOf o DateClass).
  { unfold formatDate, bind. now rewrite Hname. }
  destruct (instanceOf o MapClass); [apply Hentries|].
  destruct (instanceOf o SetClass); [apply Hentries|].
  destruct (hasProperty o "length" && isNumber (getProperty o "length"));
    [apply Hentries|].
  destruct (bool_decide (is_Some (oiterator o))) eqn:Hit;
    [|apply Hentries].
  unfold formatIterable. apply bool_decide_eq_true in Hit.
  destruct Hit as [vs ->]. apply Hentries.
Qed.

(** [format(Object.create(null))] raises [TypeError]. *)
Lemma missing_constructor_throws_witness :
  format bareHeap 1 (rootFormatter noOptions) (VObject 0) freshStore =
  Throw TypeError freshStore.
Proof.
  apply (missing_constructor_throws bareHeap (rootFormatter noOptions) 0
           nullPrototypeObject freshStore 0); reflexivity.
Defined.

(** ** The routine of composites, as equations *)

Lemma formatEntries_resolve (h : heap)
    (rec : Formatter -> value -> M string) (self : Formatter)
    (steps : list step) (content : string) (s : store) :
  formatEntries h rec self steps content s =
  match visitAll rec (visitsOf self (fst (resolve h steps))) s with
  | Ret texts s' =>
      match snd (resolve h steps) with
      | Some e => Throw e s'
      | None => Ret (assemble (fst (resolve h steps)) texts content) s'
      end
  | Throw e s' => Throw e s'
  | OutOfFuel => OutOfFuel
  end.
Proof.
  revert content s. induction steps as [|[y|err] steps IH]; intros content s.
  - reflexivity.
  - cbn [formatEntries resolve]. destruct (classify h y) as [e|v].
    + destruct (templateText h (separator e)) as [err|sep];
        cbn [fst snd visitsOf flat_map app visitAll rkey rvalue rseparator
             assemble];
        fold (visitsOf self (fst (resolve h steps)));
        unfold bind, lift, ret, throw.
      * destruct (rec _ (key e) s) as [k s1| |]; try reflexivity.
        destruct (rec _ (evalue e) s1) as [t s2| |]; reflexivity.
      * destruct (rec _ (key e) s) as [k s1| |]; try reflexivity.
        destruct (rec _ (evalue e) s1) as [t s2| |]; try reflexivity.
        rewrite IH. destruct (visitAll rec _ s2); [|reflexivity..].
        destruct (snd (resolve h steps)); reflexivity.
    + cbn [fst snd visitsOf flat_map app visitAll assemble];
        fold (visitsOf self (fst (resolve h steps))); unfold bind, ret.
      destruct (rec _ v s) as [t s1| |]; try reflexivity.
      rewrite IH. destruct (visitAll rec _ s1); [|reflexivity..].
      destruct (snd (resolve h steps)); reflexivity.
  - reflexivity.
Qed.

Lemma formatObjectEntries_entries (h : heap)
    (rec : Formatter -> value -> M string)
    (self : Formatter) (a : addr) (o : object) (w : string * string)
    (g : list step) (s : store) :
  _formatObjectEntries h rec self a o w g s =
  match _seen s !! a with
  | Some id => Ret (circularText self (Some id)) (noted s)
  | None =>
      match getConstructorName o with
      | inl e => Throw e s
      | inr name =>
          if _hitMaxDepth self then Ret (cappedText self name) s
          else
            match formatEntries h rec self g EmptyString (snd (enter a s)) with
            | Ret content s' =>
                Ret (expandedText self name (fst (enter a s)) w content)
                    (leave a s')
            | Throw e s' => Throw e s'
            | OutOfFuel => OutOfFuel
            end
      end
  end.
Proof.
  unfold _formatObjectEntries. unfold bind at 1.
  destruct (_seen s !! a) as [id|] eqn:Hseen.
  - rewrite (seenHas_Some _ _ _ Hseen).
    unfold formatCircularRef, bind, seenGet, noteCircularRef, ret.
    now rewrite Hseen.
  - rewrite (seenHas_None _ _ Hseen). unfold bind at 1.
    destruct (getConstructorName o) as [e|name]; [reflexivity|].
    cbn [lift ret]. destruct (_hitMaxDepth self); [reflexivity|].
    unfold bind at 1. unfold generateId, enter.
    destruct (CircularIdGenerator.generateId a (_circularIdGenerator s))
      as [id gen'].
    unfold bind at 1. cbn [seenSet snd fst].
    unfold bind at 1.
    destruct (formatEntries h rec self g _ _) as [content s'| |];
      reflexivity.
Qed.

Lemma formatObjectEntries_unfold (h : heap)
    (rec : Formatter -> value -> M string)
    (self : Formatter) (a : addr) (o : object) (w : string * string)
    (g : list step) (s : store) :
  _formatObjectEntries h rec self a o w g s =
  match _seen s !! a with
  | Some id => Ret (circularText self (Some id)) (noted s)
  | None =>
      match getConstructorName o with
      | inl e => Throw e s
      | inr name =>
          if _hitMaxDepth self then Ret (cappedText self name) s
          else
            match visitAll rec (visitsOf self (fst (resolve h g)))
                    (snd (enter a s)) with
            | Ret texts s' =>
                match snd (resolve h g) with
                | Some e => Throw e s'
                | None =>
                    Ret (expandedText self name (fst (enter a s)) w
                           (assemble (fst (resolve h g)) texts EmptyString))
                        (leave a s')
                end
            | Throw e s' => Throw e s'
            | OutOfFuel => OutOfFuel
            end
      end
  end.
Proof.
  rewrite formatObjectEntries_entries, formatEntries_resolve.
  destruct (_seen s !! a); [reflexivity|].
  destruct (getConstructorName o); [reflexivity|].
  destruct (_hitMaxDepth self); [reflexivity|].
  destruct (visitAll rec _ _) as [texts s'| |]; try reflexivity.
  destruct (snd (resolve h g)); reflexivity.
Qed.

(** A loop that returned has appended one piece for every step of the
    generator, which has not raised. *)
Lemma formatEntries_pieces (h : heap)
    (rec : Formatter -> value -> M string) (self : Formatter)
    (steps : list step) (content : string) (s : store) (t : string)
    (s' : store) :
  formatEntries h rec self steps content s = Ret t s' ->
  exists ys pieces,
    steps = map Yield ys /\
    Forall2 (appended h rec self) ys pieces /\
    t = content +:+ joined pieces.
Proof.
  revert content s.
  induction steps as [|[y|err] steps IH]; intros content s H.
  - injection H as <- _. exists [], []. split_and!; [done|constructor|].
    cbn. now rewrite append_nil_r.
  - cbn [formatEntries] in H. unfold bind at 1 in H.
    destruct (classify h y) as [e|v] eqn:Hy.
    + unfold bind at 1 in H.
      destruct (rec _ (key e) s) as [k s1| |] eqn:Hk; try discriminate.
      unfold bind at 1 in H.
      destruct (rec _ (evalue e) s1) as [v s2| |] eqn:Hv; try discriminate.
      unfold bind at 1 in H.
      destruct (templateText h (separator e)) as [err|sep] eqn:Hsep;
        [discriminate|].
      cbn [lift ret] in H.
      destruct (IH _ _ H) as (ys & pieces & -> & Hpieces & ->).
      exists (y :: ys), ((k +:+ sep +:+ v +:+ "," +:+ nl) :: pieces).
      split_and!; [done| |].
      * constructor; [|exact Hpieces]. unfold appended. rewrite Hy.
        exists k, v, sep, s, s1, s2. now split_and!.
      * cbn [joined foldr]. unfold wrap. now rewrite !append_assoc.
    + unfold bind at 1 in H.
      destruct (rec _ v s) as [text s1| |] eqn:Hv; try discriminate.
      cbn [ret] in H.
      destruct (IH _ _ H) as (ys & pieces & -> & Hpieces & ->).
      exists (y :: ys), ((text +:+ "," +:+ nl) :: pieces).
      split_and!; [done| |].
      * constructor; [|exact Hpieces]. unfold appended. rewrite Hy.
        exists text, s, s1. now split.
      * cbn [joined foldr]. now rewrite !append_assoc.
  - discriminate.
Qed.

(** An expansion that returned: the type name, the id, and between the
    wrapper the pieces of what the generator yielded. *)
Lemma expanded_pieces (h : heap) (rec : Formatter -> value -> M string)
    (self : Formatter) (a : addr) (o : object) (w : string * string)
    (ys : list yielded) (s : store) (t : string) (s' : store) :
  _formatObjectEntries h rec self a o w (map Yield ys) s = Ret t s' ->
  _seen s !! a = None ->
  _hitMaxDepth self = false ->
  exists name pieces,
    getConstructorName o = inr name /\
    Forall2 (appended h rec self) ys pieces /\
    t = expandedText self name (fst (enter a s)) w (joined pieces).
Proof.
  intros H Hseen Hhit.
  rewrite formatObjectEntries_entries, Hseen, Hhit in H.
  destruct (getConstructorName o) as [e|name]; [discriminate|].
  destruct (formatEntries _ _ _ _ _ _) as [content s1| |] eqn:Hentries;
    try discriminate.
  injection H as <- <-.
  destruct (formatEntries_pieces _ _ _ _ _ _ _ _ Hentries)
    as (ys' & pieces & Hys & Hpieces & ->).
  assert (ys' = ys) as ->.
  { clear -Hys. revert ys' Hys.
    induction ys as [|y ys IH]; intros [|y' ys'] H;
      try discriminate; [reflexivity|].
    injection H as -> H. f_equal. now apply IH. }
  exists name, pieces. now split_and!.
Qed.

(** A value is either rendered without a look at the store and without
    nested engines, or it is a composite. *)
Lemma formatValue_cases (h : heap) (self : Formatter) (v : value) :
  (exists r : error + string,
     leafText h self v = Some r /\
     forall rec, formatValue h rec self v = lift r) \/
  (exists a o c,
     v = VObject a /\ h !! a = Some o /\
     categoryOf h v = Some c /\ composite c = true /\
     forall rec,
       formatValue h rec self v =
       _formatObjectEntries h rec self a o (wrapperOf c) (generatorOf h c o)).
Proof.
  destruct v as [| |b|n|n|t|d|src|a];
    try (left; eexists; split; [reflexivity|]; intros rec; reflexivity).
  cbn [leafText formatValue].
  destruct (h !! a) as [o|] eqn:Ho.
  2: { left. eexists. split; [reflexivity|]. intros rec. reflexivity. }
  destruct (instanceOf o RegExpClass) eqn:HR.
  { left. eexists. split; [reflexivity|]. intros rec.
    unfold formatRegExp, bind. now destruct (ostring o). }
  destruct (instanceOf o DateClass) eqn:HD.
  { left. eexists. split; [reflexivity|]. intros rec.
    unfold formatDate, bind.
    destruct (getConstructorName o); [reflexivity|].
    now destruct (toISOString o). }
  right. destruct (categoryOf_total h a o Ho) as [c Hc].
  assert (Hcomp : composite c = true).
  { revert Hc. unfold categoryOf, priority. cbn [List.find belongs].
    rewrite Ho. cbn [objectBelongs]. rewrite HR, HD.
    repeat (match goal with
            | |- context [if ?b then _ else _] => destruct b
            end; [now intros [= <-]|]).
    now intros [= <-]. }
  exists a, o, c. split_and!; try done.
  intros rec. rewrite <- (composite_formatValue h rec self a o c Ho Hc Hcomp).
  cbn [formatValue]. now rewrite Ho, HR, HD.
Qed.

(** ** Fuel *)

Lemma visitAll_ext (rec1 rec2 : Formatter -> value -> M string)
    (visits : list (Formatter * value)) (s : store) :
  (forall f v s', (f, v) ∈ visits -> rec1 f v s' = rec2 f v s') ->
  visitAll rec1 visits s = visitAll rec2 visits s.
Proof.
  revert s. induction visits as [|[f v] visits IH]; intros s Hext;
    [reflexivity|].
  cbn [visitAll]. unfold bind. rewrite Hext by apply list_elem_of_here.
  destruct (rec2 f v s) as [t s1| |]; try reflexivity.
  rewrite IH; [reflexivity|].
  intros f' v' s' Hin. apply Hext. now apply list_elem_of_further.
Qed.

Lemma visitAll_terminated (rec : Formatter -> value -> M string)
    (visits : list (Formatter * value)) (s : store) :
  (forall f v s', (f, v) ∈ visits -> terminated (rec f v s')) ->
  terminated (visitAll rec visits s).
Proof.
  revert s. induction visits as [|[f v] visits IH]; intros s Hterm;
    [exact I|].
  cbn [visitAll]. unfold bind.
  pose proof (Hterm f v s (list_elem_of_here _ _)) as Hfv.
  destruct (rec f v s) as [t s1| |]; try exact Hfv.
  assert (Hrest : terminated (visitAll rec visits s1)).
  { apply IH. intros f' v' s' Hin. apply Hterm.
    now apply list_elem_of_further. }
  destruct (visitAll rec visits s1); exact Hrest || exact I.
Qed.

(** The engines of the visits are children of [self]. *)
Lemma visitsOf_child (self : Formatter) (items : list item) (f : Formatter)
    (v : value) :
  (f, v) ∈ visitsOf self items ->
  exists skip, f = _getChildFormatter self skip.
Proof.
  unfold visitsOf. rewrite list_elem_of_In, in_flat_map.
  intros (it & _ & Hin). destruct it as [w|e]; cbn in Hin.
  - destruct Hin as [[= <- _]|[]]. now exists false.
  - destruct Hin as [[= <- _]|[[= <- _]|[]]]; [now exists false|now exists true].
Qed.

Lemma enoughFuel_child (self : Formatter) (skip : bool) :
  _hitMaxDepth self = false ->
  S (enoughFuel (_getChildFormatter self skip)) = enoughFuel self.
Proof.
  unfold _hitMaxDepth, enoughFuel. cbn. intros H%Z.leb_gt. lia.
Qed.

(** Once an engine has the fuel its depth guard asks for, more fuel
    changes nothing, and the run ends. *)
Lemma format_enoughFuel (h : heap) (fuel : nat) (self : Formatter)
    (v : value) (s : store) :
  enoughFuel self <= fuel ->
  terminated (format h fuel self v s) /\
  format h (S fuel) self v s = format h fuel self v s.
Proof.
  revert self v s. induction fuel as [|fuel IH]; intros self v s Hfuel.
  { unfold enoughFuel in Hfuel. lia. }
  change (format h (S (S fuel)) self v s)
    with (formatValue h (format h (S fuel)) self v s).
  change (format h (S fuel) self v s)
    with (formatValue h (format h fuel) self v s).
  destruct (formatValue_cases h self v)
    as [(r & Hleaf & Hr) | (a & o & c & -> & Ho & Hc & Hcomp & Hf)].
  { rewrite !Hr. split; [|reflexivity]. now destruct r. }
  rewrite !Hf, !formatObjectEntries_unfold.
  destruct (_seen s !! a); [now split|].
  destruct (getConstructorName o) as [e|name]; [now split|].
  destruct (_hitMaxDepth self) eqn:Hhit; [now split|].
  set (items := fst (resolve h (generatorOf h c o))).
  assert (Hchild : forall f w s', (f, w) ∈ visitsOf self items ->
    terminated (format h fuel f w s') /\
    format h (S fuel) f w s' = format h fuel f w s').
  { intros f w s' Hin. apply visitsOf_child in Hin as [skip ->].
    apply IH. pose proof (enoughFuel_child self skip Hhit). lia. }
  rewrite (visitAll_ext (format h (S fuel)) (format h fuel))
    by (intros; now apply Hchild).
  split; [|reflexivity].
  pose proof (visitAll_terminated (format h fuel) (visitsOf self items)
                (snd (enter a s))) as Hterm.
  destruct (visitAll _ _ _); try exact I.
  - now destruct (snd (resolve h (generatorOf h c o))).
  - apply Hterm. intros; now apply Hchild.
Qed.

Lemma format_fuel_stable (h : heap) (fuel : nat) (self : Formatter)
    (v : value) (s : store) :
  enoughFuel self <= fuel ->
  format h fuel self v s = format h (enoughFuel self) self v s.
Proof.
  induction 1 as [|fuel Hle IH]; [reflexivity|].
  now rewrite (proj2 (format_enoughFuel h fuel self v s Hle)).
Qed.

(** ** What a call leaves of the store *)

Lemma visitAll_Ret (rec : Formatter -> value -> M string)
    (visits : list (Formatter * value)) (s : store) (ts : list string)
    (s' : store) :
  visitAll rec visits s = Ret ts s' <-> visited rec visits s ts s'.
Proof.
  split.
  - revert s ts. induction visits as [|[f v] visits IH]; intros s ts H.
    + cbn in H. injection H as <- <-. constructor.
    + cbn [visitAll] in H. unfold bind in H.
      destruct (rec f v s) as [t s1| |] eqn:Hfv; try discriminate.
      destruct (visitAll rec visits s1) as [ts' s2| |] eqn:Hrest;
        try discriminate.
      injection H as <- <-. econstructor; [exact Hfv|]. now apply IH.
  - induction 1 as [|f v rest s t s1 ts s' Hfv _ IH]; [reflexivity|].
    cbn [visitAll]. unfold bind. now rewrite Hfv, IH.
Qed.

Lemma framed_refl (s : store) : framed s s.
Proof. unfold framed, generatorIncluded. split_and!; done. Qed.

Lemma framed_trans (s1 s2 s3 : store) :
  framed s1 s2 -> framed s2 s3 -> framed s1 s3.
Proof.
  unfold framed, generatorIncluded.
  intros (Hs & Hg & Hn) (Hs' & Hg' & Hn'). split_and!.
  - congruence.
  - etrans; eassumption.
  - lia.
Qed.

Lemma generateId_included (a : addr) (g : CircularIdGenerator.t) :
  generatorIncluded g (snd (CircularIdGenerator.generateId a g)).
Proof.
  unfold generatorIncluded, CircularIdGenerator.generateId.
  destruct (CircularIdGenerator._generatedIds g !! a) eqn:Hl; cbn; [done|].
  now apply insert_subseteq.
Qed.

Lemma generateId_lookup (a : addr) (g : CircularIdGenerator.t) :
  CircularIdGenerator._generatedIds
    (snd (CircularIdGenerator.generateId a g)) !! a =
  Some (fst (CircularIdGenerator.generateId a g)).
Proof.
  unfold CircularIdGenerator.generateId.
  destruct (CircularIdGenerator._generatedIds g !! a) eqn:Hl; cbn; [done|].
  apply lookup_insert_eq.
Qed.

Lemma enter_seen (a : addr) (s : store) :
  _seen (snd (enter a s)) = <[a := fst (enter a s)]> (_seen s).
Proof.
  unfold enter.
  now destruct (CircularIdGenerator.generateId a (_circularIdGenerator s)).
Qed.

Lemma enter_generator (a : addr) (s : store) :
  _circularIdGenerator (snd (enter a s)) =
  snd (CircularIdGenerator.generateId a (_circularIdGenerator s)) /\
  fst (enter a s) =
  fst (CircularIdGenerator.generateId a (_circularIdGenerator s)).
Proof.
  unfold enter.
  now destruct (CircularIdGenerator.generateId a (_circularIdGenerator s)).
Qed.

Lemma enter_circularRefs (a : addr) (s : store) :
  circularRefs (snd (enter a s)) = circularRefs s.
Proof.
  unfold enter.
  now destruct (CircularIdGenerator.generateId a (_circularIdGenerator s)).
Qed.

(** Entering a value, running visits that leave [_seen] as it was, and
    leaving it again. *)
Lemma framed_enter_leave (a : addr) (s s2 : store) :
  _seen s !! a = None ->
  framed (snd (enter a s)) s2 ->
  framed s (leave a s2).
Proof.
  intros Hseen (Hs & Hg & Hn). unfold framed. cbn [leave _seen].
  split_and!.
  - rewrite Hs, enter_seen. now apply delete_insert_id.
  - cbn. unfold generatorIncluded in *. etrans; [|exact Hg].
    rewrite (proj1 (enter_generator a s)). apply generateId_included.
  - cbn. rewrite enter_circularRefs in Hn. exact Hn.
Qed.

Lemma visited_framed (rec : Formatter -> value -> M string)
    (visits : list (Formatter * value)) (s : store) (ts : list string)
    (s' : store) :
  (forall f v s1 t s2, (f, v) ∈ visits -> rec f v s1 = Ret t s2 ->
                       framed s1 s2) ->
  visited rec visits s ts s' ->
  framed s s'.
Proof.
  intros Hrec Hv. induction Hv as [|f v rest s t s1 ts s' Hfv _ IH];
    [apply framed_refl|].
  eapply framed_trans.
  - eapply Hrec; [apply list_elem_of_here | exact Hfv].
  - apply IH. intros f' v' sa t' sb Hin. apply Hrec.
    now apply list_elem_of_further.
Qed.

Lemma lift_Ret {A} (r : error + A) (s : store) (a : A) (s' : store) :
  lift r s = Ret a s' -> r = inr a /\ s' = s.
Proof. destruct r; cbn; [discriminate|]. now intros [= -> ->]. Qed.

(** A call that returns has removed from [_seen] what it had put there;
    ids and markers only accumulate. *)
Lemma format_framed (h : heap) (fuel : nat) (self : Formatter) (v : value)
    (s : store) (t : string) (s' : store) :
  format h fuel self v s = Ret t s' -> framed s s'.
Proof.
  revert self v s t s'. induction fuel as [|fuel IH]; intros self v s t s' H;
    [discriminate|].
  change (formatValue h (format h fuel) self v s = Ret t s') in H.
  destruct (formatValue_cases h self v)
    as [(r & Hleaf & Hr) | (a & o & c & -> & Ho & Hc & Hcomp & Hf)].
  { rewrite Hr in H. apply lift_Ret in H as [_ ->]. apply framed_refl. }
  rewrite Hf, formatObjectEntries_unfold in H.
  destruct (_seen s !! a) eqn:Hseen.
  { injection H as _ <-. unfold framed, generatorIncluded. cbn.
    split_and!; [done|done|lia]. }
  destruct (getConstructorName o) as [e|name]; [discriminate|].
  destruct (_hitMaxDepth self).
  { injection H as _ <-. apply framed_refl. }
  set (items := fst (resolve h (generatorOf h c o))) in *.
  destruct (visitAll _ _ _) as [texts s2| |] eqn:Hvisits;
    try discriminate.
  destruct (snd (resolve h (generatorOf h c o))) as [failure|] eqn:Hfail;
    [discriminate|].
  injection H as _ <-. apply framed_enter_leave; [exact Hseen|].
  apply visitAll_Ret in Hvisits.
  eapply visited_framed; [|exact Hvisits].
  intros f w s1 t' s3 _ Hfw. eapply IH, Hfw.
Qed.

(** ** Acyclic values *)

Lemma acyclicWithin_mono (h : heap) (k n : nat) (v : value) :
  k <= n -> acyclicWithin h k v = true -> acyclicWithin h n v = true.
Proof.
  revert n v. induction k as [|k IH]; intros n v Hle H.
  - destruct v; try (destruct n; reflexivity). discriminate.
  - destruct v as [| | | | | | | |a]; try (destruct n; reflexivity).
    destruct n as [|n]; [lia|]. cbn [acyclicWithin] in *.
    rewrite forallb_forall in *. intros w Hw. apply IH; [lia|]. now apply H.
Qed.

(** The height of an acyclic object. *)
Lemma acyclicWithin_least (h : heap) (n : nat) (a : addr) :
  acyclicWithin h n (VObject a) = true ->
  exists k, S k <= n /\
            acyclicWithin h (S k) (VObject a) = true /\
            acyclicWithin h k (VObject a) = false.
Proof.
  induction n as [|n IH]; intros H; [discriminate|].
  destruct (acyclicWithin h n (VObject a)) eqn:Hn.
  - destruct (IH eq_refl) as (k & Hle & Hk & Hk'). exists k. split_and!; [lia|done..].
  - exists n. split_and!; [lia|done..].
Qed.

Lemma find_objectBelongs (h : heap) (a : addr) (o : object) :
  h !! a = Some o ->
  List.find (objectBelongs o) priority = categoryOf h (VObject a).
Proof.
  intros Ho. unfold categoryOf, priority. cbn [List.find belongs].
  now rewrite Ho.
Qed.

Lemma children_generatorOf (h : heap) (a : addr) (o : object) (c : category)
    (items : list item) :
  h !! a = Some o ->
  categoryOf h (VObject a) = Some c ->
  composite c = true ->
  items = fst (resolve h (generatorOf h c o)) ->
  children h a = flat_map itemValues items.
Proof.
  intros Ho Hc Hcomp ->. unfold children, contentOf.
  now rewrite Ho, (find_objectBelongs h a o Ho), Hc, Hcomp.
Qed.

Lemma visitsOf_values (self : Formatter) (items : list item) :
  map snd (visitsOf self items) = flat_map itemValues items.
Proof.
  induction items as [|[v|e] items IH]; [reflexivity|..];
    cbn [visitsOf flat_map app map snd itemValues];
    fold (visitsOf self items); now rewrite ?map_app, IH.
Qed.

Lemma seenAbove_framed (h : heap) (n : nat) (s s' : store) :
  framed s s' -> seenAbove h n s -> seenAbove h n s'.
Proof. intros (Hs & _) H b. rewrite Hs. apply H. Qed.

Lemma seenAbove_enter (h : heap) (n k : nat) (a : addr) (s : store) :
  S k <= n ->
  acyclicWithin h k (VObject a) = false ->
  seenAbove h n s ->
  seenAbove h k (snd (enter a s)).
Proof.
  intros Hle Ha Hs b. rewrite enter_seen.
  destruct (decide (a = b)) as [<-|Hne]; [intros _; exact Ha|].
  rewrite lookup_insert_ne by done. intros Hb.
  destruct (acyclicWithin h k (VObject b)) eqn:Hk; [|reflexivity].
  rewrite <- (Hs b Hb). symmetry.
  apply (acyclicWithin_mono h k n); [lia | exact Hk].
Qed.

(** Rendering an acyclic value whose ancestors are all that is being
    expanded produces no circular-reference marker. *)
Lemma format_acyclic (h : heap) (fuel n : nat) (self : Formatter) (v : value)
    (s : store) (t : string) (s' : store) :
  acyclicWithin h n v = true ->
  seenAbove h n s ->
  format h fuel self v s = Ret t s' ->
  circularRefs s' = circularRefs s.
Proof.
  revert n self v s t s'.
  induction fuel as [|fuel IH]; intros n self v s t s' Hv Hs H;
    [discriminate|].
  change (formatValue h (format h fuel) self v s = Ret t s') in H.
  destruct (formatValue_cases h self v)
    as [(r & Hleaf & Hr) | (a & o & c & -> & Ho & Hc & Hcomp & Hf)].
  { rewrite Hr in H. now apply lift_Ret in H as [_ ->]. }
  rewrite Hf, formatObjectEntries_unfold in H.
  destruct (_seen s !! a) eqn:Hseen.
  { rewrite (Hs a) in Hv; [discriminate | now rewrite Hseen]. }
  destruct (getConstructorName o) as [e|name]; [discriminate|].
  destruct (_hitMaxDepth self); [now injection H as _ <-|].
  remember (fst (resolve h (generatorOf h c o))) as items eqn:Hg.
  destruct (visitAll _ _ _) as [texts s2| |] eqn:Hvisits; try discriminate.
  destruct (snd (resolve h (generatorOf h c o))) as [failure|] eqn:Hfail;
    [discriminate|].
  injection H as _ <-. cbn [leave circularRefs].
  rewrite <- (enter_circularRefs a s).
  apply acyclicWithin_least in Hv as (k & Hle & Hk & Hk').
  cbn [acyclicWithin] in Hk.
  rewrite (children_generatorOf h a o c items Ho Hc Hcomp Hg),
    <- (visitsOf_values self), forallb_forall in Hk.
  pose proof (seenAbove_enter h n k a s Hle Hk' Hs) as Hs1.
  apply visitAll_Ret in Hvisits.
  remember (snd (enter a s)) as s1 eqn:E. clear E. revert Hk Hs1.
  induction Hvisits as [|f w rest s1 t1 s3 ts s4 Hfw _ IHv]; intros Hk Hs1;
    [reflexivity|].
  rewrite IHv.
  - eapply (IH k); [|exact Hs1|exact Hfw].
    apply Hk. cbn. now left.
  - intros w' Hw'. apply Hk. cbn. now right.
  - eapply seenAbove_framed; [|exact Hs1]. eapply format_framed, Hfw.
Qed.

(** ** Calls on an engine that does not show ids *)

Lemma dom_lookup_agree (m1 m2 : gmap addr CircularId) (a : addr) :
  dom m1 = dom m2 ->
  match m1 !! a, m2 !! a with
  | Some _, Some _ | None, None => True
  | _, _ => False
  end.
Proof.
  intros Hdom.
  destruct (m1 !! a) eqn:H1, (m2 !! a) eqn:H2; try exact I.
  - apply not_elem_of_dom in H2. rewrite <- Hdom in H2.
    apply H2, elem_of_dom. now rewrite H1.
  - apply not_elem_of_dom in H1. rewrite Hdom in H1.
    apply H1, elem_of_dom. now rewrite H2.
Qed.

Lemma circularText_hidden (self : Formatter) (id id' : option CircularId) :
  circularId (options self) = false ->
  circularText self id = circularText self id'.
Proof. intros H. unfold circularText. now rewrite H. Qed.

Lemma expandedText_hidden (self : Formatter) (name : string)
    (id id' : CircularId) (w : string * string) (content : string) :
  circularId (options self) = false ->
  expandedText self name id w content = expandedText self name id' w content.
Proof. intros H. unfold expandedText. now rewrite H. Qed.

Lemma visitAll_agree (rec : Formatter -> value -> M string)
    (visits : list (Formatter * value)) (s1 s2 : store) :
  (forall f v u1 u2, (f, v) ∈ visits ->
     dom (_seen u1) = dom (_seen u2) -> agree (rec f v u1) (rec f v u2)) ->
  dom (_seen s1) = dom (_seen s2) ->
  agree (visitAll rec visits s1) (visitAll rec visits s2).
Proof.
  revert s1 s2. induction visits as [|[f v] visits IH]; intros s1 s2 Hrec Hdom.
  - now split.
  - cbn [visitAll]. unfold bind.
    pose proof (Hrec f v s1 s2 (list_elem_of_here _ _) Hdom) as Hfv.
    destruct (rec f v s1) as [t1 u1| |], (rec f v s2) as [t2 u2| |];
      try exact Hfv; try contradiction.
    destruct Hfv as [-> Hdom'].
    assert (Hrest : agree (visitAll rec visits u1) (visitAll rec visits u2)).
    { apply IH; [|exact Hdom']. intros f' v' w1 w2 Hin. apply Hrec.
      now apply list_elem_of_further. }
    destruct (visitAll rec visits u1), (visitAll rec visits u2);
      try exact Hrest; try contradiction.
    destruct Hrest as [-> Hdom'']. now split.
Qed.

(** With ids hidden, what [format] returns depends on the store only
    through the set of values being expanded. *)
Lemma format_agree (h : heap) (fuel : nat) (self : Formatter) (v : value)
    (s1 s2 : store) :
  circularId (options self) = false ->
  dom (_seen s1) = dom (_seen s2) ->
  agree (format h fuel self v s1) (format h fuel self v s2).
Proof.
  revert self v s1 s2.
  induction fuel as [|fuel IH]; intros self v s1 s2 Hid Hdom; [exact I|].
  change (agree (formatValue h (format h fuel) self v s1)
                (formatValue h (format h fuel) self v s2)).
  destruct (formatValue_cases h self v)
    as [(r & Hleaf & Hr) | (a & o & c & -> & Ho & Hc & Hcomp & Hf)].
  { rewrite !Hr. destruct r; now split. }
  rewrite !Hf, !formatObjectEntries_unfold.
  pose proof (dom_lookup_agree _ _ a Hdom) as Ha.
  destruct (_seen s1 !! a) as [id1|], (_seen s2 !! a) as [id2|];
    try contradiction.
  { split; [now apply circularText_hidden | exact Hdom]. }
  destruct (getConstructorName o) as [e|name]; [now split|].
  destruct (_hitMaxDepth self); [now split|].
  assert (Hdom1 : dom (_seen (snd (enter a s1))) =
                  dom (_seen (snd (enter a s2))))
    by (rewrite !enter_seen, !dom_insert_L; now rewrite Hdom).
  set (items := fst (resolve h (generatorOf h c o))).
  assert (Hvisits :
    agree (visitAll (format h fuel) (visitsOf self items) (snd (enter a s1)))
          (visitAll (format h fuel) (visitsOf self items) (snd (enter a s2)))).
  { apply visitAll_agree; [|exact Hdom1].
    intros f w w1 w2 [skip ->]%visitsOf_child Hw.
    apply IH; [exact Hid | exact Hw]. }
  destruct (visitAll _ _ (snd (enter a s1))) as [ts1 u1| |],
           (visitAll _ _ (snd (enter a s2))) as [ts2 u2| |];
    try contradiction; try exact Hvisits.
  destruct Hvisits as [-> Hdom2].
  destruct (snd (resolve h (generatorOf h c o))); [now split|].
  split; [now apply expandedText_hidden|].
  cbn [leave _seen]. rewrite !dom_delete_L. now rewrite Hdom2.
Qed.

Lemma reachableStore_seen (h : heap) (self : Formatter) (s : store) :
  reachableStore h self s -> _seen s = ∅.
Proof.
  induction 1 as [|fuel v s out s' _ IH Hcall]; [reflexivity|].
  apply format_framed in Hcall as [Hs _]. congruence.
Qed.

(** C3 (amended): the store of an engine is created once, with the
    engine, and every call to [format] on it starts from what the calls
    before left.  A call that returns leaves no value marked as being
    expanded; so, when the engine does not show circular ids, a call
    made after any number of calls that returned gives what the same
    call gives on a newly built engine: the same text, or no text. *)
Theorem later_call_as_fresh (h : heap) (self : Formatter) (s : store) :
  reachableStore h self s ->
  _seen s = ∅ /\
  (circularId (options self) = false ->
   forall fuel v,
     rendered (format h fuel self v s) =
     rendered (format h fuel self v freshStore)).
Proof.
  intros Hreach. pose proof (reachableStore_seen h self s Hreach) as Hseen.
  split; [exact Hseen|]. intros Hid fuel v.
  pose proof (format_agree h fuel self v s freshStore Hid) as Hagree.
  destruct (format h fuel self v s), (format h fuel self v freshStore);
    cbn [rendered]; try reflexivity;
    try (destruct Hagree; [now rewrite Hseen|]; congruence);
    exfalso; apply Hagree; now rewrite Hseen.
Qed.

Lemma afterFirstCall_reachable (o : FormatterOptions) :
  o = noOptions \/ o = showIds ->
  reachableStore twoObjectsHeap (rootFormatter o) (afterFirstCall o).
Proof.
  intros [-> | ->].
  - apply (reach_call _ _ 2 (VObject 0) freshStore ("Object {" +:+ nl +:+ "}"));
      [apply reach_fresh | vm_compute; reflexivity].
  - apply (reach_call _ _ 2 (VObject 0) freshStore
             ("Object#1 {" +:+ nl +:+ "}"));
      [apply reach_fresh | vm_compute; reflexivity].
Qed.

Lemma later_call_as_fresh_witness :
  _seen (afterFirstCall noOptions) = ∅ /\
  (circularId (options (rootFormatter noOptions)) = false ->
   forall fuel v,
     rendered (format twoObjectsHeap fuel (rootFormatter noOptions) v
                 (afterFirstCall noOptions)) =
     rendered (format twoObjectsHeap fuel (rootFormatter noOptions) v
                 freshStore)).
Proof.
  apply (later_call_as_fresh twoObjectsHeap (rootFormatter noOptions)
           (afterFirstCall noOptions)).
  apply afterFirstCall_reachable. now left.
Defined.

(** C3, as stated, fails on an engine that shows circular ids: after
    [format] of one empty object, a second empty object is rendered with
    id 2; an engine built anew renders it with id 1. *)
Lemma later_call_counterexample :
  reachableStore twoObjectsHeap (rootFormatter showIds)
    (afterFirstCall showIds) /\
  rendered (format twoObjectsHeap 2 (rootFormatter showIds) (VObject 1)
              (afterFirstCall showIds))
  = Some ("Object#2 {" +:+ nl +:+ "}") /\
  rendered (format twoObjectsHeap 2 (rootFormatter showIds) (VObject 1)
              freshStore)
  = Some ("Object#1 {" +:+ nl +:+ "}").
Proof.
  split; [apply afterFirstCall_reachable; now right|].
  split; vm_compute; reflexivity.
Qed.

(** ** The id generator and shared values *)

Lemma generateId_fresh (a : addr) (g : CircularIdGenerator.t) :
  CircularIdGenerator._generatedIds g !! a = None ->
  CircularIdGenerator.generateId a g =
  (CircularIdGenerator._currentId g,
   {| CircularIdGenerator._currentId :=
        (CircularIdGenerator._currentId g + 1)%Z;
      CircularIdGenerator._generatedIds :=
        <[a := CircularIdGenerator._currentId g]>
          (CircularIdGenerator._generatedIds g) |}).
Proof. intros H. unfold CircularIdGenerator.generateId. now rewrite H. Qed.





(** A composite that is not being expanded and is not cut by the depth
    guard is rendered as its type name followed by its id, the id being
    the one the generator holds for it afterwards: not as a marker. *)
Lemma format_expanded (h : heap) (fuel : nat) (self : Formatter) (a : addr)
    (o : object) (c : category) (s : store) (t : string) (s' : store) :
  h !! a = Some o ->
  categoryOf h (VObject a) = Some c ->
  composite c = true ->
  _seen s !! a = None ->
  _hitMaxDepth self = false ->
  format h fuel self (VObject a) s = Ret t s' ->
  exists name id content,
    getConstructorName o = inr name /\
    CircularIdGenerator._generatedIds (_circularIdGenerator s') !! a
      = Some id /\
    t = expandedText self name id (wrapperOf c) content.
Proof.
  intros Ho Hc Hcomp Hseen Hhit H.
  destruct fuel as [|fuel]; [discriminate|].
  change (formatValue h (format h fuel) self (VObject a) s = Ret t s') in H.
  rewrite (composite_formatValue h _ self a o c Ho Hc Hcomp),
    formatObjectEntries_unfold, Hseen, Hhit in H.
  destruct (getConstructorName o) as [e|name]; [discriminate|].
  set (items := fst (resolve h (generatorOf h c o))) in *.
  destruct (visitAll _ _ _) as [texts s2| |] eqn:Hvisits;
    try discriminate.
  destruct (snd (resolve h (generatorOf h c o))) as [failure|] eqn:Hfail;
    [discriminate|].
  injection H as <- <-. exists name, (fst (enter a s)). eexists.
  split_and!; try reflexivity. cbn [leave _circularIdGenerator].
  apply visitAll_Ret in Hvisits.
  assert (Hs2 : framed (snd (enter a s)) s2).
  { eapply visited_framed; [|exact Hvisits].
    intros f w s1 t' s3 _ Hfw. eapply format_framed, Hfw. }
  eapply lookup_weaken; [|apply Hs2].
  destruct (enter_generator a s) as [-> ->]. apply generateId_lookup.
Qed.

(** Two renderings of a composite in one invocation, the second after the
    first, whatever the engines and the ancestors: both are expansions
    with the same id. *)
Lemma format_twice (h : heap) (fuel1 fuel2 : nat) (self1 self2 : Formatter)
    (a : addr) (o : object) (c : category)
    (s1 : store) (t1 : string) (s1' s2 : store) (t2 : string) (s2' : store) :
  h !! a = Some o ->
  categoryOf h (VObject a) = Some c ->
  composite c = true ->
  _seen s1 !! a = None ->
  _seen s2 !! a = None ->
  _hitMaxDepth self1 = false ->
  _hitMaxDepth self2 = false ->
  format h fuel1 self1 (VObject a) s1 = Ret t1 s1' ->
  generatorIncluded (_circularIdGenerator s1') (_circularIdGenerator s2) ->
  format h fuel2 self2 (VObject a) s2 = Ret t2 s2' ->
  exists name id content1 content2,
    t1 = expandedText self1 name id (wrapperOf c) content1 /\
    t2 = expandedText self2 name id (wrapperOf c) content2.
Proof.
  intros Ho Hc Hcomp Hseen1 Hseen2 Hhit1 Hhit2 H1 Hincl H2.
  destruct (format_expanded h fuel1 self1 a o c s1 t1 s1'
              Ho Hc Hcomp Hseen1 Hhit1 H1)
    as (name & id & content1 & Hname & Hid & ->).
  destruct (format_expanded h fuel2 self2 a o c s2 t2 s2'
              Ho Hc Hcomp Hseen2 Hhit2 H2)
    as (name' & id' & content2 & Hname' & Hid' & ->).
  assert (name' = name) as -> by congruence.
  assert (id' = id) as ->.
  { apply format_framed in H2 as (_ & Hgrow & _).
    pose proof (lookup_weaken _ _ _ _ Hid Hincl) as Hid2.
    pose proof (lookup_weaken _ _ _ _ Hid2 Hgrow). congruence. }
  now exists name, id, content1, content2.
Qed.



Lemma visited_split (rec : Formatter -> value -> M string)
    (visits1 visits2 : list (Formatter * value)) (s : store)
    (texts : list string) (s' : store) :
  visited rec (visits1 ++ visits2) s texts s' ->
  exists texts1 texts2 s1,
    visited rec visits1 s texts1 s1 /\ visited rec visits2 s1 texts2 s'.
Proof.
  revert s texts. induction visits1 as [|[f v] visits1 IH]; intros s texts H.
  - exists [], texts, s. split; [constructor|exact H].
  - cbn [app] in H.
    inversion H as [|f' v' rest s0 t sa ts s2 Hfv Hrest]; subst.
    destruct (IH sa ts Hrest) as (ts1 & ts2 & s1 & H1 & H2).
    exists (t :: ts1), ts2, s1. split; [econstructor; eassumption|exact H2].
Qed.

(** Every visit of an expanded composite is a call of its invocation. *)
Lemma within_child (h : heap) (fuel : nat) (self : Formatter) (a : addr)
    (o : object) (c : category) (s : store) (t : string) (s' : store)
    (f : Formatter) (w : value) :
  h !! a = Some o ->
  categoryOf h (VObject a) = Some c ->
  composite c = true ->
  _seen s !! a = None ->
  _hitMaxDepth self = false ->
  returned h (Call (S fuel) self (VObject a) s t s') ->
  (f, w) ∈ visitsOf self (itemsOf h c o) ->
  exists s1 t1 s2,
    within h (Call (S fuel) self (VObject a) s t s') (Call fuel f w s1 t1 s2).
Proof.
  intros Ho Hc Hcomp Hseen Hhit Hroot Hin.
  pose proof Hroot as H. unfold returned in H.
  cbn [cfuel cself cvalue cbefore ctext cafter] in H.
  change (formatValue h (format h fuel) self (VObject a) s = Ret t s') in H.
  rewrite (composite_formatValue h _ self a o c Ho Hc Hcomp),
    formatObjectEntries_unfold, Hseen, Hhit in H.
  destruct (getConstructorName o) as [e|name]; [discriminate|].
  destruct (visitAll _ _ _) as [all sF| |] eqn:Hvisits; try discriminate.
  clear H. apply visitAll_Ret in Hvisits.
  apply list_elem_of_split in Hin as (before & after & Hsplit).
  fold (itemsOf h c o) in Hvisits. rewrite Hsplit in Hvisits.
  apply visited_split in Hvisits as (ts1 & ts2 & s1 & H1 & H2).
  inversion H2 as [|f' w' rest s0 tw sw ts3 s3 Hfw Hrest]; subst.
  exists s1, tw, sw.
  eapply within_nested; try eassumption.
  apply within_here. exact Hfw.
Qed.





(** Both occurrences of [v] in [{ a: v, b: v }] are calls of the
    invocation, and both return [Object#2 {...}]. *)
Lemma shared_occurrences_within :
  within sharedHeap sharedCall sharedFirstCall /\
  within sharedHeap sharedCall sharedSecondCall.
Proof.
  assert (Hvisits :
            visitsOf (rootFormatter showIds)
              (itemsOf sharedHeap RecordCategory
                 (objectLiteral [("a", VObject 1); ("b", VObject 1)]))
            = [(_getChildFormatter (rootFormatter showIds) false, VString "a");
               (sharedValueEngine, VObject 1);
               (_getChildFormatter (rootFormatter showIds) false, VString "b");
               (sharedValueEngine, VObject 1)])
    by reflexivity.
  split.
  - unfold sharedCall, sharedFirstCall.
    eapply (within_nested sharedHeap 2 (rootFormatter showIds) 0 _
              RecordCategory freshStore _ _
              [(_getChildFormatter (rootFormatter showIds) false,
                VString "a")]).
    + reflexivity.
    + reflexivity.
    + reflexivity.
    + reflexivity.
    + reflexivity.
    + exact Hvisits.
    + apply visitAll_Ret. vm_compute. reflexivity.
    + unfold returned. vm_compute. reflexivity.
    + apply within_here. unfold returned. vm_compute. reflexivity.
  - unfold sharedCall, sharedSecondCall.
    eapply (within_nested sharedHeap 2 (rootFormatter showIds) 0 _
              RecordCategory freshStore _ _
              [(_getChildFormatter (rootFormatter showIds) false,
                VString "a");
               (sharedValueEngine, VObject 1);
               (_getChildFormatter (rootFormatter showIds) false,
                VString "b")]).
    + reflexivity.
    + reflexivity.
    + reflexivity.
    + reflexivity.
    + reflexivity.
    + exact Hvisits.
    + apply visitAll_Ret. vm_compute. reflexivity.
    + unfold returned. vm_compute. reflexivity.
    + apply within_here. unfold returned. vm_compute. reflexivity.
Qed.


(** ** Markers in texts *)

Lemma startsWith_separator (q a b : string) (c : ascii) :
  occursIn c q = false ->
  startsWith (a +:+ String c b) q = startsWith a q.
Proof.
  revert a. induction q as [|x q IH]; intros a Hc; [reflexivity|].
  cbn [occursIn] in Hc. apply orb_false_elim in Hc as [Hx Hq].
  destruct a as [|y a]; simpl.
  - rewrite Ascii.eqb_sym, Hx. reflexivity.
  - now rewrite IH.
Qed.

Lemma occurrences_separator (a b : string) (c : ascii) :
  occursIn c markerStart = false ->
  occurrences markerStart (a +:+ String c b) =
  occurrences markerStart a + occurrences markerStart b.
Proof.
  intros Hc. induction a as [|y a IH].
  - change (EmptyString +:+ String c b) with (String c b).
    cbn [occurrences]. unfold markerStart at 1. cbn [startsWith].
    destruct (Ascii.eqb "[" c) eqn:E; [|reflexivity].
    apply Ascii.eqb_eq in E as <-. discriminate Hc.
  - change (String y a +:+ String c b) with (String y (a +:+ String c b)).
    cbn [occurrences]. rewrite IH.
    change (String y (a +:+ String c b)) with (String y a +:+ String c b).
    rewrite (startsWith_separator _ _ _ _ Hc). lia.
Qed.

Lemma occurrences_separator_first (b : string) (c : ascii) :
  occursIn c markerStart = false ->
  occurrences markerStart (String c b) = occurrences markerStart b.
Proof. intros Hc. apply (occurrences_separator EmptyString b c Hc). Qed.

Lemma occurrences_spaces (n : nat) (t : string) :
  occurrences markerStart (spaces n +:+ t) = occurrences markerStart t.
Proof.
  induction n as [|n IH]; [reflexivity|].
  change (spaces (S n) +:+ t) with (String SP (spaces n +:+ t)).
  now rewrite occurrences_separator_first.
Qed.

Lemma occurrences_uint (d : Decimal.uint) :
  occurrences markerStart (NilEmpty.string_of_uint d) = 0.
Proof.
  induction d; cbn [NilEmpty.string_of_uint]; [reflexivity|..];
    now rewrite occurrences_separator_first.
Qed.

Lemma occurrences_ofZ (z : Z) : occurrences markerStart (ofZ z) = 0.
Proof.
  unfold ofZ, NilZero.string_of_int.
  assert (Hu : forall d, occurrences markerStart (NilZero.string_of_uint d) = 0).
  { intros d. unfold NilZero.string_of_uint.
    destruct d; try apply occurrences_uint. reflexivity. }
  destruct (Z.to_int z); [apply Hu|].
  now rewrite occurrences_separator_first.
Qed.

Lemma occurrences_numeric (t : string) :
  numeric t = true -> occurrences markerStart t = 0.
Proof.
  induction t as [|c t IH]; [reflexivity|]. cbn [numeric].
  intros [Hc Ht]%andb_prop.
  rewrite occurrences_separator_first; [now apply IH|].
  unfold numericChars in Hc. cbn [occursIn] in Hc.
  repeat (apply orb_prop in Hc as [Hc|Hc];
          [apply Ascii.eqb_eq in Hc as ->; reflexivity|]).
  discriminate.
Qed.

Lemma occurrences_numberText (n : number) :
  occurrences markerStart (numberText n) = 0.
Proof.
  destruct n as [z ?|below text ? shape|]; cbn [numberText].
  - apply occurrences_ofZ.
  - now apply occurrences_numeric.
  - reflexivity.
Qed.

Lemma startsWith_escape (q s : string) :
  occursIn LF q = false -> occursIn TAB q = false -> occursIn "\" q = false ->
  startsWith (escape s) q = startsWith s q.
Proof.
  revert s. induction q as [|x q IH]; intros s H1 H2 H3; [reflexivity|].
  cbn [occursIn] in *.
  apply orb_false_elim in H1 as [H1 H1'].
  apply orb_false_elim in H2 as [H2 H2'].
  apply orb_false_elim in H3 as [H3 H3'].
  destruct s as [|c s]; [reflexivity|]. cbn [escape].
  destruct (Ascii.eqb c LF) eqn:E1.
  { apply Ascii.eqb_eq in E1 as ->. cbn [startsWith].
    rewrite (Ascii.eqb_sym x "\"), H3, (Ascii.eqb_sym x LF), H1. reflexivity. }
  destruct (Ascii.eqb c TAB) eqn:E2.
  { apply Ascii.eqb_eq in E2 as ->. cbn [startsWith].
    rewrite (Ascii.eqb_sym x "\"), H3, (Ascii.eqb_sym x TAB), H2. reflexivity. }
  cbn [startsWith]. now rewrite IH.
Qed.

Lemma occurrences_escape (s : string) :
  occurrences markerStart (escape s) = occurrences markerStart s.
Proof.
  induction s as [|c s IH]; [reflexivity|].
  pose proof (startsWith_escape markerStart (String c s)
                eq_refl eq_refl eq_refl) as Hstart.
  cbn [escape] in *.
  destruct (Ascii.eqb c LF) eqn:E1.
  { apply Ascii.eqb_eq in E1 as ->.
    rewrite !occurrences_separator_first by reflexivity.
    now rewrite IH. }
  destruct (Ascii.eqb c TAB) eqn:E2.
  { apply Ascii.eqb_eq in E2 as ->.
    rewrite !occurrences_separator_first by reflexivity.
    now rewrite IH. }
  cbn [occurrences]. now rewrite Hstart, IH.
Qed.

Lemma split_nonempty (s : string) : split s <> [].
Proof.
  destruct s as [|c s]; [discriminate|]. cbn [split].
  destruct (Ascii.eqb c LF); [discriminate|]. now destruct (split s).
Qed.

Lemma join_cons (sep l : string) (ls : list string) :
  ls <> [] -> join sep (l :: ls) = l +:+ sep +:+ join sep ls.
Proof. now destruct ls. Qed.

Lemma join_split (s : string) : join nl (split s) = s.
Proof.
  induction s as [|c s IH]; [reflexivity|]. cbn [split].
  pose proof (split_nonempty s) as Hne.
  destruct (Ascii.eqb c LF) eqn:E.
  - apply Ascii.eqb_eq in E as ->.
    rewrite (join_cons _ _ _ Hne), IH. reflexivity.
  - destruct (split s) as [|l ls]; [contradiction|].
    destruct ls as [|l' ls].
    + cbn [join] in *. now rewrite IH.
    + rewrite join_cons in * by discriminate.
      change (String c l +:+ nl +:+ join nl (l' :: ls))
        with (String c (l +:+ nl +:+ join nl (l' :: ls))).
      now rewrite IH.
Qed.

Lemma occurrences_join (ls : list string) :
  occurrences markerStart (join nl ls) = totalOccurrences markerStart ls.
Proof.
  induction ls as [|l ls IH]; [reflexivity|].
  destruct ls as [|l' ls]; [cbn; lia|].
  rewrite join_cons by discriminate.
  change (nl +:+ join nl (l' :: ls)) with (String LF (join nl (l' :: ls))).
  rewrite occurrences_separator by reflexivity. rewrite IH. reflexivity.
Qed.

Lemma occurrences_split (s : string) :
  totalOccurrences markerStart (split s) = occurrences markerStart s.
Proof. now rewrite <- occurrences_join, join_split. Qed.

Lemma totalOccurrences_app (ts us : list string) :
  totalOccurrences markerStart (ts ++ us) =
  totalOccurrences markerStart ts + totalOccurrences markerStart us.
Proof. induction ts as [|t ts IH]; cbn; [reflexivity|]. rewrite IH. lia. Qed.

Lemma totalOccurrences_map (f : string -> string) (ts : list string) :
  (forall t, occurrences markerStart (f t) = occurrences markerStart t) ->
  totalOccurrences markerStart (map f ts) = totalOccurrences markerStart ts.
Proof. intros Hf. induction ts as [|t ts IH]; cbn; [reflexivity|]. now rewrite Hf, IH. Qed.

Lemma spaces_dropSpaces (l : string) :
  spaces (leadingSpaces l) +:+ dropSpaces l = l.
Proof.
  induction l as [|c l IH]; [reflexivity|]. cbn [leadingSpaces dropSpaces].
  destruct (Ascii.eqb c SP) eqn:E; [|reflexivity].
  apply Ascii.eqb_eq in E as ->.
  change (spaces (S (leadingSpaces l)) +:+ dropSpaces l)
    with (String SP (spaces (leadingSpaces l) +:+ dropSpaces l)).
  now rewrite IH.
Qed.

Lemma occurrences_dropSpaces (l : string) :
  occurrences markerStart (dropSpaces l) = occurrences markerStart l.
Proof.
  rewrite <- (spaces_dropSpaces l) at 2. now rewrite occurrences_spaces.
Qed.

Lemma occurrences_formatWithIndent (self : Formatter) (t : string) :
  occurrences markerStart (_formatWithIndent self t) =
  occurrences markerStart t.
Proof. apply occurrences_spaces. Qed.

Lemma occurrences_formatFirstLine (self : Formatter) (t : string) :
  occurrences markerStart (_formatFirstLine self t) =
  occurrences markerStart t.
Proof.
  unfold _formatFirstLine.
  destruct (_ || _); [reflexivity | apply occurrences_formatWithIndent].
Qed.

(** A text between two characters that no marker contains. *)
Lemma occurrences_quoted (c1 c2 : ascii) (t : string) :
  occursIn c1 markerStart = false ->
  occursIn c2 markerStart = false ->
  occurrences markerStart
    (wrap (String c1 EmptyString) (String c2 EmptyString) t) =
  occurrences markerStart t.
Proof.
  intros H1 H2. unfold wrap.
  change (String c1 EmptyString +:+ t +:+ String c2 EmptyString)
    with (String c1 (t +:+ String c2 EmptyString)).
  rewrite occurrences_separator_first, occurrences_separator by assumption.
  cbn. lia.
Qed.

Lemma occurrences_formatString (self : Formatter) (str : string) :
  occurrences markerStart (formatString self str) =
  occurrences markerStart str.
Proof.
  unfold formatString. destruct (escapeString (options self)).
  { rewrite occurrences_formatFirstLine.
    rewrite (occurrences_quoted DQ DQ) by reflexivity.
    apply occurrences_escape. }
  destruct (Nat.eqb (length (split str)) 1).
  { rewrite occurrences_formatFirstLine.
    now rewrite (occurrences_quoted DQ DQ) by reflexivity. }
  rewrite occurrences_formatFirstLine.
  rewrite (occurrences_quoted "`" "`") by reflexivity.
  rewrite occurrences_join, <- occurrences_split.
  destruct (split str) as [|first others]; [reflexivity|].
  cbn [totalOccurrences]. f_equal.
  apply totalOccurrences_map. intros t. apply occurrences_formatWithIndent.
Qed.

Lemma occurrences_reindentLine (self : Formatter) (extra : nat)
    (line : string) :
  occurrences markerStart (reindentLine self extra line) =
  occurrences markerStart line.
Proof.
  unfold reindentLine, formatWithIndentBy.
  destruct (Nat.leb extra (leadingSpaces line)); [|reflexivity].
  rewrite append_nil_r, occurrences_spaces. apply occurrences_dropSpaces.
Qed.

Lemma occurrences_formatFunction (self : Formatter) (src : string) :
  occurrences markerStart (formatFunction self src) =
  occurrences markerStart src.
Proof.
  unfold formatFunction.
  pose proof (occurrences_split src) as Hsplit.
  destruct (split src) as [|first others]; [reflexivity|].
  destruct others as [|second others]; [reflexivity|].
  set (rest := second :: others) in *.
  rewrite occurrences_join, <- Hsplit.
  cbn [totalOccurrences]. rewrite occurrences_formatFirstLine. f_equal.
  assert (Hrest : totalOccurrences markerStart rest =
                  totalOccurrences markerStart (removelast rest) +
                  totalOccurrences markerStart [List.last rest EmptyString]).
  { rewrite <- totalOccurrences_app.
    now rewrite <- (app_removelast_last EmptyString (l := rest)). }
  rewrite Hrest, totalOccurrences_app. f_equal.
  - destruct (Nat.ltb 2 _); [|reflexivity].
    apply totalOccurrences_map. intros t. apply occurrences_reindentLine.
  - cbn [totalOccurrences]. f_equal.
    destruct (Nat.ltb 0 _); [|reflexivity].
    unfold _formatWithIndent, formatWithIndentBy.
    rewrite append_nil_r, occurrences_spaces. apply occurrences_dropSpaces.
Qed.

Lemma cleanText_spec (t : string) :
  cleanText t = true <-> occurrences markerStart t = 0.
Proof. unfold cleanText. apply Nat.eqb_eq. Qed.

Lemma occurrences_tail (content : string) (n : nat) (c : ascii) :
  occursIn c markerStart = false ->
  occurrences markerStart (content +:+ spaces n +:+ String c EmptyString) =
  occurrences markerStart content.
Proof.
  intros Hc. destruct n as [|n].
  - change (spaces 0 +:+ String c EmptyString) with (String c EmptyString).
    rewrite occurrences_separator by assumption. cbn. lia.
  - change (spaces (S n) +:+ String c EmptyString)
      with (String SP (spaces n +:+ String c EmptyString)).
    rewrite occurrences_separator by reflexivity.
    rewrite occurrences_spaces, occurrences_separator_first by assumption.
    cbn. lia.
Qed.

Lemma occurrences_circularText (self : Formatter) (id : option CircularId) :
  occurrences markerStart (circularText self id) = 1.
Proof.
  unfold circularText. rewrite occurrences_formatFirstLine. unfold wrap.
  destruct (circularId (options self)); [|reflexivity].
  change ("[" +:+ ("Circular" +:+ "#" +:+ match id with
                                          | Some i => ofZ i
                                          | None => "unknown"
                                          end) +:+ "]")
    with (String "[" ("Circular" +:+ String "#"
            (match id with Some i => ofZ i | None => "unknown" end +:+
             String "]" EmptyString))).
  cbn [occurrences]. unfold markerStart at 1. cbn [startsWith String.append].
  cbn [Ascii.eqb Bool.eqb andb].
  change (String "C" (String "i" (String "r" (String "c" (String "u"
            (String "l" (String "a" (String "r" (String "#" ?x)))))))))
    with ("Circular" +:+ String "#" x).
  rewrite occurrences_separator by reflexivity.
  rewrite occurrences_separator by reflexivity.
  destruct id; [rewrite occurrences_ofZ|]; reflexivity.
Qed.

Lemma occurrences_bracket (rest : string) :
  occurrences markerStart (String "[" rest) =
  (if startsWith rest "Circular" then 1 else 0) +
  occurrences markerStart rest.
Proof. reflexivity. Qed.

Lemma cleanName_spec (name : string) :
  cleanName name = true ->
  occurrences markerStart name = 0 /\ startsWith name "Circular" = false.
Proof.
  unfold cleanName. intros [H1 H2]%andb_true_iff.
  split; [now apply cleanText_spec | now apply negb_true_iff].
Qed.

Lemma occurrences_cappedText (self : Formatter) (name : string) :
  cleanName name = true ->
  occurrences markerStart (cappedText self name) = 0.
Proof.
  intros [Hocc Hstart]%cleanName_spec.
  unfold cappedText. rewrite occurrences_formatWithIndent. unfold wrap.
  change ("[" +:+ name +:+ "]") with (String "[" (name +:+ String "]" "")).
  rewrite occurrences_bracket.
  rewrite (startsWith_separator "Circular") by reflexivity.
  rewrite Hstart, occurrences_separator by reflexivity.
  rewrite Hocc. reflexivity.
Qed.

Lemma occurrences_block (self : Formatter) (c : category) (content : string) :
  occurrences markerStart
    (wrap (fst (wrapperOf c))
          (if indentRoot (options self)
           then _formatWithIndent self (snd (wrapperOf c))
           else snd (wrapperOf c))
          (nl +:+ content)) =
  occurrences markerStart content.
Proof.
  unfold wrap.
  assert (Hclose : forall closer,
    occursIn closer markerStart = false ->
    occurrences markerStart
      (content +:+
       (if indentRoot (options self)
        then _formatWithIndent self (String closer EmptyString)
        else String closer EmptyString)) =
    occurrences markerStart content).
  { intros closer Hcloser. destruct (indentRoot (options self)).
    - apply occurrences_tail, Hcloser.
    - apply (occurrences_tail content 0 closer Hcloser). }
  destruct c; cbn [wrapperOf fst snd];
    try (change ("{" +:+ (nl +:+ content) +:+ ?x)
           with (String "{" (String LF (content +:+ x)));
         rewrite !occurrences_separator_first by reflexivity;
         now apply Hclose).
  change ("[" +:+ (nl +:+ content) +:+ ?x)
    with (String "[" (String LF (content +:+ x))).
  rewrite occurrences_bracket.
  change (startsWith (String LF ?x) "Circular") with false.
  rewrite occurrences_separator_first by reflexivity.
  now apply Hclose.
Qed.

Lemma occurrences_expandedText (self : Formatter) (name : string)
    (id : CircularId) (c : category) (content : string) :
  cleanName name = true ->
  occurrences markerStart (expandedText self name id (wrapperOf c) content) =
  occurrences markerStart content.
Proof.
  intros [Hocc _]%cleanName_spec.
  unfold expandedText. rewrite occurrences_formatFirstLine.
  destruct (circularId (options self)).
  - change (name +:+ ("#" +:+ ofZ id) +:+ " " +:+ ?x)
      with (name +:+ String "#" (ofZ id +:+ String " " x)).
    rewrite !occurrences_separator by reflexivity.
    rewrite Hocc, occurrences_ofZ. apply occurrences_block.
  - change (name +:+ "" +:+ " " +:+ ?x) with (name +:+ String " " x).
    rewrite occurrences_separator by reflexivity.
    rewrite Hocc. apply occurrences_block.
Qed.

(** The text of a value that is no composite contains no marker start,
    when the texts it is made of contain none. *)
Lemma cleanObject_parts (h : heap) (o : object) :
  cleanObject h o = true ->
  match getConstructorName o with
  | inr name => cleanName name
  | inl _ => true
  end = true /\
  match ostring o with
  | inr text => negb (instanceOf o RegExpClass) || cleanText text
  | inl _ => true
  end = true /\
  match oslots o with
  | DateValue (Some iso) => cleanText iso
  | _ => true
  end = true /\
  forallb hasKnownSeparator (contentOf h o) = true /\
  forallb cleanValue (flat_map itemValues (contentOf h o)) = true.
Proof.
  unfold cleanObject. rewrite !andb_true_iff. tauto.
Qed.

Lemma hasKnownSeparator_spec (it : item) :
  hasKnownSeparator it = true -> knownSeparator it.
Proof.
  destruct it as [v|e]; [done|]. cbn.
  intros [H|H]%orb_true_iff; apply String.eqb_eq in H; auto.
Qed.

Lemma leafText_clean (h : heap) (self : Formatter) (v : value) (t : string) :
  cleanHeap h ->
  cleanValue v = true ->
  leafText h self v = Some (inr t) ->
  occurrences markerStart t = 0.
Proof.
  intros Hheap Hv.
  destruct v as [| |b|n|n|str|d|src|a]; cbn [leafText cleanValue] in *.
  - intros [= <-]. unfold formatUndefined.
    now rewrite occurrences_formatFirstLine.
  - intros [= <-]. unfold formatNull.
    now rewrite occurrences_formatFirstLine.
  - intros [= <-]. unfold formatBoolean.
    rewrite occurrences_formatFirstLine. now destruct b.
  - intros [= <-]. unfold formatNumber.
    rewrite occurrences_formatFirstLine. apply occurrences_numberText.
  - intros [= <-]. unfold formatBigInt. rewrite occurrences_formatFirstLine.
    change (ofZ n +:+ "n") with (ofZ n +:+ String "n" "").
    rewrite occurrences_separator by reflexivity.
    now rewrite occurrences_ofZ.
  - intros [= <-]. rewrite occurrences_formatString.
    now apply cleanText_spec.
  - intros [= <-]. unfold formatSymbol. rewrite occurrences_formatFirstLine.
    change ("Symbol(" +:+ d +:+ ")")
      with ("Symbol" +:+ String "(" (d +:+ String ")" "")).
    rewrite !occurrences_separator by reflexivity.
    apply cleanText_spec in Hv. now rewrite Hv.
  - intros [= <-]. rewrite occurrences_formatFunction.
    now apply cleanText_spec.
  - destruct (h !! a) as [o|] eqn:Ho; [|discriminate].
    destruct (cleanObject_parts h o (Hheap a o Ho))
      as (Hname & Hstring & Hslots & _).
    destruct (instanceOf o RegExpClass).
    { destruct (ostring o) as [e|text]; [discriminate|].
      intros [= <-]. rewrite occurrences_formatFirstLine.
      now apply cleanText_spec. }
    destruct (instanceOf o DateClass); [|discriminate].
    destruct (getConstructorName o) as [e|name]; [discriminate|].
    unfold toISOString. destruct (oslots o) as [|[iso|]];
      try discriminate.
    intros [= <-]. rewrite occurrences_formatFirstLine.
    change (name +:+ " { " +:+ iso +:+ " }")
      with (name +:+ String " " (String "{" (String " "
              (iso +:+ String " " (String "}" ""))))).
    rewrite occurrences_separator by reflexivity.
    rewrite !occurrences_separator_first by reflexivity.
    rewrite occurrences_separator by reflexivity.
    apply cleanName_spec in Hname as [-> _].
    apply cleanText_spec in Hslots. rewrite Hslots. reflexivity.
Qed.

Lemma assemble_content (items : list item) (texts : list string)
    (content : string) :
  assemble items texts content =
  content +:+ assemble items texts EmptyString.
Proof.
  revert texts content.
  induction items as [|[v|e] items IH]; intros texts content.
  - destruct texts; cbn; now rewrite append_nil_r.
  - destruct texts as [|t ts]; cbn [assemble]; [now rewrite append_nil_r|].
    rewrite IH, (IH ts (EmptyString +:+ _)).
    cbn [String.append]. now rewrite !append_assoc.
  - destruct texts as [|k [|t ts]]; cbn [assemble];
      try now rewrite append_nil_r.
    rewrite IH, (IH ts (EmptyString +:+ _)).
    cbn [String.append]. now rewrite !append_assoc.
Qed.



(** The markers of the content are those of the texts of the visits. *)
Lemma occurrences_assemble (rec : Formatter -> value -> M string)
    (self : Formatter) (items : list item) (s : store) (texts : list string)
    (s' : store) :
  Forall knownSeparator items ->
  visited rec (visitsOf self items) s texts s' ->
  occurrences markerStart (assemble items texts EmptyString) =
  totalOccurrences markerStart texts.
Proof.
  intros Hseps. revert s texts.
  induction Hseps as [|[v|e] items Hsep _ IH]; intros s texts Hv.
  - inversion Hv. reflexivity.
  - cbn [visitsOf flat_map app] in Hv. fold (visitsOf self items) in Hv.
    inversion Hv as [|f w rest s0 t s1 ts s2 Hfw Hrest]; subst.
    cbn [assemble totalOccurrences]. rewrite assemble_content.
    change (EmptyString +:+ ?x) with x. rewrite !append_assoc.
    change ("," +:+ nl +:+ ?x) with (String "," (String LF x)).
    rewrite occurrences_separator by reflexivity.
    rewrite occurrences_separator_first by reflexivity.
    now rewrite (IH s1 ts).
  - cbn [visitsOf flat_map app] in Hv. fold (visitsOf self items) in Hv.
    inversion Hv as [|f w rest s0 k s1 ts0 s2 Hfw Hrest]; subst.
    inversion Hrest as [|f' w' rest' s0' t s3 ts s4 Hfw' Hrest']; subst.
    cbn [assemble totalOccurrences]. rewrite assemble_content.
    change (EmptyString +:+ ?x) with x. unfold wrap. rewrite !append_assoc.
    rewrite (IH s3 ts Hrest') || rewrite <- (IH s3 ts Hrest').
    destruct Hsep as [-> | ->].
    + change (k +:+ ": " +:+ t +:+ "," +:+ nl +:+ ?x)
        with (k +:+ String ":" (String " " (t +:+ String "," (String LF x)))).
      rewrite occurrences_separator by reflexivity.
      rewrite occurrences_separator_first by reflexivity.
      rewrite occurrences_separator by reflexivity.
      rewrite occurrences_separator_first by reflexivity. lia.
    + change (k +:+ " => " +:+ t +:+ "," +:+ nl +:+ ?x)
        with (k +:+ String " " (String "=" (String ">" (String " "
                (t +:+ String "," (String LF x)))))).
      rewrite occurrences_separator by reflexivity.
      rewrite !occurrences_separator_first by reflexivity.
      rewrite occurrences_separator by reflexivity.
      rewrite occurrences_separator_first by reflexivity. lia.
Qed.

Lemma visited_marker_count (rec : Formatter -> value -> M string)
    (visits : list (Formatter * value)) (s : store) (texts : list string)
    (s' : store) :
  (forall f v s1 t s2, (f, v) ∈ visits -> rec f v s1 = Ret t s2 ->
     occurrences markerStart t + circularRefs s1 = circularRefs s2) ->
  visited rec visits s texts s' ->
  totalOccurrences markerStart texts + circularRefs s = circularRefs s'.
Proof.
  intros Hrec Hv.
  induction Hv as [|f v rest s t s1 ts s' Hfv _ IH]; [reflexivity|].
  cbn [totalOccurrences].
  rewrite <- IH
    by (intros f' v' sa t' sb Hin; apply Hrec; now apply list_elem_of_further).
  rewrite <- (Hrec f v s t s1 (list_elem_of_here _ _) Hfv). lia.
Qed.

(** In a value whose texts are clean, the returned text contains the
    start of a marker exactly as often as a circular reference has been
    rendered for it. *)
Lemma format_marker_count (h : heap) (fuel : nat) (self : Formatter)
    (v : value) (s : store) (t : string) (s' : store) :
  cleanHeap h ->
  cleanValue v = true ->
  format h fuel self v s = Ret t s' ->
  occurrences markerStart t + circularRefs s = circularRefs s'.
Proof.
  intros Hheap. revert self v s t s'.
  induction fuel as [|fuel IH]; intros self v s t s' Hv H; [discriminate|].
  change (formatValue h (format h fuel) self v s = Ret t s') in H.
  destruct (formatValue_cases h self v)
    as [(r & Hleaf & Hr) | (a & o & c & -> & Ho & Hc & Hcomp & Hf)].
  { rewrite Hr in H. apply lift_Ret in H as [-> ->].
    now rewrite (leafText_clean h self v t Hheap Hv Hleaf). }
  rewrite Hf, formatObjectEntries_unfold in H.
  destruct (_seen s !! a).
  { injection H as <- <-. now rewrite occurrences_circularText. }
  destruct (cleanObject_parts h o (Hheap a o Ho))
    as (Hname & _ & _ & Hseps & Hitems).
  unfold contentOf in Hseps, Hitems.
  rewrite (find_objectBelongs h a o Ho), Hc, Hcomp in Hseps, Hitems.
  unfold itemsOf in Hseps, Hitems.
  destruct (getConstructorName o) as [e|name]; [discriminate|].
  destruct (_hitMaxDepth self).
  { injection H as <- <-. now rewrite occurrences_cappedText. }
  remember (fst (resolve h (generatorOf h c o))) as items eqn:Hg.
  destruct (visitAll _ _ _) as [texts s2| |] eqn:Hvisits; try discriminate.
  destruct (snd (resolve h (generatorOf h c o))) as [failure|] eqn:Hfail;
    [discriminate|].
  injection H as <- <-. apply visitAll_Ret in Hvisits.
  rewrite occurrences_expandedText by exact Hname.
  assert (Hknown : Forall knownSeparator items).
  { apply Forall_forall. intros it Hit. apply hasKnownSeparator_spec.
    rewrite forallb_forall in Hseps. apply Hseps. now apply list_elem_of_In. }
  rewrite (occurrences_assemble _ _ _ _ _ _ Hknown Hvisits).
  cbn [leave circularRefs]. rewrite <- (enter_circularRefs a s).
  apply (visited_marker_count (format h fuel) (visitsOf self items));
    [|exact Hvisits].
  intros f w s1 t' s3 Hin Hfw. apply (IH f w s1 t' s3); [|exact Hfw].
  rewrite forallb_forall in Hitems. apply Hitems.
  rewrite <- (visitsOf_values self), <- list_elem_of_In.
  apply (list_elem_of_fmap_2 snd _ _ Hin).
Qed.

(** ** Values rendered without raising *)

Lemma visitAll_returns (rec : Formatter -> value -> M string)
    (visits : list (Formatter * value)) (s : store) :
  (forall f v s1, (f, v) ∈ visits -> exists t s2, rec f v s1 = Ret t s2) ->
  exists texts s', visitAll rec visits s = Ret texts s'.
Proof.
  revert s. induction visits as [|[f v] visits IH]; intros s Hrec.
  - now exists [], s.
  - destruct (Hrec f v s (list_elem_of_here _ _)) as (t & s1 & Hfv).
    destruct (IH s1) as (ts & s2 & Hrest).
    { intros f' v' s' Hin. apply Hrec. now apply list_elem_of_further. }
    exists (t :: ts), s2. cbn [visitAll]. unfold bind. now rewrite Hfv, Hrest.
Qed.

Lemma throwFree_name (h : heap) (a : addr) (o : object) (c : category) :
  h !! a = Some o ->
  categoryOf h (VObject a) = Some c ->
  c <> RegExpCategory ->
  throwFree h o = true ->
  exists name, getConstructorName o = inr name.
Proof.
  intros Ho Hc Hne. unfold throwFree.
  rewrite (find_objectBelongs h a o Ho), Hc.
  assert (Hctor : hasConstructor o = true ->
                  exists name, getConstructorName o = inr name).
  { unfold hasConstructor, getConstructorName.
    destruct (oconstructor o) as [|[name|]]; [discriminate|eauto..]. }
  destruct c; try contradiction;
    intros [H _]%andb_true_iff; now apply Hctor.
Qed.

Lemma throwFree_generator (h : heap) (a : addr) (o : object) (c : category) :
  h !! a = Some o ->
  categoryOf h (VObject a) = Some c ->
  composite c = true ->
  throwFree h o = true ->
  snd (resolve h (generatorOf h c o)) = None.
Proof.
  intros Ho Hc Hcomp. unfold throwFree, failureOf.
  rewrite (find_objectBelongs h a o Ho), Hc.
  destruct c; try discriminate; intros [_ H]%andb_true_iff;
    now destruct (snd (resolve h _)).
Qed.

Lemma leafText_returns (h : heap) (self : Formatter) (v : value)
    (r : error + string) :
  wellFormedHeap h ->
  stored h v = true ->
  leafText h self v = Some r ->
  exists t, r = inr t.
Proof.
  intros Hheap Hv.
  destruct v as [| |b|n|n|str|d|src|a]; cbn [leafText];
    try (intros [= <-]; eauto).
  cbn [stored] in Hv. apply bool_decide_eq_true in Hv as [o Ho].
  rewrite Ho. destruct (Hheap a o Ho) as [Hfree _].
  unfold throwFree in Hfree. unfold priority in Hfree.
  cbn [List.find objectBelongs] in Hfree.
  destruct (instanceOf o RegExpClass).
  { intros [= <-]. destruct (ostring o); try discriminate. eauto. }
  destruct (instanceOf o DateClass); [|discriminate].
  apply andb_true_iff in Hfree as [Hctor Hslot].
  intros [= <-]. unfold getConstructorName, toISOString.
  unfold hasConstructor in Hctor.
  destruct (oconstructor o) as [|[name|]]; try discriminate;
    destruct (oslots o) as [|[iso|]]; try discriminate; eauto.
Qed.

(** A well-formed value is rendered: with the fuel the depth guard asks
    for, [format] returns a text. *)
Lemma format_returns (h : heap) (fuel : nat) (self : Formatter) (v : value)
    (s : store) :
  wellFormedHeap h ->
  stored h v = true ->
  enoughFuel self <= fuel ->
  exists t s', format h fuel self v s = Ret t s'.
Proof.
  intros Hheap. revert self v s.
  induction fuel as [|fuel IH]; intros self v s Hv Hfuel.
  { unfold enoughFuel in Hfuel. lia. }
  change (format h (S fuel) self v s)
    with (formatValue h (format h fuel) self v s).
  destruct (formatValue_cases h self v)
    as [(r & Hleaf & Hr) | (a & o & c & -> & Ho & Hc & Hcomp & Hf)].
  { rewrite Hr. destruct (leafText_returns h self v r Hheap Hv Hleaf) as [t ->].
    now exists t, s. }
  rewrite Hf, formatObjectEntries_unfold.
  destruct (_seen s !! a); [eauto|].
  destruct (Hheap a o Ho) as [Hfree Hchildren].
  destruct (throwFree_name h a o c Ho Hc) as [name ->];
    [now destruct c | exact Hfree |].
  destruct (_hitMaxDepth self) eqn:Hhit; [eauto|].
  rewrite (throwFree_generator h a o c Ho Hc Hcomp Hfree).
  remember (fst (resolve h (generatorOf h c o))) as items eqn:Hg.
  destruct (visitAll_returns (format h fuel) (visitsOf self items)
              (snd (enter a s))) as (texts & s2 & ->); [|eauto].
  intros f w s1 Hin.
  assert (Hw : stored h w = true).
  { rewrite forallb_forall in Hchildren. apply Hchildren.
    rewrite (children_generatorOf h a o c items Ho Hc Hcomp Hg),
      <- (visitsOf_values self), <- list_elem_of_In.
    apply (list_elem_of_fmap_2 snd _ _ Hin). }
  apply visitsOf_child in Hin as [skip ->].
  apply IH; [exact Hw|].
  pose proof (enoughFuel_child self skip Hhit). lia.
Qed.

(** ** Array-like objects *)




(** With [length] [NaN] no element is rendered. *)
Lemma nan_length_empty :
  rendered (format nanLengthHeap 2 (rootFormatter noOptions) (VObject 0)
              freshStore)
  = Some ("Object [" +:+ nl +:+ "]").
Proof. vm_compute. reflexivity. Qed.

(** A number that is no integer is rendered as [String] writes it. *)
Lemma fraction_rendered :
  formatNumber (rootFormatter noOptions) (Fraction 1 "1.5" eq_refl eq_refl)
  = "1.5" /\
  formatNumber (rootFormatter noOptions) NaN = "NaN".
Proof. split; reflexivity. Qed.

(** ** A value that contains itself *)

Lemma formatString_self (f : Formatter) :
  formatString f "self" = _formatFirstLine f (dq +:+ "self" +:+ dq).
Proof. unfold formatString. now destruct (escapeString (options f)). Qed.

(** The case [v.self = v]: an object whose one enumerable property,
    [self], is the object itself is rendered, by a new engine whose max
    depth exceeds 1, with two units of fuel (two nested engines,
    whatever the max depth): the text is the type name, the braces and
    one entry whose value is the marker, [[Circular]] or, with ids
    shown, [[Circular#1]]. *)
Lemma self_property (h : heap) (a : addr) (o : object) (name : string)
    (opts : FormatterOptions) (fuel : nat) :
  h !! a = Some o ->
  categoryOf h (VObject a) = Some RecordCategory ->
  objectKeys o = ["self"] ->
  getProperty o "self" = VObject a ->
  getConstructorName o = inr name ->
  (1 < depth (options (rootFormatter opts)))%Z ->
  exists s',
    format h (S (S fuel)) (rootFormatter opts) (VObject a) freshStore =
    Ret (expandedText (rootFormatter opts) name 1%Z ("{", "}")
           (selfEntryText (rootFormatter opts))) s' /\
    circularRefs s' = 1 /\
    _seen s' = ∅ /\
    (cleanName name = true ->
     occurrences markerStart
       (expandedText (rootFormatter opts) name 1%Z ("{", "}")
          (selfEntryText (rootFormatter opts))) = 1).
Proof.
  intros Ho Hc Hkeys Hself Hname Hdepth.
  set (self := rootFormatter opts) in *.
  change (format h (S (S fuel)) self (VObject a) freshStore)
    with (formatValue h (format h (S fuel)) self (VObject a) freshStore).
  rewrite (composite_formatValue h _ self a o RecordCategory Ho Hc eq_refl),
    formatObjectEntries_unfold.
  cbn [freshStore _seen]. rewrite lookup_empty, Hname.
  assert (Hhit : _hitMaxDepth self = false).
  { unfold _hitMaxDepth. apply Z.leb_gt. exact Hdepth. }
  rewrite Hhit. cbn [generatorOf]. unfold objectContent.
  rewrite Hkeys. cbn [map]. rewrite Hself.
  cbn [resolve classify templateText separator key evalue fst snd].
  assert (Henter : enter a freshStore =
    (1%Z, {| _seen := {[a := 1%Z]};
             _circularIdGenerator :=
               {| CircularIdGenerator._currentId := 2%Z;
                  CircularIdGenerator._generatedIds := {[a := 1%Z]} |};
             circularRefs := 0 |})).
  { unfold enter. cbn [freshStore _circularIdGenerator].
    rewrite generateId_fresh by apply lookup_empty. reflexivity. }
  rewrite Henter. cbn [fst snd visitsOf flat_map app rkey rvalue].
  match goal with
  | |- context [visitAll ?rec ?visits ?s1] =>
      assert (Hvisits : visitAll rec visits s1 =
        Ret [formatString (_getChildFormatter self false) "self";
             circularText (_getChildFormatter self true) (Some 1%Z)]
            (noted s1))
  end.
  { apply visitAll_Ret. econstructor; [reflexivity|].
    econstructor; [|constructor].
    change (format h (S fuel) (_getChildFormatter self true) (VObject a))
      with (formatValue h (format h fuel) (_getChildFormatter self true)
              (VObject a)).
    rewrite (composite_formatValue h _ _ a o RecordCategory Ho Hc eq_refl),
      formatObjectEntries_unfold.
    cbn [_seen]. now rewrite lookup_singleton_eq. }
  rewrite Hvisits.
  eexists. split; [|split; [|split]].
  - f_equal. f_equal. cbn [assemble rseparator].
    rewrite formatString_self.
    unfold selfEntryText, circularText, _formatFirstLine, _formatWithIndent,
      formatWithIndentBy, wrap.
    cbn [_getChildFormatter newFormatter _skipFirstLineIdentation options
         given spread indentRoot circularId default from_option id orb negb
         opt_indent opt_depth opt_indentRoot opt_escapeString opt_circularId
         String.append].
    rewrite !append_assoc.
    destruct (circularId (options self)); reflexivity.
  - reflexivity.
  - cbn. apply delete_singleton_eq.
  - intros Hclean.
    rewrite (occurrences_expandedText self name 1%Z RecordCategory)
      by exact Hclean.
    unfold selfEntryText. rewrite occurrences_spaces.
    destruct (circularId (options self)); reflexivity.
Qed.









(** The two texts of [v = { self: v }], with one marker each. *)
Lemma self_reference_texts :
  rendered (format selfHeap 2 (rootFormatter noOptions) (VObject 0)
              freshStore)
  = Some ("Object {" +:+ nl +:+
          "  " +:+ dq +:+ "self" +:+ dq +:+ ": [Circular]," +:+ nl +:+
          "}") /\
  rendered (format selfHeap 2 (rootFormatter showIds) (VObject 0) freshStore)
  = Some ("Object#1 {" +:+ nl +:+
          "  " +:+ dq +:+ "self" +:+ dq +:+ ": [Circular#1]," +:+ nl +:+
          "}") /\
  (forall t,
     rendered (format selfHeap 2 (rootFormatter noOptions) (VObject 0)
                 freshStore) = Some t \/
     rendered (format selfHeap 2 (rootFormatter showIds) (VObject 0)
                 freshStore) = Some t ->
     occurrences markerStart t = 1).
Proof.
  split_and!; [vm_compute; reflexivity..|].
  intros t [H|H]; vm_compute in H; injection H as <-; vm_compute; reflexivity.
Qed.

(** ** Acyclic values are rendered without markers *)

(** C2 (amended): [format] of an acyclic value, by an engine with no
    value being expanded (a new one, or one whose earlier calls
    returned), ends, with one and the same outcome for every amount of
    fuel its depth guard asks for or more; the outcome is a text when the
    value is well-formed; and when it is a text, no circular-reference
    marker has been rendered for it, whether or not objects occur several
    times in the value, and [_seen] is empty again; the text contains no
    start of a marker where no string, symbol, function source, type
    name, text of a RegExp or a Date, or separator of the value spells
    one. *)
Theorem acyclic_no_marker (h : heap) (self : Formatter) (v : value)
    (s : store) :
  acyclic h v ->
  _seen s = ∅ ->
  exists r,
    terminated r /\
    (forall fuel, enoughFuel self <= fuel -> format h fuel self v s = r) /\
    (wellFormedHeap h -> stored h v = true -> exists t s', r = Ret t s') /\
    (forall t s', r = Ret t s' ->
       circularRefs s' = circularRefs s /\
       _seen s' = ∅ /\
       (cleanHeap h -> cleanValue v = true ->
        occurrences markerStart t = 0)).
Proof.
  intros [n Hn] Hseen.
  exists (format h (enoughFuel self) self v s). split_and!.
  - now apply format_enoughFuel.
  - intros fuel Hfuel. now apply format_fuel_stable.
  - intros Hheap Hv. now apply format_returns.
  - intros t s' H.
    assert (Hrefs : circularRefs s' = circularRefs s).
    { eapply (format_acyclic h _ n); [exact Hn| |exact H].
      intros b. rewrite Hseen, lookup_empty. now intros [? ?]. }
    split_and!; [exact Hrefs| |].
    + apply format_framed in H as [Hs _]. congruence.
    + intros Hheap Hv.
      pose proof (format_marker_count h _ self v s t s' Hheap Hv H). lia.
Qed.

(** C2, as stated, fails on acyclic values that spell a marker
    themselves: no marker is rendered for [{ a: new Circular() }] with
    max depth 2, nor for [{ a: "[Circular]" }], and both texts contain
    [[Circular]]. *)
Lemma acyclic_no_marker_counterexample :
  acyclic circularNameHeap (VObject 0) /\
  format circularNameHeap 3 (rootFormatter (maxDepth 2)) (VObject 0)
    freshStore
  = Ret ("Object {" +:+ nl +:+
         "  " +:+ dq +:+ "a" +:+ dq +:+ ":   [Circular]," +:+ nl +:+
         "}")
        (storeAfter (format circularNameHeap 3 (rootFormatter (maxDepth 2))
                       (VObject 0) freshStore)) /\
  circularRefs (storeAfter (format circularNameHeap 3
                              (rootFormatter (maxDepth 2)) (VObject 0)
                              freshStore)) = 0 /\
  acyclic spelledMarkerHeap (VObject 0) /\
  rendered (format spelledMarkerHeap 2 (rootFormatter noOptions) (VObject 0)
              freshStore)
  = Some ("Object {" +:+ nl +:+
          "  " +:+ dq +:+ "a" +:+ dq +:+ ": " +:+
          dq +:+ "[Circular]" +:+ dq +:+ "," +:+ nl +:+
          "}").
Proof.
  split_and!; try (vm_compute; reflexivity).
  - exists 2. reflexivity.
  - exists 1. reflexivity.
Qed.

Lemma sharedHeap_clean : cleanHeap sharedHeap.
Proof.
  intros a o H. unfold sharedHeap in H.
  apply lookup_insert_Some in H as [[<- <-]|[_ H]]; [reflexivity|].
  apply lookup_singleton_Some in H as [<- <-]. reflexivity.
Qed.

Lemma sharedHeap_wellFormed : wellFormedHeap sharedHeap.
Proof.
  intros a o H. unfold sharedHeap in H.
  apply lookup_insert_Some in H as [[<- <-]|[_ H]]; [now split|].
  apply lookup_singleton_Some in H as [<- <-]. now split.
Qed.

(** [{ a: v, b: v }]: [v] occurs twice, a text is returned and no marker
    is rendered. *)
Lemma acyclic_no_marker_witness :
  exists r,
    terminated r /\
    (forall fuel, enoughFuel (rootFormatter noOptions) <= fuel ->
       format sharedHeap fuel (rootFormatter noOptions) (VObject 0)
         freshStore = r) /\
    (exists t s', r = Ret t s') /\
    (forall t s', r = Ret t s' ->
       circularRefs s' = 0 /\ _seen s' = ∅ /\
       occurrences markerStart t = 0).
Proof.
  destruct (acyclic_no_marker sharedHeap (rootFormatter noOptions)
              (VObject 0) freshStore) as (r & Hterm & Hfuel & Hreturns & Hret).
  - exists 2. reflexivity.
  - reflexivity.
  - exists r. split; [exact Hterm|]. split; [exact Hfuel|]. split.
    + apply Hreturns; [apply sharedHeap_wellFormed | reflexivity].
    + intros t s' Hr. destruct (Hret t s' Hr) as (Hrefs & Hseen & Htext).
      split; [exact Hrefs|]. split; [exact Hseen|].
      apply Htext; [apply sharedHeap_clean | reflexivity].
Defined.

(** * Further properties of the code *)

(** ** Lines of a text *)

Lemma occursIn_app (c : ascii) (a b : string) :
  occursIn c (a +:+ b) = occursIn c a || occursIn c b.
Proof.
  induction a as [|x a IH]; [reflexivity|].
  change (String x a +:+ b) with (String x (a +:+ b)).
  cbn [occursIn]. rewrite IH. now rewrite orb_assoc.
Qed.

Lemma occursIn_spaces (c : ascii) (n : nat) :
  Ascii.eqb c SP = false -> occursIn c (spaces n) = false.
Proof.
  intros H. induction n as [|n IH]; [reflexivity|].
  cbn [spaces occursIn]. now rewrite H, IH.
Qed.

Lemma occursIn_escape (s : string) :
  occursIn LF (escape s) = false /\ occursIn TAB (escape s) = false.
Proof.
  induction s as [|c s [IH1 IH2]]; [now split|].
  cbn [escape]. destruct (Ascii.eqb c LF) eqn:H1.
  { cbn [occursIn]. rewrite IH1, IH2. now split. }
  destruct (Ascii.eqb c TAB) eqn:H2.
  { cbn [occursIn]. rewrite IH1, IH2. now split. }
  cbn [occursIn]. rewrite IH1, IH2.
  rewrite (Ascii.eqb_sym LF c), (Ascii.eqb_sym TAB c), H1, H2. now split.
Qed.

Lemma occursIn_dropSpaces (c : ascii) (l : string) :
  occursIn c l = false -> occursIn c (dropSpaces l) = false.
Proof.
  induction l as [|x l IH]; [done|].
  cbn [dropSpaces]. destruct (Ascii.eqb x SP); [|done].
  cbn [occursIn]. intros [_ H]%orb_false_elim. now apply IH.
Qed.

(** A text without a line break is one line. *)
Lemma split_single (s : string) : occursIn LF s = false -> split s = [s].
Proof.
  induction s as [|c s IH]; [reflexivity|].
  cbn [occursIn split]. intros [Hc Hs]%orb_false_elim.
  rewrite Ascii.eqb_sym, Hc, (IH Hs). reflexivity.
Qed.

Lemma split_line (l rest : string) :
  occursIn LF l = false ->
  split (l +:+ String LF rest) = l :: split rest.
Proof.
  induction l as [|c l IH]; [reflexivity|].
  cbn [occursIn]. intros [Hc Hl]%orb_false_elim.
  change (String c l +:+ String LF rest)
    with (String c (l +:+ String LF rest)).
  cbn [split]. rewrite Ascii.eqb_sym, Hc, (IH Hl). reflexivity.
Qed.

(** The pieces of a text hold no line break. *)
Lemma split_singleLine (s : string) :
  Forall (fun l => occursIn LF l = false) (split s).
Proof.
  induction s as [|c s IH]; [now repeat constructor|].
  cbn [split]. destruct (Ascii.eqb c LF) eqn:Hc; [now constructor|].
  pose proof (split_nonempty s) as Hne.
  destruct (split s) as [|l ls]; [done|].
  inversion IH as [|? ? Hl Hls]; subst. constructor; [|exact Hls].
  cbn [occursIn]. now rewrite Ascii.eqb_sym, Hc, Hl.
Qed.

(** Joining lines and splitting the text gives the lines back. *)
Lemma split_join (ls : list string) :
  ls <> [] ->
  Forall (fun l => occursIn LF l = false) ls ->
  split (join nl ls) = ls.
Proof.
  induction ls as [|l ls IH]; [done|]. intros _ Hall.
  inversion Hall as [|? ? Hl Hls]; subst.
  destruct ls as [|l' ls]; [now apply split_single|].
  rewrite join_cons by done. unfold nl.
  change (String LF EmptyString +:+ ?x) with (String LF x).
  rewrite split_line by exact Hl. f_equal. now apply IH.
Qed.

Lemma join_prefix (pre l : string) (ls : list string) :
  pre +:+ join nl (l :: ls) = join nl ((pre +:+ l) :: ls).
Proof.
  destruct ls as [|l' ls]; [reflexivity|].
  rewrite (join_cons nl l), (join_cons nl (pre +:+ l)) by done.
  now rewrite append_assoc.
Qed.

Lemma join_suffix (ls : list string) (post : string) :
  ls <> [] ->
  join nl ls +:+ post =
  join nl (removelast ls ++ [List.last ls EmptyString +:+ post]).
Proof.
  induction ls as [|l ls IH]; [done|]. intros _.
  destruct ls as [|l' ls]; [reflexivity|].
  rewrite (join_cons nl l (l' :: ls)) by done.
  change (removelast (l :: l' :: ls)) with (l :: removelast (l' :: ls)).
  change (List.last (l :: l' :: ls) EmptyString)
    with (List.last (l' :: ls) EmptyString).
  change ((l :: removelast (l' :: ls)) ++ ?x)
    with (l :: (removelast (l' :: ls) ++ x)).
  rewrite (join_cons nl l (removelast (l' :: ls) ++ _))
    by (now destruct (removelast (l' :: ls))).
  rewrite <- IH by done. now rewrite !append_assoc.
Qed.

Lemma dropSpaces_spaces (n : nat) (t : string) :
  dropSpaces (spaces n +:+ t) = dropSpaces t.
Proof. induction n as [|n IH]; [reflexivity|]. exact IH. Qed.

Lemma dropSpaces_idempotent (l : string) :
  dropSpaces (dropSpaces l) = dropSpaces l.
Proof.
  induction l as [|c l IH]; [reflexivity|].
  cbn [dropSpaces]. destruct (Ascii.eqb c SP) eqn:Hc; [exact IH|].
  cbn [dropSpaces]. now rewrite Hc.
Qed.

(** The first line of a rendering is its content after some spaces. *)
Lemma formatFirstLine_spaces (self : Formatter) (t : string) :
  exists n, _formatFirstLine self t = spaces n +:+ t.
Proof.
  unfold _formatFirstLine.
  destruct (_ || _); [now exists 0|].
  now exists (indent (options self)).
Qed.

Lemma formatFirstLine_app (self : Formatter) (a b : string) :
  _formatFirstLine self (a +:+ b) = _formatFirstLine self a +:+ b.
Proof.
  unfold _formatFirstLine, _formatWithIndent, formatWithIndentBy.
  destruct (_ || _); [reflexivity|]. now rewrite append_assoc.
Qed.

Lemma formatFirstLine_join (self : Formatter) (l : string)
    (ls : list string) :
  _formatFirstLine self (join nl (l :: ls)) =
  join nl (_formatFirstLine self l :: ls).
Proof.
  destruct ls as [|l' ls]; [reflexivity|].
  rewrite (join_cons nl l), (join_cons nl (_formatFirstLine self l)) by done.
  apply formatFirstLine_app.
Qed.

Lemma occursIn_formatWithIndent (self : Formatter) (t : string) :
  occursIn LF (_formatWithIndent self t) = occursIn LF t.
Proof.
  unfold _formatWithIndent, formatWithIndentBy.
  now rewrite occursIn_app, occursIn_spaces.
Qed.

Lemma occursIn_formatFirstLine (c : ascii) (self : Formatter) (t : string) :
  Ascii.eqb c SP = false ->
  occursIn c (_formatFirstLine self t) = occursIn c t.
Proof.
  intros Hc. destruct (formatFirstLine_spaces self t) as [n ->].
  now rewrite occursIn_app, occursIn_spaces.
Qed.

Lemma removelast_map {A B} (f : A -> B) (l : list A) :
  removelast (map f l) = map f (removelast l).
Proof.
  induction l as [|x l IH]; [reflexivity|].
  destruct l as [|y l]; [reflexivity|].
  change (f x :: removelast (map f (y :: l)) = f x :: map f (removelast (y :: l))).
  now rewrite IH.
Qed.

Lemma last_map {A B} (f : A -> B) (l : list A) (d : A) :
  l <> [] -> List.last (map f l) (f d) = f (List.last l d).
Proof.
  induction l as [|x l IH]; [done|]. intros _.
  destruct l as [|y l]; [reflexivity|]. now apply IH.
Qed.

Lemma last_default {A} (l : list A) (d d' : A) :
  l <> [] -> List.last l d = List.last l d'.
Proof.
  induction l as [|x l IH]; [done|]. intros _.
  destruct l as [|y l]; [reflexivity|]. now apply IH.
Qed.

Lemma removelast_last {A} (l : list A) (d : A) :
  l <> [] -> removelast l ++ [List.last l d] = l.
Proof. intros H. symmetry. now apply app_removelast_last. Qed.

(** A text of one piece holds no line break. *)
Lemma split_one (s l : string) : split s = [l] -> occursIn LF s = false.
Proof.
  intros H. pose proof (split_singleLine s) as Hall. rewrite H in Hall.
  inversion Hall as [|? ? Hl _]; subst.
  rewrite <- (join_split s), H. exact Hl.
Qed.

(** ** Strings *)

(** X1: with [escapeString] on, [formatString] renders every string on
    one line: the text it returns holds neither a line break nor a
    tab. *)
Theorem escaped_string_one_line (self : Formatter) (str : string) :
  escapeString (options self) = true ->
  occursIn LF (formatString self str) = false /\
  occursIn TAB (formatString self str) = false /\
  split (formatString self str) = [formatString self str].
Proof.
  intros H.
  assert (Hno : occursIn LF (formatString self str) = false /\
                occursIn TAB (formatString self str) = false).
  { unfold formatString. rewrite H. unfold wrap.
    rewrite !occursIn_formatFirstLine by reflexivity.
    rewrite !occursIn_app.
    destruct (occursIn_escape str) as [-> ->]. now split. }
  destruct Hno as [H1 H2]. split_and!; [exact H1|exact H2|].
  now apply split_single.
Qed.

Lemma escaped_string_one_line_witness :
  split (formatString (rootFormatter escaping) ("a" +:+ nl +:+ "b")) =
  [dq +:+ "a\nb" +:+ dq].
Proof.
  destruct (escaped_string_one_line (rootFormatter escaping)
              ("a" +:+ nl +:+ "b") eq_refl) as (_ & _ & H).
  exact H.
Defined.

(** X2: with [escapeString] off, [formatString] keeps the lines of the
    string: a string of one line is put between double quotes; of a
    string of several lines, the first follows a backtick, every further
    line is indented by the [indent] of the engine, and a backtick ends
    the last.  The text has as many lines as the string. *)
Theorem unescaped_string_lines (self : Formatter) (str : string) :
  escapeString (options self) = false ->
  split (formatString self str) =
  match split str with
  | [] | [_] => [_formatFirstLine self (wrap dq dq str)]
  | first :: others =>
      _formatFirstLine self ("`" +:+ first) ::
      map (_formatWithIndent self) (removelast others) ++
      [_formatWithIndent self (List.last others EmptyString) +:+ "`"]
  end /\
  length (split (formatString self str)) = length (split str).
Proof.
  intros H.
  pose proof (split_singleLine str) as Hall.
  pose proof (split_nonempty str) as Hne.
  unfold formatString. rewrite H.
  destruct (split str) as [|first others] eqn:Hs; [done|].
  destruct others as [|l ls].
  { cbn [length Nat.eqb].
    assert (Hone : split (_formatFirstLine self (wrap dq dq str)) =
                   [_formatFirstLine self (wrap dq dq str)]).
    { apply split_single. rewrite occursIn_formatFirstLine by reflexivity.
      unfold wrap. rewrite !occursIn_app, (split_one str first Hs).
      reflexivity. }
    now rewrite Hone. }
  change (Nat.eqb (length (first :: l :: ls)) 1) with false.
  cbv beta iota zeta. set (others := l :: ls) in *.
  assert (Hothers : others <> []) by done.
  assert (Htext :
    _formatFirstLine self
      (wrap "`" "`" (join nl (first :: map (_formatWithIndent self) others))) =
    join nl
      (_formatFirstLine self ("`" +:+ first) ::
       map (_formatWithIndent self) (removelast others) ++
       [_formatWithIndent self (List.last others EmptyString) +:+ "`"])).
  { unfold wrap.
    rewrite (join_suffix (first :: map (_formatWithIndent self) others))
      by done.
    change (removelast (first :: map (_formatWithIndent self) others))
      with (first :: removelast (map (_formatWithIndent self) others)).
    change (List.last (first :: map (_formatWithIndent self) others)
              EmptyString)
      with (List.last (map (_formatWithIndent self) others) EmptyString).
    rewrite removelast_map.
    rewrite (last_default _ EmptyString
               (_formatWithIndent self EmptyString))
      by (now destruct others).
    rewrite last_map by done.
    change ((first :: ?a) ++ ?b) with (first :: (a ++ b)).
    rewrite join_prefix, formatFirstLine_join. reflexivity. }
  rewrite Htext. clearbody others.
  inversion Hall as [|? ? Hfirst Hrest]; subst.
  assert (Hlines :
    split (join nl
      (_formatFirstLine self ("`" +:+ first) ::
       map (_formatWithIndent self) (removelast others) ++
       [_formatWithIndent self (List.last others EmptyString) +:+ "`"])) =
    _formatFirstLine self ("`" +:+ first) ::
    map (_formatWithIndent self) (removelast others) ++
    [_formatWithIndent self (List.last others EmptyString) +:+ "`"]).
  { apply split_join; [done|].
    rewrite <- (removelast_last others EmptyString Hothers) in Hrest.
    apply Forall_app in Hrest as [Hinit Hlast].
    constructor.
    - rewrite occursIn_formatFirstLine by reflexivity.
      rewrite occursIn_app, Hfirst. reflexivity.
    - apply Forall_app. split.
      + apply Forall_map. eapply Forall_impl; [exact Hinit|].
        intros t Ht. cbn beta. now rewrite occursIn_formatWithIndent.
      + inversion Hlast as [|? ? Hl _]; subst. constructor; [|constructor].
        rewrite occursIn_app, occursIn_formatWithIndent.
        change (occursIn LF "`") with false. rewrite orb_false_r. exact Hl. }
  rewrite Hlines. split; [reflexivity|].
  pose proof (f_equal length (removelast_last others EmptyString Hothers))
    as Hlen.
  rewrite length_app in Hlen. cbn [length] in *.
  rewrite length_app, length_map. cbn [length]. lia.
Qed.

Lemma unescaped_string_lines_witness :
  split (formatString (_getChildFormatter (rootFormatter noOptions) false)
           ("a" +:+ nl +:+ "b" +:+ nl +:+ "c")) =
  ["  `a"; "  b"; "  c`"].
Proof.
  exact (proj1 (unescaped_string_lines
                  (_getChildFormatter (rootFormatter noOptions) false)
                  ("a" +:+ nl +:+ "b" +:+ nl +:+ "c") eq_refl)).
Defined.

Lemma escape_app (a b : string) : escape (a +:+ b) = escape a +:+ escape b.
Proof.
  induction a as [|c a IH]; [reflexivity|].
  change (String c a +:+ b) with (String c (a +:+ b)).
  cbn [escape]. rewrite IH.
  destruct (Ascii.eqb c LF); [reflexivity|].
  destruct (Ascii.eqb c TAB); reflexivity.
Qed.

(** X3: [escapeChars] has no entry for the backslash, so the escaped
    rendering does not tell a line break from a backslash followed by
    [n] (nor a tab from a backslash followed by [t]): two strings that
    differ in nothing else are rendered as the same text. *)
Theorem escaped_string_ambiguous (self : Formatter) (a b : string) :
  escapeString (options self) = true ->
  formatString self (a +:+ String LF b) =
  formatString self (a +:+ String "\" (String "n" b)) /\
  formatString self (a +:+ String TAB b) =
  formatString self (a +:+ String "\" (String "t" b)).
Proof.
  intros H. unfold formatString. rewrite H.
  rewrite !escape_app. split; reflexivity.
Qed.

Lemma escaped_string_ambiguous_witness :
  formatString (rootFormatter escaping) ("a" +:+ nl +:+ "b") =
  formatString (rootFormatter escaping) "a\nb".
Proof.
  exact (proj1 (escaped_string_ambiguous (rootFormatter escaping)
                  "a" "b" eq_refl)).
Defined.

(** ** Function listings *)

Lemma dropSpaces_formatFirstLine (self : Formatter) (t : string) :
  dropSpaces (_formatFirstLine self t) = dropSpaces t.
Proof.
  destruct (formatFirstLine_spaces self t) as [n ->].
  apply dropSpaces_spaces.
Qed.

Lemma dropSpaces_reindentLine (self : Formatter) (extra : nat)
    (line : string) :
  dropSpaces (reindentLine self extra line) = dropSpaces line.
Proof.
  unfold reindentLine, formatWithIndentBy.
  destruct (Nat.leb extra (leadingSpaces line)); [|reflexivity].
  rewrite append_nil_r, dropSpaces_spaces. apply dropSpaces_idempotent.
Qed.

Lemma occursIn_reindentLine (self : Formatter) (extra : nat)
    (line : string) :
  occursIn LF line = false ->
  occursIn LF (reindentLine self extra line) = false.
Proof.
  intros H. unfold reindentLine, formatWithIndentBy.
  destruct (Nat.leb extra (leadingSpaces line)); [|exact H].
  rewrite append_nil_r, occursIn_app, occursIn_spaces by reflexivity.
  now apply occursIn_dropSpaces.
Qed.

(** X4: [formatFunction] changes nothing but leading spaces: line by
    line, the listing it returns and the source text of the function are
    the same once the spaces a line begins with are set aside, and no
    line is added or lost. *)
Theorem function_listing_kept (self : Formatter) (fnStr : string) :
  map dropSpaces (split (formatFunction self fnStr)) =
  map dropSpaces (split fnStr).
Proof.
  pose proof (split_singleLine fnStr) as Hall.
  unfold formatFunction.
  destruct (split fnStr) as [|first others] eqn:Hs;
    [now rewrite Hs|].
  destruct others as [|l ls]; [now rewrite Hs|].
  set (others := l :: ls) in *.
  assert (Hothers : others <> []) by done.
  cbv zeta.
  set (lastLine := List.last others EmptyString).
  set (last' := if Nat.ltb 0 (leadingSpaces lastLine)
                then _formatWithIndent self "" +:+ dropSpaces lastLine
                else lastLine).
  set (interior' :=
         if Nat.ltb 2 (length (first :: others))
         then map (reindentLine self (leadingSpaces lastLine))
                (removelast others)
         else removelast others).
  clearbody others.
  inversion Hall as [|? ? Hfirst Hrest]; subst.
  rewrite <- (removelast_last others EmptyString Hothers) in Hrest.
  apply Forall_app in Hrest as [Hinit Hlast].
  inversion Hlast as [|? ? Hl _]; subst.
  fold lastLine in Hl.
  assert (Hlast' : occursIn LF last' = false /\
                   dropSpaces last' = dropSpaces lastLine).
  { unfold last'. destruct (Nat.ltb 0 (leadingSpaces lastLine)); [|done].
    unfold _formatWithIndent, formatWithIndentBy.
    rewrite append_nil_r, occursIn_app, occursIn_spaces by reflexivity.
    rewrite dropSpaces_spaces, dropSpaces_idempotent.
    split; [now apply occursIn_dropSpaces|reflexivity]. }
  assert (Hinterior' :
    Forall (fun t => occursIn LF t = false) interior' /\
    map dropSpaces interior' = map dropSpaces (removelast others)).
  { unfold interior'. destruct (Nat.ltb 2 _); [|done]. split.
    - apply Forall_map. eapply Forall_impl; [exact Hinit|].
      intros t Ht. cbn beta. now apply occursIn_reindentLine.
    - rewrite map_map. apply map_ext. intros t.
      apply dropSpaces_reindentLine. }
  destruct Hlast' as [Hlast1 Hlast2].
  destruct Hinterior' as [Hint1 Hint2].
  rewrite split_join.
  - cbn [map]. rewrite dropSpaces_formatFirstLine. f_equal.
    rewrite map_app, Hint2. cbn [map]. rewrite Hlast2.
    transitivity (map dropSpaces (removelast others ++ [lastLine])).
    + now rewrite map_app.
    + f_equal. now apply removelast_last.
  - done.
  - constructor.
    + now rewrite occursIn_formatFirstLine.
    + apply Forall_app. split; [exact Hint1|]. now repeat constructor.
Qed.

(** X5: a function whose source text is one line is returned as it is,
    by every engine: unlike every other rendering, it gets no
    indentation where it is an element of a composite. *)
Theorem function_one_line (self : Formatter) (fnStr : string) :
  occursIn LF fnStr = false ->
  formatFunction self fnStr = fnStr.
Proof.
  intros H. unfold formatFunction. now rewrite (split_single fnStr H).
Qed.

Lemma function_one_line_witness :
  formatFunction (_getChildFormatter (rootFormatter noOptions) false)
    "() => 1" = "() => 1" /\
  formatNumber (_getChildFormatter (rootFormatter noOptions) false)
    (numberOf 1) = "  1".
Proof.
  split; [|reflexivity].
  exact (function_one_line
           (_getChildFormatter (rootFormatter noOptions) false)
           "() => 1" eq_refl).
Defined.

(** ** The store after a call, returned or raised *)

Lemma afterCall_impl {A} (Q Q' : store -> Prop) (r : outcome A) :
  (forall s, Q s -> Q' s) -> afterCall Q r -> afterCall Q' r.
Proof. intros H. destruct r; cbn; auto. Qed.

Lemma visitAll_afterCall (Q : store -> Prop)
    (rec : Formatter -> value -> M string)
    (visits : list (Formatter * value)) (s : store) :
  (forall f v s1, (f, v) ∈ visits -> Q s1 -> afterCall Q (rec f v s1)) ->
  Q s ->
  afterCall Q (visitAll rec visits s).
Proof.
  revert s. induction visits as [|[f v] visits IH]; intros s Hrec Hs;
    [exact Hs|].
  cbn [visitAll]. unfold bind.
  pose proof (Hrec f v s (list_elem_of_here _ _) Hs) as Hfv.
  destruct (rec f v s) as [t s1| |]; [|exact Hfv|exact I].
  assert (Hrest : afterCall Q (visitAll rec visits s1)).
  { apply IH; [|exact Hfv]. intros f' v' s' Hin. apply Hrec.
    now apply list_elem_of_further. }
  destruct (visitAll rec visits s1); exact Hrest.
Qed.

(** What [generateId] keeps of a generator, a call keeps. *)
Lemma format_generator_invariant (P : CircularIdGenerator.t -> Prop)
    (h : heap) (fuel : nat) (self : Formatter) (v : value) (s : store) :
  (forall a g, P g -> P (snd (CircularIdGenerator.generateId a g))) ->
  P (_circularIdGenerator s) ->
  afterCall (fun s' => P (_circularIdGenerator s')) (format h fuel self v s).
Proof.
  intros Hgen. revert self v s.
  induction fuel as [|fuel IH]; intros self v s HP; [exact I|].
  change (format h (S fuel) self v s)
    with (formatValue h (format h fuel) self v s).
  destruct (formatValue_cases h self v)
    as [(r & Hleaf & Hr) | (a & o & c & -> & Ho & Hc & Hcomp & Hf)].
  { rewrite Hr. destruct r; exact HP. }
  rewrite Hf, formatObjectEntries_unfold.
  destruct (_seen s !! a); [exact HP|].
  destruct (getConstructorName o) as [e|name]; [exact HP|].
  destruct (_hitMaxDepth self); [exact HP|].
  assert (Henter : P (_circularIdGenerator (snd (enter a s)))).
  { rewrite (proj1 (enter_generator a s)). now apply Hgen. }
  pose proof (visitAll_afterCall
                (fun s' => P (_circularIdGenerator s'))
                (format h fuel)
                (visitsOf self (fst (resolve h (generatorOf h c o))))
                (snd (enter a s))
                (fun f w s1 _ H1 => IH f w s1 H1) Henter) as Hv.
  destruct (visitAll _ _ _); [|exact Hv..].
  destruct (snd (resolve h (generatorOf h c o))); exact Hv.
Qed.

Lemma framed_grown (s s' : store) : framed s s' -> grown s s'.
Proof. intros (Hs & Hg & Hn). unfold grown. now rewrite Hs. Qed.

Lemma grown_trans (s1 s2 s3 : store) :
  grown s1 s2 -> grown s2 s3 -> grown s1 s3.
Proof.
  unfold grown, generatorIncluded.
  intros (Hs & Hg & Hn) (Hs' & Hg' & Hn'). split_and!.
  - etrans; eassumption.
  - etrans; eassumption.
  - lia.
Qed.

Lemma grown_enter (a : addr) (s : store) :
  _seen s !! a = None -> grown s (snd (enter a s)).
Proof.
  intros Hseen. unfold grown. split_and!.
  - rewrite enter_seen. now apply insert_subseteq.
  - rewrite (proj1 (enter_generator a s)). apply generateId_included.
  - now rewrite enter_circularRefs.
Qed.

(** A call forgets nothing of the store, however it ends. *)
Lemma format_grown (h : heap) (fuel : nat) (self : Formatter) (v : value)
    (s : store) :
  afterCall (grown s) (format h fuel self v s).
Proof.
  destruct (format h fuel self v s) as [t s'|e s'|] eqn:H; [| |exact I].
  { cbn. apply framed_grown. eapply format_framed, H. }
  cbn. revert self v s e s' H.
  induction fuel as [|fuel IH]; intros self v s e s' H; [discriminate|].
  change (formatValue h (format h fuel) self v s = Throw e s') in H.
  destruct (formatValue_cases h self v)
    as [(r & Hleaf & Hr) | (a & o & c & -> & Ho & Hc & Hcomp & Hf)].
  { rewrite Hr in H. destruct r; [|discriminate].
    injection H as _ <-. apply framed_grown, framed_refl. }
  rewrite Hf, formatObjectEntries_unfold in H.
  destruct (_seen s !! a) eqn:Hseen; [discriminate|].
  destruct (getConstructorName o) as [e'|name].
  { injection H as _ <-. apply framed_grown, framed_refl. }
  destruct (_hitMaxDepth self); [discriminate|].
  pose proof (visitAll_afterCall (grown s) (format h fuel)
                (visitsOf self (fst (resolve h (generatorOf h c o))))
                (snd (enter a s))) as Hv.
  destruct (visitAll _ _ _) as [texts s2|e2 s2|] eqn:Hvisits;
    try discriminate.
  { destruct (snd (resolve h (generatorOf h c o))); [|discriminate].
    injection H as _ <-.
    apply (grown_trans _ (snd (enter a s))); [now apply grown_enter|].
    apply framed_grown.
    apply visitAll_Ret in Hvisits.
    eapply visited_framed; [|exact Hvisits].
    intros f w s1 t' s3 _ Hfw. eapply format_framed, Hfw. }
  injection H as _ <-. apply Hv; [|now apply grown_enter].
  intros f w s1 _ H1.
  destruct (format h fuel f w s1) as [t1 s3|e1 s3|] eqn:Hfw; [| |exact I].
  - cbn. eapply grown_trans; [exact H1|].
    apply framed_grown. eapply format_framed, Hfw.
  - cbn. eapply grown_trans; [exact H1|]. eapply IH, Hfw.
Qed.

(** Nor does a run of visits. *)
Lemma visitAll_grown (h : heap) (fuel : nat)
    (visits : list (Formatter * value)) (s : store) :
  afterCall (grown s) (visitAll (format h fuel) visits s).
Proof.
  apply visitAll_afterCall; [|apply framed_grown, framed_refl].
  intros f w s1 _ H1. eapply afterCall_impl; [|apply format_grown].
  intros s3 H3. eapply grown_trans; eassumption.
Qed.

(** A composite that is being expanded is rendered as a marker, before
    its type name is computed and before the depth guard is asked. *)
Lemma format_being_expanded (h : heap) (fuel : nat) (self : Formatter)
    (a : addr) (o : object) (c : category) (id : CircularId) (s : store) :
  h !! a = Some o ->
  categoryOf h (VObject a) = Some c ->
  composite c = true ->
  _seen s !! a = Some id ->
  format h (S fuel) self (VObject a) s =
  Ret (circularText self (Some id)) (noted s).
Proof.
  intros Ho Hc Hcomp Hseen.
  change (format h (S fuel) self (VObject a) s)
    with (formatValue h (format h fuel) self (VObject a) s).
  rewrite (composite_formatValue h (format h fuel) self a o c Ho Hc Hcomp).
  rewrite formatObjectEntries_unfold, Hseen. reflexivity.
Qed.

(** ** Every call ends *)


(** ** Values that are rendered, and what the call leaves *)



(** X8: a call of [format] that returns has taken out of [_seen] every
    value it put there, on whatever store it started; the generator has
    kept every id it had handed out, and its counter has not gone
    back. *)
Theorem returning_call_balanced (h : heap) (fuel : nat) (self : Formatter)
    (v : value) (s : store) (t : string) (s' : store) :
  format h fuel self v s = Ret t s' ->
  _seen s' = _seen s /\
  (forall b id,
     CircularIdGenerator._generatedIds (_circularIdGenerator s) !! b =
       Some id ->
     CircularIdGenerator._generatedIds (_circularIdGenerator s') !! b =
       Some id) /\
  (CircularIdGenerator._currentId (_circularIdGenerator s) <=
   CircularIdGenerator._currentId (_circularIdGenerator s'))%Z.
Proof.
  intros H. pose proof (format_framed h fuel self v s t s' H)
    as (Hs & Hg & _).
  split_and!; [exact Hs| |].
  - intros b id Hb. eapply lookup_weaken; [exact Hb|exact Hg].
  - pose proof (format_generator_invariant
                  (fun g => (CircularIdGenerator._currentId
                               (_circularIdGenerator s) <=
                             CircularIdGenerator._currentId g)%Z)
                  h fuel self v s) as Hinv.
    rewrite H in Hinv. apply Hinv; [|lia].
    intros a g Hle. unfold CircularIdGenerator.generateId.
    destruct (CircularIdGenerator._generatedIds g !! a); cbn; lia.
Qed.

Lemma returning_call_balanced_witness :
  _seen (afterFirstCall showIds) = ∅ /\
  (1 <= CircularIdGenerator._currentId
          (_circularIdGenerator (afterFirstCall showIds)))%Z.
Proof.
  destruct (returning_call_balanced twoObjectsHeap 2 (rootFormatter showIds)
              (VObject 0) freshStore
              ("Object#1 {" +:+ nl +:+ "}") (afterFirstCall showIds))
    as (H1 & _ & H3).
  - vm_compute. reflexivity.
  - split; [exact H1|exact H3].
Defined.

(** X9: a call of [format] that raises while a composite is expanded,
    that is after the type name of the composite was computed, leaves the
    composite in [_seen]: no handler removes it.  Every later call on an
    engine of the family then renders that value as a circular-reference
    marker, whether or not it contains itself. *)
Theorem failed_call_leaves_mark (h : heap) (fuel : nat) (self : Formatter)
    (a : addr) (o : object) (c : category) (e : error) (s s' : store) :
  h !! a = Some o ->
  categoryOf h (VObject a) = Some c ->
  composite c = true ->
  hasConstructor o = true ->
  _seen s !! a = None ->
  format h fuel self (VObject a) s = Throw e s' ->
  exists id,
    _seen s' !! a = Some id /\
    forall fuel' self',
      format h (S fuel') self' (VObject a) s' =
      Ret (circularText self' (Some id)) (noted s').
Proof.
  intros Ho Hc Hcomp Hctor Hseen H.
  assert (Hname : exists name, getConstructorName o = inr name).
  { unfold getConstructorName, hasConstructor in *.
    destruct (oconstructor o) as [|[name|]]; [discriminate|eauto|eauto]. }
  destruct Hname as [name Hname].
  assert (Hin : _seen (snd (enter a s)) !! a = Some (fst (enter a s)))
    by (rewrite enter_seen; apply lookup_insert_eq).
  assert (Hmark : _seen s' !! a = Some (fst (enter a s))).
  { destruct fuel as [|fuel]; [discriminate|].
    change (formatValue h (format h fuel) self (VObject a) s = Throw e s')
      in H.
    rewrite (composite_formatValue h _ self a o c Ho Hc Hcomp) in H.
    rewrite formatObjectEntries_unfold, Hseen, Hname in H.
    destruct (_hitMaxDepth self); [discriminate|].
    pose proof (visitAll_grown h fuel
                  (visitsOf self (fst (resolve h (generatorOf h c o))))
                  (snd (enter a s))) as Hv.
    destruct (visitAll _ _ _) as [texts s2|e2 s2|]; try discriminate.
    - destruct (snd (resolve h (generatorOf h c o))); [|discriminate].
      injection H as _ <-. destruct Hv as (Hsub & _).
      eapply lookup_weaken; eassumption.
    - injection H as _ <-. destruct Hv as (Hsub & _).
      eapply lookup_weaken; eassumption. }
  exists (fst (enter a s)). split; [exact Hmark|].
  intros fuel' self'. now apply (format_being_expanded h fuel' self' a o c).
Qed.

Lemma failed_call_leaves_mark_witness :
  format brokenHeap 3 (rootFormatter noOptions) (VObject 0) freshStore =
  Throw TypeError (snd (enter 0 freshStore)) /\
  exists id,
    _seen (snd (enter 0 freshStore)) !! 0 = Some id /\
    forall fuel' self',
      format brokenHeap (S fuel') self' (VObject 0) (snd (enter 0 freshStore))
      = Ret (circularText self' (Some id)) (noted (snd (enter 0 freshStore))).
Proof.
  assert (H : format brokenHeap 3 (rootFormatter noOptions) (VObject 0)
                freshStore =
              Throw TypeError (snd (enter 0 freshStore)))
    by (vm_compute; reflexivity).
  split; [exact H|].
  apply (failed_call_leaves_mark brokenHeap 3 (rootFormatter noOptions) 0
           (objectLiteral [("a", VObject 1)]) RecordCategory TypeError
           freshStore (snd (enter 0 freshStore)));
    first [reflexivity | exact H].
Defined.

(** ** The ids of the generator *)

Lemma consecutiveIds_new : consecutiveIds CircularIdGenerator.new.
Proof.
  unfold consecutiveIds, CircularIdGenerator.new. cbn. split_and!.
  - intros a id H. now rewrite lookup_empty in H.
  - intros a b id H. now rewrite lookup_empty in H.
  - now rewrite map_size_empty.
Qed.

Lemma consecutiveIds_generateId (a : addr) (g : CircularIdGenerator.t) :
  consecutiveIds g ->
  consecutiveIds (snd (CircularIdGenerator.generateId a g)).
Proof.
  intros (Hrange & Hinj & Hsize). unfold CircularIdGenerator.generateId.
  destruct (CircularIdGenerator._generatedIds g !! a) as [id0|] eqn:Ha;
    [now split_and!|].
  unfold consecutiveIds. cbn [snd CircularIdGenerator._currentId
                              CircularIdGenerator._generatedIds].
  split_and!.
  - intros b id [[<- <-]|[_ Hb]]%lookup_insert_Some.
    + lia.
    + apply Hrange in Hb. lia.
  - intros b b' id [[<- <-]|[_ Hb]]%lookup_insert_Some
                   [[<- Hid]|[_ Hb']]%lookup_insert_Some.
    + reflexivity.
    + apply Hrange in Hb'. lia.
    + apply Hrange in Hb. lia.
    + now apply (Hinj b b' id).
  - rewrite map_size_insert_None by exact Ha. lia.
Qed.

(** X10: [generateId] hands out the numbers from one on, without a gap
    and each to one identity: a generator whose ids are consecutive
    stays so; a value it knows gets the id it had and the generator is
    not changed; a value it does not know gets the counter, an id no
    other value has.  The ids of the other values are never touched. *)
Theorem generateId_consecutive (a : addr) (g : CircularIdGenerator.t) :
  consecutiveIds g ->
  let id := fst (CircularIdGenerator.generateId a g) in
  let g' := snd (CircularIdGenerator.generateId a g) in
  consecutiveIds g' /\
  CircularIdGenerator._generatedIds g' !! a = Some id /\
  (forall b, b <> a ->
     CircularIdGenerator._generatedIds g' !! b =
     CircularIdGenerator._generatedIds g !! b) /\
  (forall id0, CircularIdGenerator._generatedIds g !! a = Some id0 ->
     id = id0 /\ g' = g) /\
  (CircularIdGenerator._generatedIds g !! a = None ->
     id = CircularIdGenerator._currentId g /\
     CircularIdGenerator._currentId g' = (id + 1)%Z /\
     forall b id', CircularIdGenerator._generatedIds g !! b = Some id' ->
                   id' <> id).
Proof.
  intros Hg. cbv zeta. split_and!.
  - now apply consecutiveIds_generateId.
  - apply generateId_lookup.
  - intros b Hb. unfold CircularIdGenerator.generateId.
    destruct (CircularIdGenerator._generatedIds g !! a); [reflexivity|].
    cbn. now apply lookup_insert_ne.
  - intros id0 Ha. unfold CircularIdGenerator.generateId. now rewrite Ha.
  - intros Ha. unfold CircularIdGenerator.generateId. rewrite Ha. cbn.
    split_and!; [reflexivity|reflexivity|].
    intros b id' Hb. destruct Hg as (Hrange & _). apply Hrange in Hb. lia.
Qed.

Lemma generateId_consecutive_witness :
  consecutiveIds (snd (CircularIdGenerator.generateId 7 CircularIdGenerator.new))
  /\ fst (CircularIdGenerator.generateId 7 CircularIdGenerator.new) = 1%Z.
Proof.
  split; [|reflexivity].
  exact (proj1 (generateId_consecutive 7 CircularIdGenerator.new
                  consecutiveIds_new)).
Defined.

(** X11: the ids of an engine stay consecutive through every call of
    [format], returned or raised: at every moment the values that have an
    id have the numbers from one up to the counter, no two the same. *)
Theorem engine_ids_consecutive (h : heap) (fuel : nat) (self : Formatter)
    (v : value) (s : store) :
  consecutiveIds (_circularIdGenerator s) ->
  afterCall (fun s' => consecutiveIds (_circularIdGenerator s'))
    (format h fuel self v s).
Proof.
  apply format_generator_invariant. intros a g. apply consecutiveIds_generateId.
Qed.

Lemma engine_ids_consecutive_witness :
  consecutiveIds (_circularIdGenerator (afterFirstCall showIds)).
Proof.
  pose proof (engine_ids_consecutive twoObjectsHeap 2 (rootFormatter showIds)
                (VObject 0) freshStore consecutiveIds_new) as H.
  unfold afterFirstCall.
  destruct (format twoObjectsHeap 2 (rootFormatter showIds) (VObject 0)
              freshStore) as [t s'|e s'|] eqn:E.
  - exact H.
  - exact H.
  - vm_compute in E. discriminate E.
Defined.

(** ** The order of the tests on a composite *)

(** X12: a composite that is being expanded is rendered as the
    circular-reference marker whatever the depth of the engine and
    whatever its constructor: the test of [_seen] comes before the type
    name is computed and before the depth guard.  The id shown is the
    one [_seen] holds for the value. *)
Theorem marker_takes_precedence (h : heap) (fuel : nat) (self : Formatter)
    (a : addr) (o : object) (c : category) (id : CircularId) (s : store) :
  h !! a = Some o ->
  categoryOf h (VObject a) = Some c ->
  composite c = true ->
  _seen s !! a = Some id ->
  format h (S fuel) self (VObject a) s =
  Ret (_formatFirstLine self
         ("[Circular" +:+
          (if circularId (options self) then "#" +:+ ofZ id else "") +:+
          "]"))
      (noted s).
Proof.
  intros Ho Hc Hcomp Hseen.
  rewrite (format_being_expanded h fuel self a o c id s Ho Hc Hcomp Hseen).
  unfold circularText, wrap. now rewrite append_assoc.
Qed.

Lemma marker_takes_precedence_witness :
  _hitMaxDepth (rootFormatter (Options None (Some 1%Z) None None None)) = true
  /\ getConstructorName nullPrototypeObject = inl TypeError
  /\ format bareHeap 1 (rootFormatter (Options None (Some 1%Z) None None None))
       (VObject 0) (snd (enter 0 freshStore)) =
     Ret "[Circular]" (noted (snd (enter 0 freshStore))).
Proof.
  split; [reflexivity|]. split; [reflexivity|].
  apply (marker_takes_precedence bareHeap 0
           (rootFormatter (Options None (Some 1%Z) None None None)) 0
           nullPrototypeObject RecordCategory 1%Z (snd (enter 0 freshStore)));
    reflexivity.
Defined.

(** ** Dates *)

(** X13: a [Date] is rendered by the engine it is given to, as its type
    name and its ISO text between braces; neither the depth guard nor
    [_seen] nor the id generator has a part in it.  An invalid date
    makes [format] raise the [RangeError] of [toISOString], an object
    that only inherits from [Date.prototype] its [TypeError]. *)
Theorem date_rendering (h : heap) (fuel : nat) (self : Formatter) (a : addr)
    (o : object) (name : string) (s : store) :
  h !! a = Some o ->
  instanceOf o RegExpClass = false ->
  instanceOf o DateClass = true ->
  getConstructorName o = inr name ->
  format h (S fuel) self (VObject a) s =
  match oslots o with
  | DateValue (Some iso) =>
      Ret (_formatFirstLine self (name +:+ " { " +:+ iso +:+ " }")) s
  | DateValue None => Throw RangeError s
  | _ => Throw TypeError s
  end.
Proof.
  intros Ho HR HD Hname.
  change (format h (S fuel) self (VObject a) s)
    with (formatValue h (format h fuel) self (VObject a) s).
  cbn [formatValue]. rewrite Ho, HR, HD.
  unfold formatDate, bind. rewrite Hname. cbn [lift ret].
  unfold toISOString. now destruct (oslots o) as [|[iso|]].
Qed.

Lemma date_rendering_witness :
  format invalidDateHeap 1 (rootFormatter noOptions) (VObject 0) freshStore =
  Throw RangeError freshStore.
Proof.
  apply (date_rendering invalidDateHeap 0 (rootFormatter noOptions) 0
           (dateOf None "Invalid Date") "Date" freshStore); reflexivity.
Defined.

(** ** Type names *)

(** X14: for an object that has a constructor, [getConstructorName]
    raises nothing: it answers the name of the constructor, and where
    that name is nullish the tag [T] that [Object.prototype.toString]
    puts into [[object T]], whatever characters the tag holds. *)
Theorem type_name_resolved (o : object) :
  hasConstructor o = true ->
  getConstructorName o =
  inr (match oconstructor o with
       | Constructor (Some name) => name
       | _ => otag o
       end).
Proof.
  unfold hasConstructor, getConstructorName.
  destruct (oconstructor o) as [|[name|]]; [discriminate|reflexivity|].
  intros _. now rewrite stripObjectBrackets_objectToString.
Qed.

Lemma type_name_resolved_witness :
  getConstructorName namelessObject = inr "Object".
Proof. exact (type_name_resolved namelessObject eq_refl). Defined.

(** ** Maps, records and sets *)

(** The content of a run over entries: for every entry the texts of
    its key and of its value, the value rendered in the store the key
    left. *)
Lemma visited_keyed (rec : Formatter -> value -> M string) (self : Formatter)
    (sep : string) (es : list (value * value)) (s : store)
    (texts : list string) (s' : store) :
  visited rec (visitsOf self (keyedItems sep es)) s texts s' ->
  exists pairs,
    assemble (keyedItems sep es) texts EmptyString =
    entriesContent sep pairs /\
    Forall2 (fun kv p => exists s1 s2 s3,
               rec (_getChildFormatter self false) (fst kv) s1 =
                 Ret (fst p) s2 /\
               rec (_getChildFormatter self true) (snd kv) s2 =
                 Ret (snd p) s3)
            es pairs.
Proof.
  revert s texts. induction es as [|kv es IH]; intros s texts Hv.
  - inversion Hv. exists []. split; [reflexivity | constructor].
  - cbn [keyedItems map visitsOf flat_map app rkey rvalue] in Hv.
    fold (keyedItems sep es) in Hv.
    fold (visitsOf self (keyedItems sep es)) in Hv.
    inversion Hv as [|f w rest s0 k s1 ts s2 Hk Hrest]; subst.
    inversion Hrest as [|f' w' rest' s0' t s3 ts' s4 Ht Hrest']; subst.
    destruct (IH s3 ts' Hrest') as (pairs & Hcontent & Htexts).
    exists ((k, t) :: pairs). split.
    + cbn [keyedItems map assemble entriesContent foldr fst snd rseparator].
      fold (keyedItems sep es). rewrite assemble_content.
      change (EmptyString +:+ ?x) with x. unfold wrap.
      rewrite Hcontent, !append_assoc. reflexivity.
    + constructor; [|exact Htexts]. exists s, s1, s3. now split.
Qed.

(** The entries a generator builds with a separator of its own are the
    items of the loop, and no step raises. *)
Lemma resolve_entrySteps (h : heap) (sep : string)
    (es : list (value * value)) :
  resolve h (entrySteps sep es) = (keyedItems sep es, None).
Proof.
  induction es as [|kv es IH]; [reflexivity|].
  cbn [entrySteps map resolve classify templateText separator key evalue].
  fold (entrySteps sep es). now rewrite IH.
Qed.

(** An expansion over such entries that returned. *)
Lemma expanded_keyed (h : heap) (rec : Formatter -> value -> M string)
    (self : Formatter) (a : addr) (o : object) (w : string * string)
    (sep : string) (es : list (value * value)) (s : store) (t : string)
    (s' : store) :
  _formatObjectEntries h rec self a o w (entrySteps sep es) s = Ret t s' ->
  _seen s !! a = None ->
  _hitMaxDepth self = false ->
  exists name pairs,
    getConstructorName o = inr name /\
    Forall2 (fun kv p => exists s1 s2 s3,
               rec (_getChildFormatter self false) (fst kv) s1 =
                 Ret (fst p) s2 /\
               rec (_getChildFormatter self true) (snd kv) s2 =
                 Ret (snd p) s3)
            es pairs /\
    t = expandedText self name (fst (enter a s)) w
          (entriesContent sep pairs).
Proof.
  intros H Hseen Hhit.
  rewrite formatObjectEntries_unfold, Hseen, Hhit, resolve_entrySteps in H.
  cbn [fst snd] in H.
  destruct (getConstructorName o) as [e|name]; [discriminate|].
  destruct (visitAll _ _ _) as [texts s2| |] eqn:Hvisits; try discriminate.
  injection H as <- <-. apply visitAll_Ret, visited_keyed in Hvisits.
  destruct Hvisits as (pairs & Hcontent & Htexts).
  exists name, pairs. split; [reflexivity|]. split; [exact Htexts|].
  now rewrite Hcontent.
Qed.

(** The generator of a [Map] either raises, at a value that cannot be
    destructured, or builds an entry from every value the iterator
    hands out. *)
Lemma mapEntries_entrySteps (h : heap) (ps : list value) :
  (exists es,
     Forall2 (fun p kv => destructurePair h p = inr kv) ps es /\
     mapEntries h ps = entrySteps " => " es) \/
  (exists e, snd (resolve h (mapEntries h ps)) = Some e).
Proof.
  induction ps as [|p ps IH].
  - left. exists []. split; [constructor|reflexivity].
  - cbn [mapEntries].
    destruct (destructurePair h p) as [e|[k v]] eqn:Hp.
    + right. exists e. reflexivity.
    + destruct IH as [(es & Hes & Heq)|[e He]].
      * left. exists ((k, v) :: es). split; [now constructor|].
        now rewrite Heq.
      * right. exists e.
        cbn [resolve classify templateText separator snd]. exact He.
Qed.

(** X15: a [Map] is expanded between braces over what its iterator
    hands out, in that order: each value is destructured into a key and
    a value, and rendered as the key as a child engine renders it (a
    composite key is expanded like any value), [ => ], the value as a
    child engine that skips the indentation of the first line renders
    it, in the store the key left, a comma and a line break. *)
Theorem map_entries (h : heap) (self : Formatter) (a : addr) (o : object)
    (ps : list value) (fuel : nat) (s : store) (t : string) (s' : store) :
  h !! a = Some o ->
  instanceOf o RegExpClass = false ->
  instanceOf o DateClass = false ->
  instanceOf o MapClass = true ->
  oiterator o = Some ps ->
  _seen s !! a = None ->
  _hitMaxDepth self = false ->
  format h (S fuel) self (VObject a) s = Ret t s' ->
  exists name es pairs,
    getConstructorName o = inr name /\
    Forall2 (fun p kv => destructurePair h p = inr kv) ps es /\
    Forall2 (fun kv p => exists s1 s2 s3,
               format h fuel (_getChildFormatter self false) (fst kv) s1 =
                 Ret (fst p) s2 /\
               format h fuel (_getChildFormatter self true) (snd kv) s2 =
                 Ret (snd p) s3)
            es pairs /\
    t = expandedText self name (fst (enter a s)) ("{", "}")
          (entriesContent " => " pairs).
Proof.
  intros Ho HR HD HM Hiter Hseen Hhit H.
  change (format h (S fuel) self (VObject a) s)
    with (formatValue h (format h fuel) self (VObject a) s) in H.
  cbn [formatValue] in H. rewrite Ho, HR, HD, HM in H.
  unfold formatMap, mapContent in H. rewrite Hiter in H.
  destruct (mapEntries_entrySteps h ps) as [(es & Hes & Heq)|[e He]].
  - rewrite Heq in H.
    destruct (expanded_keyed _ _ _ _ _ _ _ _ _ _ _ H Hseen Hhit)
      as (name & pairs & Hname & Hpairs & Ht).
    now exists name, es, pairs.
  - rewrite formatObjectEntries_unfold, Hseen, Hhit, He in H.
    destruct (getConstructorName o); [discriminate|].
    destruct (visitAll _ _ _); discriminate.
Qed.

Lemma map_entries_witness :
  exists name es pairs,
    getConstructorName (mapOf [VObject 2]) = inr name /\
    Forall2 (fun p kv => destructurePair mapOfObjectHeap p = inr kv)
            [VObject 2] es /\
    Forall2 (fun kv p => exists s1 s2 s3,
               format mapOfObjectHeap 1
                 (_getChildFormatter (rootFormatter noOptions) false)
                 (fst kv) s1 = Ret (fst p) s2 /\
               format mapOfObjectHeap 1
                 (_getChildFormatter (rootFormatter noOptions) true)
                 (snd kv) s2 = Ret (snd p) s3)
            es pairs /\
    "Map {" +:+ nl +:+
    "  " +:+ dq +:+ "k" +:+ dq +:+ " => Object {" +:+ nl +:+
    "  }," +:+ nl +:+
    "}" =
    expandedText (rootFormatter noOptions) name (fst (enter 0 freshStore))
      ("{", "}") (entriesContent " => " pairs).
Proof.
  apply (map_entries mapOfObjectHeap (rootFormatter noOptions) 0
           (mapOf [VObject 2]) [VObject 2] 1 freshStore _
           (storeAfter (format mapOfObjectHeap 2 (rootFormatter noOptions)
                          (VObject 0) freshStore)));
    first [reflexivity | vm_compute; reflexivity].
Defined.

(** X16: an object of none of the earlier categories is expanded
    between braces over its own enumerable string keys, in the order of
    [Object.keys]: for each the key as [formatString] of a child engine
    renders it, a colon and a space, the value of the property as a child
    engine that skips the indentation of the first line renders it, a
    comma and a line break.  No other property is shown. *)
Theorem record_properties (h : heap) (self : Formatter) (a : addr)
    (o : object) (fuel : nat) (s : store) (t : string) (s' : store) :
  h !! a = Some o ->
  instanceOf o RegExpClass = false ->
  instanceOf o DateClass = false ->
  instanceOf o MapClass = false ->
  instanceOf o SetClass = false ->
  hasProperty o "length" && isNumber (getProperty o "length") = false ->
  oiterator o = None ->
  _seen s !! a = None ->
  _hitMaxDepth self = false ->
  format h (S fuel) self (VObject a) s = Ret t s' ->
  exists name pairs,
    getConstructorName o = inr name /\
    Forall2 (fun k p =>
               fst p = formatString (_getChildFormatter self false) k /\
               exists s1 s2,
                 format h fuel (_getChildFormatter self true)
                   (getProperty o k) s1 = Ret (snd p) s2)
            (objectKeys o) pairs /\
    t = expandedText self name (fst (enter a s)) ("{", "}")
          (entriesContent ": " pairs).
Proof.
  intros Ho HR HD HM HS Hlen Hiter Hseen Hhit H.
  change (format h (S fuel) self (VObject a) s)
    with (formatValue h (format h fuel) self (VObject a) s) in H.
  cbn [formatValue] in H. rewrite Ho, HR, HD, HM, HS, Hlen, Hiter in H.
  cbn [bool_decide] in H.
  rewrite bool_decide_eq_false_2 in H by (now intros [? ?]).
  unfold formatObject, objectContent in H.
  assert (Hitems :
    map (fun k => Yield (Fresh (mkEntry (VString k) (getProperty o k)
                                  (VString ": "))))
        (objectKeys o) =
    entrySteps ": " (map (fun k => (VString k, getProperty o k))
                         (objectKeys o))).
  { unfold entrySteps. now rewrite map_map. }
  rewrite Hitems in H.
  destruct (expanded_keyed _ _ _ _ _ _ _ _ _ _ _ H Hseen Hhit)
    as (name & pairs & Hname & Htexts & Ht).
  exists name, pairs. split; [exact Hname|]. split; [|exact Ht].
  apply Forall2_fmap_l in Htexts.
  eapply Forall2_impl; [exact Htexts|].
  intros k p (s1 & s2 & s3 & Hk & Hv). cbn [fst snd] in Hk, Hv. split.
  - destruct fuel as [|fuel]; [discriminate|]. now injection Hk as <- _.
  - now exists s2, s3.
Qed.

Lemma record_properties_witness :
  exists name pairs,
    getConstructorName
      (objectLiteral [("a", VNumber (numberOf 1)); ("b", VString "x")])
      = inr name /\
    Forall2 (fun k p =>
               fst p = formatString
                         (_getChildFormatter (rootFormatter noOptions) false)
                         k /\
               exists s1 s2,
                 format recordHeap 1
                   (_getChildFormatter (rootFormatter noOptions) true)
                   (getProperty
                      (objectLiteral [("a", VNumber (numberOf 1));
                                      ("b", VString "x")])
                      k) s1 = Ret (snd p) s2)
            ["a"; "b"] pairs /\
    "Object {" +:+ nl +:+
    "  " +:+ dq +:+ "a" +:+ dq +:+ ": 1," +:+ nl +:+
    "  " +:+ dq +:+ "b" +:+ dq +:+ ": " +:+ dq +:+ "x" +:+ dq +:+ "," +:+ nl +:+
    "}" =
    expandedText (rootFormatter noOptions) name (fst (enter 0 freshStore))
      ("{", "}") (entriesContent ": " pairs).
Proof.
  apply (record_properties recordHeap (rootFormatter noOptions) 0
           (objectLiteral [("a", VNumber (numberOf 1)); ("b", VString "x")])
           1 freshStore _
           (storeAfter (format recordHeap 2 (rootFormatter noOptions)
                          (VObject 0) freshStore)));
    first [reflexivity | vm_compute; reflexivity].
Defined.

Lemma iterate_yields (o : object) (vs : list value) :
  oiterator o = Some vs -> iterate o = map Yield (map Stored vs).
Proof. intros H. unfold iterate. now rewrite H, map_map. Qed.

(** X17: a [Set] is expanded between braces over what its iterator
    hands out, in that order, one piece for each value: the text of the
    value as a child engine renders it, a comma and a line break, or,
    for a value that is an instance of [Entry], its key, separator and
    value. *)
Theorem set_elements (h : heap) (self : Formatter) (a : addr) (o : object)
    (vs : list value) (fuel : nat) (s : store) (t : string) (s' : store) :
  h !! a = Some o ->
  instanceOf o RegExpClass = false ->
  instanceOf o DateClass = false ->
  instanceOf o MapClass = false ->
  instanceOf o SetClass = true ->
  oiterator o = Some vs ->
  _seen s !! a = None ->
  _hitMaxDepth self = false ->
  format h (S fuel) self (VObject a) s = Ret t s' ->
  exists name pieces,
    getConstructorName o = inr name /\
    Forall2 (appended h (format h fuel) self) (map Stored vs) pieces /\
    t = expandedText self name (fst (enter a s)) ("{", "}") (joined pieces).
Proof.
  intros Ho HR HD HM HS Hiter Hseen Hhit H.
  eapply expanded_pieces; [|exact Hseen|exact Hhit].
  change (format h (S fuel) self (VObject a) s)
    with (formatValue h (format h fuel) self (VObject a) s) in H.
  cbn [formatValue] in H. rewrite Ho, HR, HD, HM, HS in H.
  unfold formatSet, setContent in H.
  rewrite (iterate_yields o vs Hiter) in H. exact H.
Qed.

Lemma set_elements_witness :
  exists name pieces,
    getConstructorName (setOf [VString "x"]) = inr name /\
    Forall2 (appended setHeap (format setHeap 1) (rootFormatter noOptions))
            [Stored (VString "x")] pieces /\
    "Set {" +:+ nl +:+ "  " +:+ dq +:+ "x" +:+ dq +:+ "," +:+ nl +:+ "}" =
    expandedText (rootFormatter noOptions) name (fst (enter 0 freshStore))
      ("{", "}") (joined pieces).
Proof.
  apply (set_elements setHeap (rootFormatter noOptions) 0
           (setOf [VString "x"]) [VString "x"] 1 freshStore _
           (storeAfter (format setHeap 2 (rootFormatter noOptions)
                          (VObject 0) freshStore)));
    first [reflexivity | vm_compute; reflexivity].
Defined.

(** X18: an object that is no built-in collection and not array-like
    but has a [Symbol.iterator] method is expanded between braces over
    what its iterator hands out, in that order, one piece for each value:
    the text of the value as a child engine renders it, a comma and a
    line break, or, for a value that is an instance of [Entry], its key,
    separator and value.  Its properties are not shown. *)
Theorem iterable_elements (h : heap) (self : Formatter) (a : addr)
    (o : object) (vs : list value) (fuel : nat) (s : store) (t : string)
    (s' : store) :
  h !! a = Some o ->
  instanceOf o RegExpClass = false ->
  instanceOf o DateClass = false ->
  instanceOf o MapClass = false ->
  instanceOf o SetClass = false ->
  hasProperty o "length" && isNumber (getProperty o "length") = false ->
  oiterator o = Some vs ->
  _seen s !! a = None ->
  _hitMaxDepth self = false ->
  format h (S fuel) self (VObject a) s = Ret t s' ->
  exists name pieces,
    getConstructorName o = inr name /\
    Forall2 (appended h (format h fuel) self) (map Stored vs) pieces /\
    t = expandedText self name (fst (enter a s)) ("{", "}") (joined pieces).
Proof.
  intros Ho HR HD HM HS Hlen Hiter Hseen Hhit H.
  eapply expanded_pieces; [|exact Hseen|exact Hhit].
  change (format h (S fuel) self (VObject a) s)
    with (formatValue h (format h fuel) self (VObject a) s) in H.
  cbn [formatValue] in H. rewrite Ho, HR, HD, HM, HS, Hlen, Hiter in H.
  rewrite bool_decide_eq_true_2 in H by (now exists vs).
  unfold formatIterable, iterableContent in H. rewrite Hiter in H.
  rewrite (iterate_yields o vs Hiter) in H. exact H.
Qed.

Lemma iterable_elements_witness :
  exists name pieces,
    getConstructorName (iterableOf [VNumber (numberOf 1); VBoolean true])
      = inr name /\
    Forall2 (appended iterableHeap (format iterableHeap 1)
               (rootFormatter noOptions))
            [Stored (VNumber (numberOf 1)); Stored (VBoolean true)] pieces /\
    "Object {" +:+ nl +:+ "  1," +:+ nl +:+ "  true," +:+ nl +:+ "}" =
    expandedText (rootFormatter noOptions) name (fst (enter 0 freshStore))
      ("{", "}") (joined pieces).
Proof.
  apply (iterable_elements iterableHeap (rootFormatter noOptions) 0
           (iterableOf [VNumber (numberOf 1); VBoolean true])
           [VNumber (numberOf 1); VBoolean true]
           1 freshStore _
           (storeAfter (format iterableHeap 2 (rootFormatter noOptions)
                          (VObject 0) freshStore)));
    first [reflexivity | vm_compute; reflexivity].
Defined.

(** ** Entries and iterators met at run time *)

(** An element of an array that is an instance of [Entry] is rendered as
    its key, separator and value. *)
Lemma entry_in_array_keyed :
  rendered (format entryInArrayHeap 2 (rootFormatter noOptions) (VObject 0)
              freshStore)
  = Some ("Array [" +:+ nl +:+
          "  " +:+ dq +:+ "k" +:+ dq +:+ " -> 1," +:+ nl +:+
          "]").
Proof. vm_compute. reflexivity. Qed.

(** An element of a [Set] that is an instance of [Entry] goes the same
    way; a separator that is a symbol has no text, and [format] raises
    after key and value were rendered. *)
Lemma entry_in_set_raises :
  exists s',
    format entryInSetHeap 2 (rootFormatter noOptions) (VObject 0) freshStore
    = Throw TypeError s' /\
    _seen s' !! 0 = Some 1%Z.
Proof. eexists. split; vm_compute; reflexivity. Qed.

(** A [Map] whose iterator hands out a pair and then a number: the first
    entry is rendered, its value receiving the id 2, before the number
    fails to be destructured. *)
Lemma broken_map_raises_late :
  exists s',
    format brokenMapHeap 2 (rootFormatter noOptions) (VObject 0) freshStore
    = Throw TypeError s' /\
    CircularIdGenerator._generatedIds (_circularIdGenerator s') !! 2
    = Some 2%Z.
Proof. eexists. split; vm_compute; reflexivity. Qed.
